(** * rockit: B-spline basis engine and multi-stage OCP orchestrator

    A shallow embedding of

    - [rockit/splines/micro_spline.py]: [eval_basis_knotindex],
      [eval_basis_knotindex_subsampled], [eval_on_knots] and
      [bspline_derivative];
    - [ocpx/ocp_multistage.py]: the class [OcpMultiStage].

    Conventions of the embedding.

    - Python integers are [Z].  Indexing follows Python and CasADi: a
      negative index counts from the end, an index out of range raises.
      A raised exception is [None] in the spline engine and [Raised] in
      the orchestrator.
    - Matrix entries live in a type with a [Scalar] interface: the code is
      duck-typed over CasADi's numeric [DM] and symbolic [MX].  There are
      three instances. [float] is IEEE binary64, the arithmetic a [DM]
      computes with: it rounds, overflows to [infinity] and yields [nan].
      [expr] is the expression graph of an [MX]. [Qc] is exact rational
      arithmetic, the values the operations stand for when nothing is
      rounded; there [x / 0] is [0] as in [Qcdiv]. A statement over [Qc]
      is a statement about the exact values; statements that quantify
      over the instance hold for all three.
    - A CasADi matrix is stored by columns, as CasADi itself does. Row and
      column vectors are plain lists; the orientation is stated where the
      vector is introduced. Sparsity patterns ([sparsify], structural
      zeros) are a storage matter and are not modelled: a structural zero
      is the scalar zero. *)

From Stdlib Require Import QArith Qcanon Lia Floats.
From stdpp Require Import base option list gmap numbers.

Local Open Scope Z_scope.

(** ** Scalars: the common interface of [DM] and [MX] entries *)

Class Scalar (A : Type) := {
  s_const : Qc → A;       (* a floating-point literal or [DM] entry *)
  s_add : A → A → A;
  s_sub : A → A → A;
  s_mul : A → A → A;
  s_div : A → A → A
}.

(** Numeric reduction of one entry, [None] when it cannot be reduced. *)
Class Evalf (A : Type) := evalf_entry : A → option Qc.

(** Exact arithmetic. *)
#[global] Instance Qc_Scalar : Scalar Qc := {|
  s_const := λ q, q;
  s_add := Qcplus; s_sub := Qcminus; s_mul := Qcmult; s_div := Qcdiv
|}.

(** IEEE binary64 with rounding to nearest, the doubles of a [DM]. A
    literal is the quotient of its numerator and denominator, both taken
    as doubles: the nearest double when both are below [2^53]. *)
Definition float_of_Z (z : Z) : float :=
  match z with
  | Z0 => PrimFloat.zero
  | Zpos _ => PrimFloat.of_uint63 (Uint63.of_Z z)
  | Zneg p => PrimFloat.opp (PrimFloat.of_uint63 (Uint63.of_Z (Zpos p)))
  end.

Definition float_of_Qc (q : Qc) : float :=
  PrimFloat.div (float_of_Z (Qnum q)) (float_of_Z (Zpos (Qden q))).

#[global] Instance float_Scalar : Scalar float := {|
  s_const := float_of_Qc;
  s_add := PrimFloat.add; s_sub := PrimFloat.sub;
  s_mul := PrimFloat.mul; s_div := PrimFloat.div
|}.

#[global] Instance Qc_Evalf : Evalf Qc := λ q, Some q.

(** Symbolic entries: an [MX] expression graph over named free symbols. *)
Inductive expr : Type :=
  | EConst (q : Qc)
  | ESym (name : nat)
  | EAdd (a b : expr)
  | ESub (a b : expr)
  | EMul (a b : expr)
  | EDiv (a b : expr).

#[global] Instance expr_Scalar : Scalar expr := {|
  s_const := EConst;
  s_add := EAdd; s_sub := ESub; s_mul := EMul; s_div := EDiv
|}.

(** [evalf] of CasADi builds a function without inputs and calls it; it
    raises when the expression has a free symbol. *)
Fixpoint expr_evalf (e : expr) : option Qc :=
  match e with
  | EConst q => Some q
  | ESym _ => None
  | EAdd a b => x ← expr_evalf a; y ← expr_evalf b; Some (x + y)%Qc
  | ESub a b => x ← expr_evalf a; y ← expr_evalf b; Some (x - y)%Qc
  | EMul a b => x ← expr_evalf a; y ← expr_evalf b; Some (x * y)%Qc
  | EDiv a b => x ← expr_evalf a; y ← expr_evalf b; Some (x / y)%Qc
  end.

#[global] Instance expr_Evalf : Evalf expr := expr_evalf.

Fixpoint closed (e : expr) : bool :=
  match e with
  | EConst _ => true
  | ESym _ => false
  | EAdd a b | ESub a b | EMul a b | EDiv a b => closed a && closed b
  end.

(** [np.finfo(np.float64).eps], the gap between 1.0 and the next double. *)
Definition float64_eps : Qc := Q2Qc (1 # 4503599627370496).

(** ** Python and CasADi containers *)

Definition numel {A} (l : list A) : Z := Z.of_nat (length l).

(** Position of index [i] in a container of [len] items. *)
Definition norm_index (len : nat) (i : Z) : option nat :=
  let j := if i <? 0 then i + Z.of_nat len else i in
  if (0 <=? j) && (j <? Z.of_nat len) then Some (Z.to_nat j) else None.

(** [l[i]] *)
Definition getitem {A} (l : list A) (i : Z) : option A :=
  j ← norm_index (length l) i; l !! j.

(** [l[i] = v] *)
Definition setitem {A} (l : list A) (i : Z) (v : A) : option (list A) :=
  j ← norm_index (length l) i; Some (<[j:=v]> l).

(** [range(a, b)] *)
Definition py_range (a b : Z) : list Z :=
  (λ k : nat, a + Z.of_nat k) <$> seq 0 (Z.to_nat (b - a)).

(** [l[i]] for an index vector [i] (a [DM] of integers). *)
Definition getitems {A} (l : list A) (i : list Z) : option (list A) :=
  mapM (getitem l) i.

(** Positions selected by the slice [a:b] of a container of [len] items,
    as a first position and a count; [b = None] is an omitted upper bound.
    A negative bound counts from the end. CasADi rejects a slice that
    starts before the container or stops past its end; a slice that stops
    before it starts is empty. *)
Definition slice_bounds (len : nat) (a : Z) (b : option Z) : option (nat * nat) :=
  let wrap k := if k <? 0 then k + Z.of_nat len else k in
  let lo := wrap a in
  let hi := match b with Some b => wrap b | None => Z.of_nat len end in
  if (0 <=? lo) && (hi <=? Z.of_nat len)
  then Some (Z.to_nat lo, Z.to_nat (hi - lo)) else None.

(** [l[a:b]] *)
Definition getslice {A} (l : list A) (a : Z) (b : option Z) : option (list A) :=
  '(lo, n) ← slice_bounds (length l) a b; Some (take n (drop lo l)).

(** [for x in l: acc = f(acc, x)], stopping at the first exception. *)
Fixpoint foldlM {A B} (f : A → B → option A) (acc : A) (l : list B) : option A :=
  match l with
  | [] => Some acc
  | x :: l => acc' ← f acc x; foldlM f acc' l
  end.

(** [repmat(v, 1, n)] of a scalar [v]: a row of [n] copies. *)
Definition repmat_scalar {A} (v : A) (n : Z) : option (list A) :=
  if 0 <=? n then Some (replicate (Z.to_nat n) v) else None.

(** [linspace(a, b, nsteps)]: [nsteps] equally spaced points from [a] to
    [b], a column. For [nsteps = 1] the column holds the end point [b]
    alone; a column of fewer points cannot be built. *)
Definition linspace (a b : Qc) (nsteps : Z) : option (list Qc) :=
  if 2 <=? nsteps then
    let step := ((b - a) / Qc_of_Z (nsteps - 1))%Qc in
    Some ((λ i : nat, (a + Qc_of_Z (Z.of_nat i) * step)%Qc) <$> seq 0 (Z.to_nat nsteps))
  else if nsteps =? 1 then Some [b]
  else None.

(** A matrix with [size1] rows, stored by columns. *)
Record matrix (A : Type) := Matrix { size1 : nat; columns : list (list A) }.
Arguments Matrix {A} _ _.
Arguments size1 {A} _.
Arguments columns {A} _.

Definition size2 {A} (M : matrix A) : nat := length (columns M).

(** Every column has [size1] entries. *)
Definition matrix_wf {A} (M : matrix A) : Prop :=
  Forall (λ c, length c = size1 M) (columns M).

(** A column vector as an [n]-by-1 matrix. *)
Definition colvec {A} (v : list A) : matrix A := Matrix (length v) [v].

(** Entry-wise binary operation of CasADi: a 1-by-1 operand is a scalar;
    operands of equal shape combine entry by entry; operands with the same
    number of rows where one column count is a multiple of the other have
    the narrower one repeated horizontally; anything else is a dimension
    mismatch. *)
Definition is_scalar {A} (M : matrix A) : option A :=
  match size1 M, columns M with
  | 1%nat, [[a]] => Some a
  | _, _ => None
  end.

Definition hrepeat {A} (k : nat) (cols : list (list A)) : list (list A) :=
  mjoin (replicate k cols).

Definition cs_binary {A} (f : A → A → A) (X Y : matrix A) : option (matrix A) :=
  match is_scalar X, is_scalar Y with
  | Some a, _ => Some (Matrix (size1 Y) ((λ c : list A, f a <$> c) <$> columns Y))
  | None, Some b => Some (Matrix (size1 X) ((λ c : list A, (λ a, f a b) <$> c) <$> columns X))
  | None, None =>
    if bool_decide (size1 X = size1 Y) then
      if bool_decide (size2 X = size2 Y) then
        Some (Matrix (size1 X) (zip_with (zip_with f) (columns X) (columns Y)))
      else if bool_decide (0 < size2 X ∧ 0 < size2 Y)%nat then
        if bool_decide ((size2 X `mod` size2 Y)%nat = 0%nat) then
          Some (Matrix (size1 X)
                  (zip_with (zip_with f) (columns X)
                     (hrepeat (size2 X `div` size2 Y) (columns Y))))
        else if bool_decide ((size2 Y `mod` size2 X)%nat = 0%nat) then
          Some (Matrix (size1 X)
                  (zip_with (zip_with f)
                     (hrepeat (size2 Y `div` size2 X) (columns X)) (columns Y)))
        else None
      else None
    else None
  end.

(** [hcat(Ms)]: horizontal concatenation; the blocks must agree in their
    number of rows. *)
Definition hcat {A} (Ms : list (matrix A)) : option (matrix A) :=
  match Ms with
  | [] => Some (Matrix 0 [])
  | M :: _ =>
    if forallb (λ M', bool_decide (size1 M' = size1 M)) Ms
    then Some (Matrix (size1 M) (mjoin (columns <$> Ms))) else None
  end.

(** [evalf(M)]: every entry is reduced, or the call raises. *)
Definition evalf_list {A} `{Evalf A} (l : list A) : option (list Qc) :=
  mapM evalf_entry l.

Definition evalf {A} `{Evalf A} (M : matrix A) : option (matrix Qc) :=
  cols ← mapM evalf_list (columns M); Some (Matrix (size1 M) cols).

(** [repmat(v, 1, n)] of a column vector [v]. *)
Definition repmat_h {A} (v : list A) (n : Z) : option (matrix A) :=
  if 0 <=? n then Some (Matrix (length v) (replicate (Z.to_nat n) v)) else None.

(** [repmat(x, n, 1)] of a row vector [x]. *)
Definition repmat_v {A} (x : list A) (n : Z) : option (matrix A) :=
  if 0 <=? n then Some (Matrix (Z.to_nat n) (replicate (Z.to_nat n) <$> x)) else None.

(** [M[i, :]] for an index vector [i]. *)
Definition getrows {A} (M : matrix A) (i : list Z) : option (matrix A) :=
  cols ← mapM (λ c, getitems c i) (columns M); Some (Matrix (length i) cols).

(** [M[:, a:b]] *)
Definition getcols {A} (M : matrix A) (a : Z) (b : option Z) : option (matrix A) :=
  cols ← getslice (columns M) a b; Some (Matrix (size1 M) cols).

Section Engine.
Context {A : Type} `{Scalar A}.

Definition s_zero : A := s_const 0%Qc.

(** [MX(n, 1)]: an all-zero column. *)
Definition zeros (n : Z) : option (list A) :=
  if 0 <=? n then Some (replicate (Z.to_nat n) s_zero) else None.

(** [MX(r, c)]: an all-zero matrix. *)
Definition mzeros (r c : Z) : option (matrix A) :=
  if (0 <=? r) && (0 <=? c)
  then Some (Matrix (Z.to_nat r) (replicate (Z.to_nat c) (replicate (Z.to_nat r) s_zero)))
  else None.

(** [v[a:b] += w] on a column [v]. In the code below the operand [w] is
    indexed by the same range that the slice spans, so it has as many
    rows as the slice; any other operand is reported as a mismatch. When
    that range is empty, the operand and the empty slice of a column
    that has rows are empty matrices of different shapes, which CasADi
    reports as a mismatch as well; on a column without rows the
    statement changes nothing. *)
Definition slice_iadd (v : list A) (a b : Z) (w : list A) : option (list A) :=
  '(lo, n) ← slice_bounds (length v) a (Some b);
  if bool_decide (length w = n ∧ (n = 0%nat → length v = 0%nat))
  then Some (take lo v ++ zip_with s_add (take n (drop lo v)) w ++ drop (lo + n) v)
  else None.

(** [M[a:b, :] += W]: read the block, add with CasADi's entry-wise rules,
    write the block back; the sum must have the shape of the block. *)
Definition slice_rows_iadd (M : matrix A) (a b : Z) (W : matrix A) : option (matrix A) :=
  '(lo, n) ← slice_bounds (size1 M) a (Some b);
  R ← cs_binary s_add (Matrix n ((λ c, take n (drop lo c)) <$> columns M)) W;
  if bool_decide (size1 R = n ∧ size2 R = size2 M)
  then Some (Matrix (size1 M)
               (zip_with (λ c r, take lo c ++ r ++ drop (lo + n) c) (columns M) (columns R)))
  else None.

(** *** [eval_basis_knotindex] *)

(** The seeded 1-value, [1.0+np.finfo(np.float64).eps]. *)
Definition seed_value : A := s_const (1 + float64_eps)%Qc.

(** Lines 9-15: the degree-0 starting vector, for [numel] knots; [v] is
    the value written into the seeded slots, [seed_value] in the code. *)
Definition eval_basis_knotindex_seed (v : A) (ind : Z) (numel : Z) (d : Z)
    : option (list A) :=
  let basis := replicate (Z.to_nat numel) s_zero in
  if ind =? 0 then
    foldlM (λ basis j, setitem basis j v) basis (py_range 0 (d + 1))
  else
    setitem basis (Z.min (ind + d) (numel - d - 2)) v.

(** Lines 18-27: one pass of the loop over [e], at the evaluation point
    [x]. [knots[i]], [knots[i + e]] and [basis[i]] are indexed by the same
    vector [i], so the entry-wise operations combine equally long
    columns; [x] is a 1-by-1 operand and acts as a scalar. *)
Definition cox_de_boor_step (knots : list A) (d : Z) (x : A)
    (basis : list A) (e : Z) : option (list A) :=
  let i := py_range (d - e + 1) (numel knots - d - 1) in
  let L := numel knots - 2 * d - 2 + e in
  ki ← getitems knots i;
  kid ← getitems knots ((λ j, j + e) <$> i);
  bi ← getitems basis i;
  let norm := zip_with s_div bi (zip_with s_sub kid ki) in
  let dbg_ref := zip_with s_mul ((λ k, s_sub x k) <$> ki) norm in
  let dbg_ref2 := zip_with s_mul ((λ k, s_sub k x) <$> kid) norm in
  basis ← zeros (numel knots - e - 1);
  basis ← slice_iadd basis (d - e + 1) (d - e + 1 + L) dbg_ref;
  slice_iadd basis (d - e) (d - e + L) dbg_ref2.

(** Lines 17-28: [for e in range(1, d + 1)]. *)
Definition cox_de_boor (knots : list A) (d : Z) (x : A) (basis : list A)
    : option (list A) :=
  foldlM (cox_de_boor_step knots d x) basis (py_range 1 (d + 1)).

(** The function with its evaluation point [x] as a parameter: the seed,
    then the recursion at [x]. *)
Definition eval_basis_knotindex_at (x : A) (ind : Z) (knots : list A) (d : Z)
    : option (list A) :=
  basis ← eval_basis_knotindex_seed seed_value ind (numel knots) d;
  cox_de_boor knots d x basis.

(** [knots] is the knot vector as a column (a row is transposed first). *)
Definition eval_basis_knotindex (ind : Z) (knots : list A) (d : Z) : option (list A) :=
  basis ← eval_basis_knotindex_seed seed_value ind (numel knots) d;
  x ← getitem knots (ind + d);
  cox_de_boor knots d x basis.

(** *** [eval_basis_knotindex_subsampled] *)

(** Lines 34-37: the seeded column, repeated [N] times; [v] is the value
    written into the seeded slot, [seed_value] in the code. *)
Definition eval_basis_knotindex_subsampled_seed (v : A) (ind N : Z) (numel : Z) (d : Z)
    : option (matrix A) :=
  let basis := replicate (Z.to_nat numel) s_zero in
  basis ← setitem basis (Z.min (ind + d) (numel - d - 2)) v;
  repmat_h basis N.

(** [cs.linspace(DM(0),1,N+2)[1:-1].T]: a numeric row of [N] entries. *)
Definition subsample_tau (N : Z) : option (list Qc) :=
  pts ← linspace 0%Qc 1%Qc (N + 2);
  getslice pts 1 (Some (-1)).

(** [a*(1-tau)+tau*b], a row. *)
Definition interpolate (a b : A) (tau : list Qc) : list A :=
  (λ t, s_add (s_mul a (s_const (1 - t)%Qc)) (s_mul (s_const t) b)) <$> tau.

(** Lines 41-52: one pass of the loop over [e]; [x] is the row of
    evaluation points. *)
Definition cox_de_boor_step_subsampled (knots : list A) (d N : Z) (x : list A)
    (basis : matrix A) (e : Z) : option (matrix A) :=
  let i := py_range (d - e + 1) (numel knots - d - 1) in
  let L := numel knots - 2 * d - 2 + e in
  ki ← getitems knots i;
  kid ← getitems knots ((λ j, j + e) <$> i);
  bi ← getrows basis i;
  norm ← cs_binary s_div bi (colvec (zip_with s_sub kid ki));
  xr ← repmat_v x L;
  t ← cs_binary s_sub xr (colvec ki);
  dbg_ref ← cs_binary s_mul t norm;
  t2 ← cs_binary s_sub (colvec kid) xr;
  dbg_ref2 ← cs_binary s_mul t2 norm;
  basis ← mzeros (numel knots - e - 1) N;
  basis ← slice_rows_iadd basis (d - e + 1) (d - e + 1 + L) dbg_ref;
  slice_rows_iadd basis (d - e) (d - e + L) dbg_ref2.

Definition eval_basis_knotindex_subsampled (ind N : Z) (knots : list A) (d : Z)
    : option (matrix A) :=
  basis ← eval_basis_knotindex_subsampled_seed seed_value ind N (numel knots) d;
  tau ← subsample_tau N;
  k0 ← getitem knots (ind + d);
  k1 ← getitem knots (ind + d + 1);
  let x := interpolate k0 k1 tau in
  foldlM (cox_de_boor_step_subsampled knots d N x) basis (py_range 1 (d + 1)).

(** *** [eval_on_knots] *)

(** [horzcat(repmat(xi[0],1,d),xi,repmat(xi[-1],1,d))]; [xi] is a row. *)
Definition clamped_knots (xi : list A) (d : Z) : option (list A) :=
  x0 ← getitem xi 0;
  left ← repmat_scalar x0 d;
  xl ← getitem xi (-1);
  right ← repmat_scalar xl d;
  Some (left ++ xi ++ right).

(** Lines 62-68: the body of the loop over [i]; the state is the pair of
    Python lists [(basis, k)], [k] already flattened to a row. *)
Definition eval_on_knots_body (xi knots : list A) (d subsamples : Z) (tau : list Qc)
    (acc : list (matrix A) * list A) (i : Z) : option (list (matrix A) * list A) :=
  let '(basis, k) := acc in
  b ← eval_basis_knotindex i knots d;
  let basis := basis ++ [colvec b] in
  xi_i ← getitem xi i;
  let k := k ++ [xi_i] in
  if (0 <? subsamples) && (i <? numel knots - 2 * d - 1) then
    k_current ← getitem xi i;
    k_next ← getitem xi (i + 1);
    let k := k ++ interpolate k_current k_next tau in
    bs ← eval_basis_knotindex_subsampled i subsamples knots d;
    Some (basis ++ [bs], k)
  else Some (basis, k).

(** Lines 57-70: the table before numeric reduction. *)
Definition eval_on_knots_raw (xi : list A) (d subsamples : Z)
    : option (list A * matrix A) :=
  knots ← clamped_knots xi d;
  tau ← subsample_tau subsamples;
  '(basis, k) ← foldlM (eval_on_knots_body xi knots d subsamples tau) ([], [])
                  (py_range 0 (numel knots - 2 * d));
  basis ← hcat basis;
  Some (k, basis).

(** *** [bspline_derivative]; [xi] is a row, [c] has a row per dimension. *)
Definition bspline_derivative (c : matrix A) (xi : list A) (d : Z) : option (matrix A) :=
  upper ← getslice xi 1 None;
  xl ← getitem xi (-1);
  upper_pad ← repmat_scalar xl (d - 1);
  x0 ← getitem xi 0;
  lower_pad ← repmat_scalar x0 (d - 1);
  lower ← getslice xi 0 (Some (-1));
  let delta_xi := zip_with s_sub (upper ++ upper_pad) (lower_pad ++ lower) in
  let scale := (λ dx, s_div (s_const (Qc_of_Z d)) dx) <$> delta_xi in
  S ← repmat_v scale (Z.of_nat (size1 c));
  c1 ← getcols c 1 None;
  c0 ← getcols c 0 (Some (-1));
  dc ← cs_binary s_sub c1 c0;
  cs_binary s_mul S dc.

End Engine.

(** The outcome of [try: v = evalf(v) / except: pass]. *)
Inductive reduced (N S : Type) : Type :=
  | Numeric (v : N)
  | Symbolic (e : S).
Arguments Numeric {N S} _.
Arguments Symbolic {N S} _.

Definition try_evalf {A} `{Evalf A} (M : matrix A) : reduced (matrix Qc) (matrix A) :=
  match evalf M with Some v => Numeric v | None => Symbolic M end.

Definition try_evalf_row {A} `{Evalf A} (k : list A) : reduced (list Qc) (list A) :=
  match evalf_list k with Some v => Numeric v | None => Symbolic k end.

(** [eval_on_knots(xi, d, subsamples)] returns the pair [(k, basis)]. *)
Definition eval_on_knots {A} `{Scalar A} `{Evalf A} (xi : list A) (d subsamples : Z)
    : option (reduced (list Qc) (list A) * reduced (matrix Qc) (matrix A)) :=
  '(k, basis) ← eval_on_knots_raw xi d subsamples;
  let basis := try_evalf basis in
  let k := try_evalf_row k in
  Some (k, basis).

(** ** The orchestrator [OcpMultiStage] *)

(** Python objects are identified by a location in a heap. *)
Abbreviation loc := positive.

(** Where a constraint applies on the horizon of a stage. *)
Inductive applicability : Type := Everywhere | AtT0 | AtTf.

Section Orchestrator.
(** External collaborators: the constraint expressions of the Math
    Engine, the configuration of a transcription strategy, the keyword
    arguments of the [Stage] constructor, the solver context [Opti] of
    CasADi with its solution and error values. *)
Context {Constr Strategy Kwargs Opti Sol Err : Type}.

(** A method object: a strategy and the solver context it owns. The
    orchestrator reads [opti] of its own method; a stage is transcribed
    by the strategy of the method the stage carries. *)
Record Method : Type := mkMethod { strategy : Strategy; opti : Opti }.

(** Modelled from the spec: the class [Stage] of [ocpx/stage.py], absent
    from the sources. A stage owns its state and control symbols, its
    constraint expressions, each tagged with where it applies, its
    objective terms, and the method that transcribes it. A stage value
    holds no reference to another heap object, so that copying the value
    is a deep copy. *)
Record Stage : Type := mkStage {
  stage_states : list nat;
  stage_controls : list nat;
  stage_constraints : list (Constr * applicability);
  stage_objective : list Constr;
  stage_method : Method
}.

(** [OcpxSolution(sol)]: a read-only wrapper of the solver result. *)
Record OcpxSolution : Type := mkOcpxSolution { sol : Sol }.

Record OcpMultiStage : Type := mkOcpMultiStage {
  stages : list loc;              (* [self.stages], references to stages *)
  is_transcribed : bool;          (* [self.is_transcribed] *)
  _method : option Method         (* [self._method], unset by [__init__] *)
}.

(** [OcpMultiStage.__init__] *)
Definition OcpMultiStage_init : OcpMultiStage :=
  mkOcpMultiStage [] false None.

(** The part of the Python heap the orchestrator works on: the stage
    objects, the orchestrator itself, and (as an observation of the calls
    made to the external method) the stages handed to [transcribe], in
    call order. *)
Record world : Type := mkWorld {
  heap : gmap loc Stage;
  ocp : OcpMultiStage;
  trace : list loc
}.

Inductive exn : Type :=
  | AttributeError            (* [self._method] read before [method()] *)
  | DanglingReference         (* a location without object; not reachable from Python *)
  | TranscribeError (e : Err) (* raised by [Method.transcribe] *)
  | SolverError (e : Err).    (* raised by [opti.solve()] *)

Inductive outcome (X : Type) : Type :=
  | Normal (x : X)
  | Raised (e : exn).
Arguments Normal {X} _.
Arguments Raised {X} _.

(** Computations that read and write the world and may raise. The world
    is returned in both cases: what was mutated before an exception
    stays mutated. *)
Definition OcpM (X : Type) : Type := world → outcome X * world.

Definition ret {X} (x : X) : OcpM X := λ w, (Normal x, w).
Definition raise {X} (e : exn) : OcpM X := λ w, (Raised e, w).
Definition bind {X Y} (m : OcpM X) (k : X → OcpM Y) : OcpM Y := λ w,
  match m w with
  | (Normal x, w') => k x w'
  | (Raised e, w') => (Raised e, w')
  end.

Notation "'let*' x ':=' m 'in' k" := (bind m (λ x, k))
  (at level 10, x name, m at level 100, k at level 200, only parsing).
Notation "m ';;' k" := (bind m (λ _, k))
  (at level 100, k at level 200, right associativity, only parsing).

Definition get_ocp : OcpM OcpMultiStage := λ w, (Normal (ocp w), w).
Definition put_ocp (o : OcpMultiStage) : OcpM unit := λ w,
  (Normal tt, mkWorld (heap w) o (trace w)).

(** [self._method], an [AttributeError] when no method was bound. *)
Definition get_method : OcpM Method :=
  let* o := get_ocp in
  match _method o with Some m => ret m | None => raise AttributeError end.

(** Mutation of the [Opti] object that [self._method.opti] refers to. *)
Definition put_opti (op : Opti) : OcpM unit :=
  let* o := get_ocp in
  let* m := get_method in
  put_ocp (mkOcpMultiStage (stages o) (is_transcribed o)
             (Some (mkMethod (strategy m) op))).

Definition deref (s : loc) : OcpM Stage := λ w,
  match heap w !! s with
  | Some st => (Normal st, w)
  | None => (Raised DanglingReference, w)
  end.

(** A new object on the heap. *)
Definition alloc (st : Stage) : OcpM loc := λ w,
  let s := fresh (dom (heap w)) in
  (Normal s, mkWorld (<[s := st]> (heap w)) (ocp w) (trace w)).

(** [deepcopy(prev_stage)]: a new object with a copy of the value. *)
Definition deepcopy (prev_stage : loc) : OcpM loc :=
  let* st := deref prev_stage in alloc st.

Definition log_transcribe (s : loc) : OcpM unit := λ w,
  (Normal tt, mkWorld (heap w) (ocp w) (trace w ++ [s])).

Section Methods.
(** The constructor [Stage(self, **kwargs)], which is handed the
    orchestrator, the transcription of one stage into a solver context
    (the context as the call leaves it, and the exception if it
    raised), and the NLP solver, which reads the context. *)
Variable Stage_init : OcpMultiStage → Kwargs → Stage.
Variable transcribe : Strategy → Stage → Opti → Opti * option Err.
Variable opti_solve : Opti → Sol + Err.

(** [OcpMultiStage.stage(prev_stage=None, **kwargs)] *)
Definition stage (prev_stage : option loc) (kwargs : Kwargs) : OcpM loc :=
  let* s := match prev_stage with
            | None => let* o := get_ocp in alloc (Stage_init o kwargs)
            | Some p => deepcopy p
            end in
  let* o := get_ocp in
  put_ocp (mkOcpMultiStage (stages o ++ [s]) (is_transcribed o) (_method o));;
  ret s.

(** [OcpMultiStage.method(method)] *)
Definition method (m : Method) : OcpM unit :=
  let* o := get_ocp in
  put_ocp (mkOcpMultiStage (stages o) (is_transcribed o) (Some m)).

(** [s._method.transcribe(s, opti)] *)
Definition transcribe_stage (s : loc) : OcpM unit :=
  let* st := deref s in
  let* m := get_method in
  log_transcribe s;;
  let '(op, r) := transcribe (strategy (stage_method st)) st (opti m) in
  put_opti op;;
  match r with
  | None => ret tt
  | Some e => raise (TranscribeError e)
  end.

(** [for s in self.stages: s._method.transcribe(s, opti)] *)
Fixpoint transcribe_loop (ss : list loc) : OcpM unit :=
  match ss with
  | [] => ret tt
  | s :: ss => transcribe_stage s;; transcribe_loop ss
  end.

(** [OcpMultiStage.solve()] *)
Definition solve : OcpM OcpxSolution :=
  let* _m := get_method in
  let* o := get_ocp in
  (if negb (is_transcribed o) then
     transcribe_loop (stages o);;
     let* o := get_ocp in
     put_ocp (mkOcpMultiStage (stages o) true (_method o))
   else ret tt);;
  let* m := get_method in
  match opti_solve (opti m) with
  | inl r => ret (mkOcpxSolution r)
  | inr e => raise (SolverError e)
  end.

(** Modelled from the spec: [Stage.subject_to], absent from the
    sources: add a constraint expression to the stage object, with the
    place where it applies. *)
Definition subject_to (s : loc) (c : Constr) (a : applicability) : OcpM unit := λ w,
  match heap w !! s with
  | Some st =>
    let st' := mkStage (stage_states st) (stage_controls st)
                 (stage_constraints st ++ [(c, a)]) (stage_objective st)
                 (stage_method st) in
    (Normal tt, mkWorld (<[s := st']> (heap w)) (ocp w) (trace w))
  | None => (Raised DanglingReference, w)
  end.

(** Calls a client makes on the orchestrator, and a session of them. *)
Inductive call : Type :=
  | CallStage (prev_stage : option loc) (kwargs : Kwargs)
  | CallSolve.

Definition run_call (c : call) (w : world) : world :=
  match c with
  | CallStage p kw => (stage p kw w).2
  | CallSolve => (solve w).2
  end.

Definition run_calls (cs : list call) (w : world) : world :=
  foldl (λ w c, run_call c w) w cs.

End Methods.
End Orchestrator.

Arguments Normal {Err X} _.
Arguments Raised {Err X} _.

(** Contexts a transcription loop leaves behind, computed without the
    heap plumbing: the stages are transcribed from left to right, each
    into the context left by its predecessor. *)
Definition transcribe_all {Constr Strategy Opti Err : Type}
    (transcribe : Strategy → @Stage Constr Strategy Opti → Opti → Opti * option Err)
    (h : gmap loc (@Stage Constr Strategy Opti)) (ss : list loc) (op : Opti) : Opti :=
  foldl (λ op s, match h !! s with
                 | Some st => (transcribe (strategy (stage_method st)) st op).1
                 | None => op
                 end) op ss.

(** The context of the method bound to the orchestrator, if any. *)
Definition ocp_opti {Constr Strategy Opti : Type}
    (w : @world Constr Strategy Opti) : option Opti :=
  opti <$> _method (ocp w).

(** The caller replaces the stage objects (for instance to repair a stage
    that could not be transcribed); the orchestrator is not touched. *)
Definition with_heap {Constr Strategy Opti : Type}
    (h : gmap loc (@Stage Constr Strategy Opti)) (w : @world Constr Strategy Opti)
    : @world Constr Strategy Opti :=
  mkWorld h (ocp w) (trace w).

(** ** The engine on its domain

    For [n] breakpoints and degree [d] the knot vector has [n + 2d]
    entries, and every index the recursion computes is a natural number
    within range. There the loop bodies have the closed forms below, which
    the proofs use in place of the index arithmetic. *)
Section ClosedForms.
Context {A : Type} `{Scalar A}.

(** [v[lo : lo + length w] += w], for a slice that lies within [v]. *)
Definition add_at (lo : nat) (w v : list A) : list A :=
  take lo v ++ zip_with s_add (take (length w) (drop lo v)) w
    ++ drop (lo + length w) v.

(** Pass [e] of the recursion at [x], from [basis]. *)
Definition step_form (knots : list A) (n d : nat) (x : A) (basis : list A) (e : nat)
    : list A :=
  let a := (d - e + 1)%nat in
  let L := (n - 2 + e)%nat in
  let ki := take L (drop a knots) in
  let kid := take L (drop (a + e) knots) in
  let norm := zip_with s_div (take L (drop a basis)) (zip_with s_sub kid ki) in
  add_at (d - e) (zip_with s_mul ((λ k, s_sub k x) <$> kid) norm)
    (add_at a (zip_with s_mul ((λ k, s_sub x k) <$> ki) norm)
       (replicate (n + 2 * d - e - 1) s_zero)).

(** All [d] passes. *)
Definition recursion_form (knots : list A) (n d : nat) (x : A) (basis : list A)
    : list A :=
  foldl (step_form knots n d x) basis (seq 1 d).

(** The clamped knot vector and the padded breakpoints. *)
Definition pad (k : nat) (xi : list A) : list A :=
  match xi with
  | [] => []
  | x0 :: _ => replicate k x0 ++ xi ++ replicate k (List.last xi x0)
  end.
End ClosedForms.

(** Sum of the entries of a column. *)
Definition vsum (l : list Qc) : Qc := foldr Qcplus 0%Qc l.

(** The same in doubles, and the test that a column of doubles sums to 1
    within the tolerance [1e-9]; a [nan] fails every comparison. *)
Definition fsum (l : list float) : float := foldr PrimFloat.add PrimFloat.zero l.

Definition sums_to_one (col : list float) : bool :=
  PrimFloat.leb (PrimFloat.abs (PrimFloat.sub (fsum col) PrimFloat.one))
    (float_of_Qc (Q2Qc (1 # 1000000000))).

(** The double nearest to [1e308]; twice this value overflows. *)
Definition float_1e308 : float := 0x1.1ccf385ebc8ap+1023%float.

(** Breakpoints in strictly increasing order. *)
Definition strictly_increasing (xi : list Qc) : Prop :=
  ∀ i j a b, (i < j)%nat → xi !! i = Some a → xi !! j = Some b → (a < b)%Qc.

(** Entry in row [i] and column [k] of a matrix. *)
Definition entry {A} (M : matrix A) (i k : nat) : option A :=
  c ← columns M !! k; c !! i.

(** [bspline_derivative] applied [d] times, from degree [d] down to
    degree 0. *)
Fixpoint bspline_derivatives {A} `{Scalar A} (c : matrix A) (xi : list A) (d : nat)
    : option (matrix A) :=
  match d with
  | O => Some c
  | S d' => c' ← bspline_derivative c xi (Z.of_nat d); bspline_derivatives c' xi d'
  end.

(** ** Predicates of the statements *)

(** [v] vanishes outside the slots [lo .. hi - 1]. *)
Definition zero_outside (lo hi : nat) (v : list Qc) : Prop :=
  ∀ j, (j < lo ∨ hi ≤ j)%nat → (j < length v)%nat → v !! j = Some 0%Qc.

(** No knot span that the recursion divides by is empty. *)
Definition spans_nonzero (knots : list Qc) (n d : nat) : Prop :=
  ∀ e j a b, (1 ≤ e ≤ d)%nat → (d - e + 1 ≤ j)%nat → (j < n + d - 1)%nat →
    knots !! j = Some a → knots !! (j + e)%nat = Some b → (b - a)%Qc ≠ 0%Qc.

(** A block of the table: [n + d - 1] rows, every column summing to the
    seeded value. *)
Definition unit_block (n d : nat) (M : matrix Qc) : Prop :=
  size1 M = (n + d - 1)%nat ∧
  Forall (λ c, vsum c = (1 + float64_eps)%Qc) (columns M).

(** Quotients of the derivative rule:
    [d / (xi_padded[k + d] - xi_padded[k])]. *)
Definition derivative_scale (xi : list Qc) (d : nat) : list Qc :=
  (λ k, Qc_of_Z (Z.of_nat d) /
          (default 0 (pad (d - 1) xi !! (k + d)%nat) - default 0 (pad (d - 1) xi !! k)))%Qc
  <$> seq 0 (length xi + d - 2).

(** Matrices of the same shape with related entries. *)
Definition matrix_rel {A B} (R : A → B → Prop) (X : matrix A) (Y : matrix B) : Prop :=
  size1 X = size1 Y ∧ Forall2 (Forall2 R) (columns X) (columns Y).

(** Related states of the loop of [eval_on_knots]. *)
Definition table_rel {A B} (R : A → B → Prop)
    (a : list (matrix A) * list A) (b : list (matrix B) * list B) : Prop :=
  Forall2 (matrix_rel R) a.1 b.1 ∧ Forall2 R a.2 b.2.

(** [n] strictly increasing breakpoints. *)
Definition ramp (n : nat) : list Qc := (λ i : nat, Qc_of_Z (Z.of_nat i)) <$> seq 0 n.

(** The closed expression [e] reduces to the number [q]. *)
Definition evaluates (e : expr) (q : Qc) : Prop := expr_evalf e = Some q.

(** Any two entries: the relation that forgets the entries of a matrix
    and keeps its shape. *)
Definition any_entry {A B} (a : A) (b : B) : Prop := True.

(** ** A small orchestrator

    An instance of the external collaborators on which the statements
    about [OcpMultiStage] can be run: constraints are numbers, a strategy
    has no configuration, the solver context is the list of decision
    variables registered so far, [transcribe] registers the states and
    controls of a stage and raises on a stage without states, and the
    solver returns the length of the decision vector. *)
Definition toy_transcribe (_ : unit) (st : @Stage nat unit (list nat)) (op : list nat)
    : list nat * option unit :=
  (op ++ stage_states st ++ stage_controls st,
   match stage_states st with [] => Some tt | _ => None end).

Definition toy_solve (op : list nat) : nat + unit := inl (length op).

Definition toy_method : @Method unit (list nat) := mkMethod tt [].

Definition toy_Stage_init (_ : @OcpMultiStage unit (list nat)) (_ : unit)
    : @Stage nat unit (list nat) :=
  mkStage [] [] [] [] toy_method.

Definition toy_stage1 : @Stage nat unit (list nat) :=
  mkStage [1; 2]%nat [3]%nat [(7%nat, AtT0)] [] toy_method.

Definition toy_stage2 : @Stage nat unit (list nat) :=
  mkStage [4]%nat [5]%nat [] [] toy_method.

Definition toy_heap : gmap loc (@Stage nat unit (list nat)) :=
  <[1%positive := toy_stage1]> (<[2%positive := toy_stage2]> ∅).

(** Two registered stages and a bound method, nothing transcribed yet. *)
Definition toy_world : @world nat unit (list nat) :=
  mkWorld toy_heap (mkOcpMultiStage [1; 2]%positive false (Some toy_method)) [].

(** The same, with a second stage that cannot be transcribed. *)
Definition toy_world_broken : @world nat unit (list nat) :=
  mkWorld (<[2%positive := toy_Stage_init OcpMultiStage_init tt]> toy_heap)
    (mkOcpMultiStage [1; 2]%positive false (Some toy_method)) [].

(** ** Further predicates *)

(** The registered stages are pairwise distinct objects of the heap. *)
Definition registered_ok {Constr Strategy Opti : Type}
    (w : @world Constr Strategy Opti) : Prop :=
  NoDup (stages (ocp w)) ∧ Forall (λ s, is_Some (heap w !! s)) (stages (ocp w)).

(** Knots in non-decreasing order. *)
Definition nondecreasing (knots : list Qc) : Prop :=
  ∀ i j a b, (i ≤ j)%nat → knots !! i = Some a → knots !! j = Some b → (a ≤ b)%Qc.

(** Entry [i] of a numeric column; 0 stands for an entry that is not
    there. *)
Definition at0 (v : list Qc) (i : nat) : Qc := default 0%Qc (v !! i).

(** The column [v] is non-negative and vanishes outside the rows
    [lo .. hi]. *)
Definition supported (lo hi : nat) (v : list Qc) : Prop :=
  ∀ j a, v !! j = Some a → (0 ≤ a)%Qc ∧ (a ≠ 0%Qc → (lo ≤ j ≤ hi)%nat).

(** The evaluation points that turn [i] of the loop of [eval_on_knots]
    appends: breakpoint [i], then the subsamples towards breakpoint
    [i + 1], if there is one. *)
Definition points_of_turn {A} `{Scalar A} (xi : list A) (tau : list Qc) (i : nat)
    : list A :=
  match xi !! i, xi !! S i with
  | Some a, Some b => a :: interpolate a b tau
  | Some a, None => [a]
  | None, _ => []
  end.

(** ** Meaning of symbolic entries *)

(** The number an expression denotes once its free symbols are given the
    values [ρ]: what calling a CasADi [Function] of the symbols on these
    values returns. Division is that of the numeric instance. *)
Fixpoint denote (ρ : nat → Qc) (e : expr) : Qc :=
  match e with
  | EConst q => q
  | ESym x => ρ x
  | EAdd a b => (denote ρ a + denote ρ b)%Qc
  | ESub a b => (denote ρ a - denote ρ b)%Qc
  | EMul a b => (denote ρ a * denote ρ b)%Qc
  | EDiv a b => (denote ρ a / denote ρ b)%Qc
  end.

(** A function applied to every entry of a matrix. *)
Definition matrix_map {A B} (f : A → B) (M : matrix A) : matrix B :=
  Matrix (size1 M) ((λ col : list A, f <$> col) <$> columns M).

(** A solver that does not converge, for the small orchestrator. *)
Definition toy_solve_failing (op : list nat) : nat + unit := inr tt.

(** ** The path-following example

    [examples/timeopt_pathfollowing_transformed2.py]: a two-link arm
    follows a straight line as fast as its torque limits allow. The
    script's parameters and its functions of joint angles and of the path
    coordinate. Vectors of two entries are pairs, the 2-by-2 matrix is a
    pair of rows; [x**2] is [x * x]. The transcendental functions of
    CasADi stay uninterpreted. *)
Module PathFollowing.

Definition l1 : Qc := 1.
Definition l2 : Qc := 1.
Definition m1 : Qc := 1.
Definition m2 : Qc := 2.
Definition I1 : Qc := Q2Qc (1 # 2).
Definition I2 : Qc := Q2Qc (1 # 2).
Definition lc1 : Qc := Q2Qc (1 # 2).
Definition lc2 : Qc := Q2Qc (1 # 2).

Definition mu31 : Qc := (m1 * (lc1 * lc1) + I1)%Qc.
Definition mu12 : Qc := m2.
Definition mu22 : Qc := (m2 * lc2)%Qc.
Definition mu32 : Qc := (m2 * (lc2 * lc2) + I2)%Qc.

(** The path length, [L] in the script. *)
Definition L : Qc := 1.

Section Kinematics.
Variables (cos sin acos : Qc → Qc) (atan2 : Qc → Qc → Qc).

(** The mass matrix [M(q)]. *)
Definition M (q : Qc * Qc) : (Qc * Qc) * (Qc * Qc) :=
((mu12 * (l1 * l1) + mu22 * 2 * l1 * cos q.2 + mu31 + mu32,
  mu32 + mu22 * l1 * cos q.2),
 (mu32 + mu22 * l1 * cos q.2, mu32))%Qc.

(** The cosine of the elbow angle, [c] in [chi_inv]. *)
Definition chi_inv_c (y : Qc * Qc) : Qc :=
((y.1 * y.1 + y.2 * y.2 - l1 * l1 - l2 * l2) / (2 * l1 * l2))%Qc.

(** Inverse kinematics [chi_inv(y)]. *)
Definition chi_inv (y : Qc * Qc) : Qc * Qc :=
let c := chi_inv_c y in
let q2 := acos c in
let q1 := (atan2 y.2 y.1 - atan2 (l2 * sin q2) (l1 + l2 * c))%Qc in
(q1, q2).

End Kinematics.

(** The desired path of the end effector, [yd(s)]. *)
Definition yd (s : Qc) : Qc * Qc :=
  (Q2Qc (3 # 2) * s / L + 0 * (1 - s / L),
   0 * s / L + Q2Qc (3 # 2) * (1 - s / L))%Qc.

(** The desired joint angles, [qd(s)]. *)
Definition qd (sin acos : Qc → Qc) (atan2 : Qc → Qc → Qc) (s : Qc) : Qc * Qc :=
  chi_inv sin acos atan2 (yd s).

End PathFollowing.

(** ** Tactics of the proofs *)

(** Case analysis on the integer comparisons of the goal. *)
Ltac zbool :=
  repeat match goal with
  | |- context [(?a <? ?b)%Z] => destruct (Z.ltb_spec a b)
  | |- context [(?a <=? ?b)%Z] => destruct (Z.leb_spec a b)
  | |- context [(?a =? ?b)%Z] => destruct (Z.eqb_spec a b)
  end; simpl; try lia; try done.

(** The numeric instance of the scalar operations, unfolded. *)
Ltac qc := unfold s_zero in *; cbn [s_const s_add s_sub s_mul s_div Qc_Scalar] in *.

(** Strict order of a list of at most three numbers, by cases. *)
Ltac increasing3 :=
  intros [|[|[|?]]] [|[|[|?]]] ? ? ? Ha Hb; simpl in Ha, Hb;
  try discriminate; try lia;
  injection Ha as <-; injection Hb as <-; reflexivity.

#[local] Arguments Nat.mul : simpl never.
#[local] Arguments Z.mul : simpl never.
#[local] Arguments Z.add : simpl never.
#[local] Arguments Z.sub : simpl never.
#[local] Arguments Z.of_nat : simpl never.

(** * Containers: indices that are natural numbers *)

Section ContainerFacts.
Context {A : Type}.
Implicit Types (l v w : list A).

Lemma norm_index_nat (len i : nat) :
  (i < len)%nat → norm_index len (Z.of_nat i) = Some i.
Proof. intros. unfold norm_index. zbool. by rewrite Nat2Z.id. Qed.

Lemma getitem_nat l (i : nat) : getitem l (Z.of_nat i) = l !! i.
Proof.
  unfold getitem. destruct (decide (i < length l)%nat) as [Hi|Hi].
  - by rewrite norm_index_nat.
  - rewrite (lookup_ge_None_2 l i) by lia. unfold norm_index. zbool.
Qed.

Lemma getitem_0 l : getitem l 0 = head l.
Proof. change 0 with (Z.of_nat 0). rewrite getitem_nat. by destruct l. Qed.

Lemma getitem_minus_1 l a : getitem (l ++ [a]) (-1) = Some a.
Proof.
  unfold getitem, norm_index. rewrite length_app. simpl. zbool.
  replace (Z.to_nat _) with (length l) by lia.
  by rewrite lookup_app_r, Nat.sub_diag.
Qed.

Lemma fmap_seq_shift {B} (f : nat → B) (a k : nat) :
  f <$> seq a k = (λ i, f (a + i)%nat) <$> seq 0 k.
Proof.
  apply list_eq. intros i. rewrite !list_lookup_fmap.
  destruct (decide (i < k)%nat).
  - rewrite !lookup_seq_lt by done. done.
  - rewrite !lookup_seq_ge by lia. done.
Qed.

Lemma py_range_nat (a k : nat) :
  py_range (Z.of_nat a) (Z.of_nat a + Z.of_nat k) = Z.of_nat <$> seq a k.
Proof.
  unfold py_range. replace (Z.to_nat _) with k by lia.
  rewrite (fmap_seq_shift Z.of_nat).
  apply list_fmap_ext. intros _ i _. simpl. lia.
Qed.

Lemma py_range_length (a b : Z) : length (py_range a b) = Z.to_nat (b - a).
Proof. unfold py_range. by rewrite length_fmap, length_seq. Qed.

Lemma getitems_seq l (a k : nat) :
  (a + k ≤ length l)%nat →
  getitems l (Z.of_nat <$> seq a k) = Some (take k (drop a l)).
Proof.
  revert a. induction k as [|k IH]; intros a Hk; simpl.
  { by rewrite take_0. }
  unfold getitems in *. simpl. rewrite getitem_nat.
  destruct (lookup_lt_is_Some_2 l a) as [y Hy]; [lia|]. rewrite Hy. simpl.
  rewrite IH by lia. simpl.
  rewrite (drop_S l y a Hy). by rewrite <-Nat.add_1_r.
Qed.

Lemma getitems_seq_shift l (a k e : nat) :
  (a + e + k ≤ length l)%nat →
  getitems l ((λ j, j + Z.of_nat e) <$> (Z.of_nat <$> seq a k)) =
    Some (take k (drop (a + e) l)).
Proof.
  intros. rewrite <-getitems_seq by lia. f_equal.
  rewrite <-list_fmap_compose.
  rewrite (fmap_seq_shift _ a), (fmap_seq_shift _ (a + e)).
  apply list_fmap_ext. intros _ i _. simpl. lia.
Qed.

Lemma slice_bounds_nat (len a b : nat) :
  (a ≤ b ≤ len)%nat →
  slice_bounds len (Z.of_nat a) (Some (Z.of_nat b)) = Some (a, (b - a)%nat).
Proof. intros. unfold slice_bounds. zbool. do 2 f_equal; lia. Qed.

Lemma foldlM_app {B} (f : A → B → option A) acc (l1 l2 : list B) :
  foldlM f acc (l1 ++ l2) = acc' ← foldlM f acc l1; foldlM f acc' l2.
Proof.
  revert acc. induction l1 as [|x l1 IH]; intros acc; simpl; [done|].
  destruct (f acc x); simpl; [apply IH|done].
Qed.

End ContainerFacts.

(** * The recursion on its domain *)

Section EngineFacts.
Context {A : Type} `{Scalar A}.
Implicit Types (knots basis : list A).

Lemma zeros_nat (k : nat) : zeros (A:=A) (Z.of_nat k) = Some (replicate k s_zero).
Proof. unfold zeros. zbool. by rewrite Nat2Z.id. Qed.

Lemma slice_iadd_nat (v w : list A) (lo k : nat) :
  length w = k → (1 ≤ k)%nat → (lo + k ≤ length v)%nat →
  slice_iadd v (Z.of_nat lo) (Z.of_nat (lo + k)) w = Some (add_at lo w v).
Proof.
  intros <- ? ?. unfold slice_iadd. rewrite slice_bounds_nat by lia. simpl.
  replace (lo + length w - lo)%nat with (length w) by lia.
  rewrite bool_decide_eq_true_2; [done|]. split; [done|lia].
Qed.

Lemma length_add_at (lo : nat) (w v : list A) :
  (lo + length w ≤ length v)%nat → length (add_at lo w v) = length v.
Proof.
  intros. unfold add_at.
  rewrite !length_app, length_zip_with, !length_take, !length_drop. lia.
Qed.

(** Lengths of the operands of a pass. *)
Lemma step_operand_length knots basis (n d e : nat) (f g : A → A) :
  length knots = (n + 2 * d)%nat → (1 ≤ e ≤ d)%nat → (2 ≤ n)%nat →
  (n + d - 1 ≤ length basis)%nat →
  let a := (d - e + 1)%nat in
  let L := (n - 2 + e)%nat in
  length (zip_with s_mul (f <$> take L (drop a knots))
            (zip_with s_div (take L (drop a basis))
               (zip_with s_sub (take L (drop (a + e) knots))
                  (take L (drop a knots))))) = L ∧
  length (zip_with s_mul (g <$> take L (drop (a + e) knots))
            (zip_with s_div (take L (drop a basis))
               (zip_with s_sub (take L (drop (a + e) knots))
                  (take L (drop a knots))))) = L.
Proof.
  intros Hk He Hn Hb a L.
  rewrite !length_zip_with, !length_fmap, !length_take, !length_drop.
  rewrite Hk.
  replace (L `min` (n + 2 * d - a))%nat with L by (subst a L; lia).
  replace (L `min` (n + 2 * d - (a + e)))%nat with L by (subst a L; lia).
  replace (L `min` (length basis - a))%nat with L by (subst a L; lia).
  by rewrite !Nat.min_id.
Qed.

Lemma length_step_form knots basis (n d e : nat) (x : A) :
  length knots = (n + 2 * d)%nat → (1 ≤ e ≤ d)%nat → (2 ≤ n)%nat →
  (n + d - 1 ≤ length basis)%nat →
  length (step_form knots n d x basis e) = (n + 2 * d - e - 1)%nat.
Proof.
  intros Hk He Hn Hb. unfold step_form.
  destruct (step_operand_length knots basis n d e (λ k, s_sub x k) (λ k, s_sub k x))
    as [H1 H2]; [done..|].
  set (w1 := zip_with s_mul ((λ k, s_sub x k) <$> _) _) in *.
  set (w2 := zip_with s_mul ((λ k, s_sub k x) <$> _) _) in *.
  assert (length (add_at (d - e + 1) w1 (replicate (n + 2 * d - e - 1) s_zero))
          = (n + 2 * d - e - 1)%nat) as Hl1.
  { rewrite length_add_at; rewrite length_replicate; [done|]. rewrite H1. lia. }
  rewrite length_add_at; rewrite Hl1; [done|]. rewrite H2. lia.
Qed.

(** The loop body computes its closed form. *)
Lemma cox_de_boor_step_form knots basis (n d e : nat) (x : A) :
  length knots = (n + 2 * d)%nat → (1 ≤ e ≤ d)%nat → (2 ≤ n)%nat →
  (n + d - 1 ≤ length basis)%nat →
  cox_de_boor_step knots (Z.of_nat d) x basis (Z.of_nat e)
    = Some (step_form knots n d x basis e).
Proof.
  intros Hk He Hn Hb. unfold cox_de_boor_step, numel. rewrite Hk.
  set (a := (d - e + 1)%nat). set (L := (n - 2 + e)%nat).
  replace (Z.of_nat d - Z.of_nat e + 1) with (Z.of_nat a) by lia.
  replace (Z.of_nat (n + 2 * d) - Z.of_nat d - 1) with (Z.of_nat a + Z.of_nat L) by lia.
  rewrite py_range_nat.
  rewrite getitems_seq by lia. simpl.
  rewrite getitems_seq_shift by lia. simpl.
  rewrite getitems_seq by lia. simpl.
  replace (Z.of_nat (n + 2 * d) - Z.of_nat e - 1)
    with (Z.of_nat (n + 2 * d - e - 1)) by lia.
  rewrite zeros_nat. simpl.
  destruct (step_operand_length knots basis n d e (λ k, s_sub x k) (λ k, s_sub k x))
    as [H1 H2]; [done..|]. fold a L in H1, H2.
  replace (Z.of_nat a + (Z.of_nat (n + 2 * d) - 2 * Z.of_nat d - 2 + Z.of_nat e))
    with (Z.of_nat (a + L)) by lia.
  rewrite (slice_iadd_nat _ _ a L) by (rewrite ?length_replicate; lia).
  simpl.
  replace (Z.of_nat d - Z.of_nat e) with (Z.of_nat (d - e)) by lia.
  replace (Z.of_nat (d - e) + (Z.of_nat (n + 2 * d) - 2 * Z.of_nat d - 2 + Z.of_nat e))
    with (Z.of_nat ((d - e) + L)) by lia.
  rewrite (slice_iadd_nat _ _ (d - e) L); [done|done|unfold L; lia|].
  rewrite length_add_at; rewrite length_replicate, ?H1; lia.
Qed.

Lemma py_range_1 (d : nat) : py_range 1 (Z.of_nat d + 1) = Z.of_nat <$> seq 1 d.
Proof.
  pose proof (py_range_nat 1 d) as E. rewrite <-E. f_equal. lia.
Qed.

(** The loop computes its closed form: all [d] passes go through. *)
Lemma foldlM_step_form knots (n d : nat) (x : A) (es : list nat) basis :
  length knots = (n + 2 * d)%nat → (2 ≤ n)%nat →
  Forall (λ e, 1 ≤ e ≤ d)%nat es →
  (n + d - 1 ≤ length basis)%nat →
  foldlM (cox_de_boor_step knots (Z.of_nat d) x) basis (Z.of_nat <$> es)
    = Some (foldl (step_form knots n d x) basis es).
Proof.
  intros Hk Hn. revert basis. induction es as [|e es IH]; intros basis Hes Hb.
  { done. }
  inversion_clear Hes as [|? ? He Hes']. simpl.
  rewrite (cox_de_boor_step_form _ _ n) by done. simpl.
  apply IH; [done|]. rewrite length_step_form by done. lia.
Qed.

Lemma cox_de_boor_form knots (n d : nat) (x : A) basis :
  length knots = (n + 2 * d)%nat → (2 ≤ n)%nat →
  (n + d - 1 ≤ length basis)%nat →
  cox_de_boor knots (Z.of_nat d) x basis = Some (recursion_form knots n d x basis).
Proof.
  intros. unfold cox_de_boor. rewrite py_range_1.
  apply foldlM_step_form; [done..| |done].
  apply Forall_seq. intros e He. lia.
Qed.

Lemma length_recursion_form knots (n d : nat) (x : A) basis :
  length knots = (n + 2 * d)%nat → (2 ≤ n)%nat → (1 ≤ d)%nat →
  (n + d - 1 ≤ length basis)%nat →
  length (recursion_form knots n d x basis) = (n + d - 1)%nat.
Proof.
  intros Hk Hn Hd Hb. unfold recursion_form.
  assert (∀ k, (k ≤ d)%nat → (1 ≤ k)%nat →
    length (foldl (step_form knots n d x) basis (seq 1 k)) = (n + 2 * d - k - 1)%nat)
    as Hlen.
  { induction k as [|k IH]; intros; [lia|].
    rewrite seq_S, foldl_app. simpl.
    rewrite length_step_form; [lia|done|lia|done|].
    destruct k; [done|]. rewrite IH by lia. lia. }
  rewrite Hlen by lia. lia.
Qed.

End EngineFacts.

(** * Sums and supports of numeric columns *)

Local Open Scope Qc_scope.

Section SumFacts.
Implicit Types (v w : list Qc).

Lemma vsum_app v w : vsum (v ++ w) = vsum v + vsum w.
Proof. induction v as [|a v IH]; simpl; [ring|]. rewrite IH. ring. Qed.

Lemma vsum_zip_add v w :
  length v = length w → vsum (zip_with Qcplus v w) = vsum v + vsum w.
Proof.
  revert w. induction v as [|a v IH]; intros [|b w] ?; simplify_eq/=; [ring|].
  rewrite IH by done. ring.
Qed.

Lemma vsum_zeros (k : nat) : vsum (replicate k 0) = 0.
Proof. induction k as [|k IH]; simpl; [done|]. rewrite IH. ring. Qed.

Lemma vsum_all_zero v : (∀ j a, v !! j = Some a → a = 0) → vsum v = 0.
Proof.
  induction v as [|a v IH]; intros Hz; simpl; [done|].
  rewrite (Hz 0%nat a) by done. rewrite IH; [ring|].
  intros j b Hj. by apply (Hz (S j)).
Qed.

Lemma vsum_insert (k j : nat) (a : Qc) :
  (j < k)%nat → vsum (<[j:=a]> (replicate k 0)) = a.
Proof.
  revert j. induction k as [|k IH]; intros [|j] ?; simpl; try lia.
  - rewrite vsum_zeros. ring.
  - rewrite IH by lia. ring.
Qed.

Lemma vsum_split (lo k : nat) v :
  vsum v = vsum (take lo v) + (vsum (take k (drop lo v)) + vsum (drop (lo + k) v)).
Proof.
  rewrite <-!vsum_app. f_equal.
  rewrite <-drop_drop, take_drop. by rewrite take_drop.
Qed.

Lemma vsum_add_at (lo : nat) w v :
  (lo + length w ≤ length v)%nat →
  vsum (add_at lo w v) = vsum v + vsum w.
Proof.
  intros. unfold add_at. qc.
  rewrite !vsum_app, vsum_zip_add by (rewrite length_take, length_drop; lia).
  rewrite (vsum_split lo (length w) v). ring.
Qed.

(** The two contributions of a pass add up to what the pass read. *)
Lemma vsum_pass (x : Qc) (ki kid bi : list Qc) :
  length ki = length bi → length kid = length bi →
  Forall2 (λ k k', k' - k ≠ 0) ki kid →
  vsum (zip_with s_mul ((λ k, s_sub x k) <$> ki)
          (zip_with s_div bi (zip_with s_sub kid ki)))
  + vsum (zip_with s_mul ((λ k, s_sub k x) <$> kid)
            (zip_with s_div bi (zip_with s_sub kid ki)))
  = vsum bi.
Proof.
  intros H1 H2 Hne. revert bi H1 H2.
  induction Hne as [|k k' ki kid Hk Hne IH]; intros [|b bi] ??; simplify_eq/=;
    [ring|]. qc.
  rewrite <-(IH bi) by done. field. done.
Qed.

Lemma zero_outside_vsum (lo hi : nat) v :
  zero_outside lo hi v → (lo ≤ hi ≤ length v)%nat →
  vsum (take (hi - lo) (drop lo v)) = vsum v.
Proof.
  intros Hz Hb. rewrite (vsum_split lo (hi - lo) v).
  rewrite (vsum_all_zero (take lo v)), (vsum_all_zero (drop _ v)); [ring| |].
  - intros j a. rewrite lookup_drop. intros Hj.
    pose proof (lookup_lt_Some _ _ _ Hj).
    rewrite Hz in Hj by lia. congruence.
  - intros j a Hj. pose proof (lookup_lt_Some _ _ _ Hj) as Hlt.
    rewrite length_take in Hlt. rewrite lookup_take_lt in Hj by lia.
    rewrite Hz in Hj by lia. congruence.
Qed.

Lemma lookup_add_at_outside (lo j : nat) w v :
  (lo + length w ≤ length v)%nat → (j < lo ∨ lo + length w ≤ j)%nat →
  add_at lo w v !! j = v !! j.
Proof.
  intros Hb Hj. unfold add_at.
  assert (length (zip_with s_add (take (length w) (drop lo v)) w) = length w) as Hl.
  { rewrite length_zip_with, length_take, length_drop. lia. }
  destruct Hj as [Hj|Hj].
  - rewrite lookup_app_l by (rewrite length_take; lia).
    by rewrite lookup_take_lt.
  - rewrite lookup_app_r by (rewrite length_take; lia).
    rewrite lookup_app_r by (rewrite length_take, Hl; lia).
    rewrite lookup_drop, length_take, Hl. f_equal. lia.
Qed.

Lemma zero_outside_add_at (lo hi a : nat) w v :
  (a + length w ≤ length v)%nat → (lo ≤ a)%nat → (a + length w ≤ hi)%nat →
  zero_outside lo hi v → zero_outside lo hi (add_at a w v).
Proof.
  intros Hb ?? Hz j Hj Hlt. rewrite length_add_at in Hlt by done.
  rewrite lookup_add_at_outside by lia. by apply Hz.
Qed.

Lemma zero_outside_zeros (lo hi k : nat) : zero_outside lo hi (replicate k 0).
Proof. intros j _ Hj. rewrite length_replicate in Hj. by rewrite lookup_replicate_2. Qed.

End SumFacts.

Section PassFacts.
Variables (knots : list Qc) (n d : nat).
Hypothesis Hknots : length knots = (n + 2 * d)%nat.
Hypothesis Hn : (2 ≤ n)%nat.

Lemma spans_Forall2 (e : nat) :
  spans_nonzero knots n d → (1 ≤ e ≤ d)%nat →
  Forall2 (λ k k', k' - k ≠ 0)
    (take (n - 2 + e) (drop (d - e + 1) knots))
    (take (n - 2 + e) (drop (d - e + 1 + e) knots)).
Proof.
  intros Hsp He. apply Forall2_same_length_lookup_2.
  { rewrite !length_take, !length_drop. lia. }
  intros j a b Ha Hb.
  pose proof (lookup_lt_Some _ _ _ Ha) as Hj. rewrite length_take in Hj.
  rewrite lookup_take_lt, lookup_drop in Ha by lia.
  rewrite lookup_take_lt, lookup_drop in Hb by lia.
  apply (Hsp e (d - e + 1 + j)%nat); [done|lia|lia|done|].
  rewrite <-Hb. f_equal. lia.
Qed.

Lemma step_form_vsum (x : Qc) (basis : list Qc) (e : nat) :
  spans_nonzero knots n d → (1 ≤ e ≤ d)%nat →
  (n + d - 1 ≤ length basis)%nat →
  vsum (step_form knots n d x basis e)
    = vsum (take (n - 2 + e) (drop (d - e + 1) basis)).
Proof.
  intros Hsp He Hb. unfold step_form.
  destruct (step_operand_length knots basis n d e (λ k, s_sub x k) (λ k, s_sub k x))
    as [H1 H2]; [done..|].
  set (w1 := zip_with s_mul ((λ k, s_sub x k) <$> _) _) in *.
  set (w2 := zip_with s_mul ((λ k, s_sub k x) <$> _) _) in *.
  rewrite !vsum_add_at;
    rewrite ?length_add_at, ?length_replicate; rewrite ?length_replicate; try lia.
  rewrite vsum_zeros. subst w1 w2.
  rewrite <-(vsum_pass x (take (n - 2 + e) (drop (d - e + 1) knots))
               (take (n - 2 + e) (drop (d - e + 1 + e) knots))
               (take (n - 2 + e) (drop (d - e + 1) basis))).
  - ring.
  - rewrite !length_take, !length_drop. lia.
  - rewrite !length_take, !length_drop. lia.
  - by apply spans_Forall2.
Qed.

Lemma step_form_zero_outside (x : Qc) (basis : list Qc) (e : nat) :
  (1 ≤ e ≤ d)%nat → (n + d - 1 ≤ length basis)%nat →
  zero_outside (d - e) (n + d - 1) (step_form knots n d x basis e).
Proof.
  intros He Hb. unfold step_form.
  destruct (step_operand_length knots basis n d e (λ k, s_sub x k) (λ k, s_sub k x))
    as [H1 H2]; [done..|].
  set (w1 := zip_with s_mul ((λ k, s_sub x k) <$> _) _) in *.
  set (w2 := zip_with s_mul ((λ k, s_sub k x) <$> _) _) in *.
  apply zero_outside_add_at;
    rewrite ?length_add_at, ?length_replicate; rewrite ?length_replicate; try lia.
  apply zero_outside_add_at; rewrite ?length_replicate; try lia.
  apply zero_outside_zeros.
Qed.

(** After [k] passes: the length, the support and the sum. *)
Lemma passes_invariant (x : Qc) (basis : list Qc) (k : nat) :
  spans_nonzero knots n d → (1 ≤ k ≤ d)%nat →
  (n + d - 1 ≤ length basis)%nat →
  let b := foldl (step_form knots n d x) basis (seq 1 k) in
  length b = (n + 2 * d - k - 1)%nat ∧
  zero_outside (d - k) (n + d - 1) b ∧
  vsum b = vsum (take (n - 1) (drop d basis)).
Proof.
  intros Hsp Hk Hb. induction k as [|k IH]; [lia|].
  rewrite seq_S, foldl_app. simpl.
  destruct (decide (k = 0)%nat) as [->|Hk0].
  - simpl. split; [|split].
    + rewrite length_step_form by (done || lia). lia.
    + by apply step_form_zero_outside.
    + rewrite step_form_vsum by done.
      by replace (n - 2 + 1)%nat with (n - 1)%nat by lia;
         replace (d - 1 + 1)%nat with d by lia.
  - destruct IH as (Hl & Hz & Hs); [lia|].
    split; [|split].
    + rewrite length_step_form by (done || lia). lia.
    + apply step_form_zero_outside; lia.
    + rewrite step_form_vsum by (done || lia). rewrite <-Hs.
      replace (d - S k + 1)%nat with (d - k)%nat by lia.
      replace (n - 2 + S k)%nat with (n + d - 1 - (d - k))%nat by lia.
      apply zero_outside_vsum; [done|lia].
Qed.

Lemma recursion_form_vsum (x : Qc) (basis : list Qc) :
  spans_nonzero knots n d → (1 ≤ d)%nat → (n + d - 1 ≤ length basis)%nat →
  vsum (recursion_form knots n d x basis) = vsum (take (n - 1) (drop d basis)).
Proof. intros. by apply passes_invariant. Qed.

End PassFacts.

(** * The seeded columns *)

Local Open Scope Z_scope.

Section SeedFacts.
Context {A : Type} `{Scalar A}.

Lemma setitem_nat (l : list A) (i : nat) (v : A) :
  (i < length l)%nat → setitem l (Z.of_nat i) v = Some (<[i:=v]> l).
Proof. intros. unfold setitem. by rewrite norm_index_nat. Qed.

(** [for j in range(k): basis[j] = v] *)
Lemma foldlM_setitem (l : list A) (v : A) (k : nat) :
  (k ≤ length l)%nat →
  foldlM (λ basis j, setitem basis j v) l (Z.of_nat <$> seq 0 k)
    = Some (replicate k v ++ drop k l).
Proof.
  induction k as [|k IH]; intros Hk; [done|].
  rewrite seq_S, fmap_app, foldlM_app, IH by lia.
  cbn [mbind option_bind fmap list_fmap foldlM Nat.add].
  rewrite setitem_nat by (rewrite length_app, length_replicate, length_drop; lia).
  cbn [mbind option_bind]. f_equal.
  destruct (lookup_lt_is_Some_2 l k) as [y Hy]; [lia|].
  rewrite (drop_S l y k Hy).
  rewrite insert_app_r_alt by (rewrite length_replicate; lia).
  rewrite length_replicate, Nat.sub_diag.
  rewrite replicate_S_end, <-app_assoc. done.
Qed.

(** The seed of index 0: the first [d + 1] slots. *)
Lemma seed_zero (v : A) (m d : nat) :
  (d + 1 ≤ m)%nat →
  eval_basis_knotindex_seed v 0 (Z.of_nat m) (Z.of_nat d)
    = Some (replicate (d + 1) v ++ replicate (m - (d + 1)) s_zero).
Proof.
  intros. unfold eval_basis_knotindex_seed. simpl.
  pose proof (py_range_nat 0 (d + 1)) as E.
  replace (Z.of_nat 0 + Z.of_nat (d + 1)) with (Z.of_nat d + 1) in E by lia.
  change (Z.of_nat 0) with 0 in E. rewrite E, Nat2Z.id.
  rewrite foldlM_setitem by (rewrite length_replicate; lia).
  by rewrite drop_replicate.
Qed.

(** The seed of a later index: one slot. *)
Lemma seed_pos (v : A) (ind n d : nat) :
  (1 ≤ ind)%nat → (2 ≤ n)%nat →
  eval_basis_knotindex_seed v (Z.of_nat ind) (Z.of_nat (n + 2 * d)) (Z.of_nat d)
    = Some (<[((ind + d) `min` (n + d - 2))%nat := v]> (replicate (n + 2 * d) s_zero)).
Proof.
  intros. unfold eval_basis_knotindex_seed.
  destruct (Z.eqb_spec (Z.of_nat ind) 0); [lia|].
  replace (Z.min _ _) with (Z.of_nat ((ind + d) `min` (n + d - 2))%nat) by lia.
  rewrite Nat2Z.id. rewrite setitem_nat; [done|]. rewrite length_replicate. lia.
Qed.

Lemma subsampled_seed_form (v : A) (ind N n d : nat) :
  (2 ≤ n)%nat →
  eval_basis_knotindex_subsampled_seed v (Z.of_nat ind) (Z.of_nat N)
      (Z.of_nat (n + 2 * d)) (Z.of_nat d)
    = Some (Matrix (n + 2 * d)
              (replicate N (<[((ind + d) `min` (n + d - 2))%nat := v]>
                              (replicate (n + 2 * d) s_zero)))).
Proof.
  intros. unfold eval_basis_knotindex_subsampled_seed.
  replace (Z.min _ _) with (Z.of_nat ((ind + d) `min` (n + d - 2))%nat) by lia.
  rewrite Nat2Z.id. rewrite setitem_nat by (rewrite length_replicate; lia).
  simpl. unfold repmat_h. zbool.
  by rewrite Nat2Z.id, length_insert, length_replicate.
Qed.

(** What the first pass reads of a seed: the slots [d .. n + d - 2]. *)
Lemma seed_zero_window (v : A) (n d : nat) :
  (2 ≤ n)%nat →
  take (n - 1) (drop d (replicate (d + 1) v ++ replicate (n + 2 * d - (d + 1)) s_zero))
    = <[0%nat := v]> (replicate (n - 1) s_zero).
Proof.
  intros. rewrite replicate_add, <-app_assoc.
  rewrite drop_app_length' by (by rewrite length_replicate). simpl.
  destruct n as [|[|n]]; [lia..|]. simpl.
  replace (S n - 0)%nat with (S n) by lia. simpl.
  f_equal. f_equal. rewrite take_replicate. f_equal. lia.
Qed.

Lemma seed_pos_window (v : A) (ind n d : nat) :
  (2 ≤ n)%nat →
  take (n - 1) (drop d (<[((ind + d) `min` (n + d - 2))%nat := v]>
                          (replicate (n + 2 * d) s_zero)))
    = <[(ind `min` (n - 2))%nat := v]> (replicate (n - 1) s_zero).
Proof.
  intros. rewrite drop_insert_ge by lia.
  rewrite take_insert_lt by lia.
  rewrite drop_replicate, take_replicate.
  f_equal; [lia|]. f_equal. lia.
Qed.

End SeedFacts.

(** * CasADi matrices: the cases the engine meets *)

Section MatrixFacts.
Context {A : Type}.
Implicit Types (X Y : matrix A) (xs ys : list (list A)) (y c : list A).

Lemma hrepeat_singleton (k : nat) y : hrepeat k [y] = replicate k y.
Proof. unfold hrepeat. induction k as [|k IH]; simpl; [done|]. by rewrite IH. Qed.

Lemma zip_with_replicate_r {B C} (f : A → B → C) (l : list A) (b : B) :
  zip_with f l (replicate (length l) b) = (λ a, f a b) <$> l.
Proof. induction l as [|a l IH]; simpl; [done|]. by rewrite IH. Qed.

Lemma zip_with_replicate_l {B C} (f : B → A → C) (l : list A) (b : B) :
  zip_with f (replicate (length l) b) l = f b <$> l.
Proof. induction l as [|a l IH]; simpl; [done|]. by rewrite IH. Qed.

(** Operands of the same shape combine entry by entry. *)
Lemma cs_binary_same_shape (f : A → A → A) (r : nat) xs ys :
  Forall (λ c, length c = r) xs → Forall (λ c, length c = r) ys →
  length xs = length ys →
  cs_binary f (Matrix r xs) (Matrix r ys)
    = Some (Matrix r (zip_with (zip_with f) xs ys)).
Proof.
  intros Hx Hy Hl. unfold cs_binary, is_scalar, size2. simpl.
  destruct r as [|[|r]]; rewrite ?bool_decide_eq_true_2 by done; try done.
  destruct xs as [|[|a [|??]] [|??]]; destruct ys as [|[|b [|??]] [|??]];
    simplify_eq/=; rewrite ?bool_decide_eq_true_2 by done; try done;
    repeat match goal with
           | H : Forall _ (_ :: _) |- _ => inversion_clear H
           end; simplify_eq/=.
Qed.

Lemma fmap_ext_Forall {B} (g h : list A → B) (P : list A → Prop) xs :
  (∀ c, P c → g c = h c) → Forall P xs → g <$> xs = h <$> xs.
Proof.
  intros Hgh Hx. induction Hx as [|c xs Hc Hx IH]; [done|].
  rewrite !fmap_cons. f_equal; [by apply Hgh|done].
Qed.

Lemma zip_with_replicate_cols {B C} (g : list A → B → C) xs (b : B) :
  zip_with g xs (replicate (length xs) b) = (λ c, g c b) <$> xs.
Proof.
  induction xs as [|c xs IH]; [done|].
  rewrite fmap_cons. simpl. f_equal. apply IH.
Qed.

Lemma is_scalar_many (r : nat) xs :
  length xs ≠ 1%nat → is_scalar (Matrix r xs) = None.
Proof.
  intros. unfold is_scalar; simpl. destruct r as [|[|r]]; [done| |done].
  by destruct xs as [|[|? [|??]] [|??]].
Qed.

Lemma is_scalar_tall (r : nat) xs :
  r ≠ 1%nat → is_scalar (Matrix r xs) = None.
Proof. intros. unfold is_scalar; simpl. by destruct r as [|[|r]]. Qed.

Lemma cs_binary_hmultiple_r (f : A → A → A) (r : nat) xs y :
  r ≠ 1%nat → length xs ≠ 1%nat → (1 ≤ length xs)%nat →
  cs_binary f (Matrix r xs) (Matrix r [y])
    = Some (Matrix r (zip_with (zip_with f) xs (replicate (length xs) y))).
Proof.
  intros Hr H1 Hn. unfold cs_binary.
  rewrite (is_scalar_many r xs), (is_scalar_tall r [y]) by done.
  unfold size2. cbn [size1 columns]. change (length [y]) with 1%nat.
  rewrite bool_decide_eq_true_2 by done.
  rewrite bool_decide_eq_false_2 by done.
  rewrite bool_decide_eq_true_2 by lia.
  rewrite Nat.mod_1_r, Nat.div_1_r, hrepeat_singleton.
  by rewrite bool_decide_eq_true_2.
Qed.

Lemma cs_binary_hmultiple_l (f : A → A → A) (r : nat) xs y :
  r ≠ 1%nat → length xs ≠ 1%nat → (1 ≤ length xs)%nat →
  cs_binary f (Matrix r [y]) (Matrix r xs)
    = Some (Matrix r (zip_with (zip_with f) (replicate (length xs) y) xs)).
Proof.
  intros Hr H1 Hn. unfold cs_binary.
  rewrite (is_scalar_tall r [y]), (is_scalar_many r xs) by done.
  unfold size2. cbn [size1 columns]. change (length [y]) with 1%nat.
  rewrite bool_decide_eq_true_2 by done.
  rewrite bool_decide_eq_false_2 by done.
  rewrite bool_decide_eq_true_2 by lia.
  rewrite bool_decide_eq_false_2 by (rewrite Nat.mod_small; lia).
  rewrite Nat.mod_1_r, Nat.div_1_r, hrepeat_singleton.
  by rewrite bool_decide_eq_true_2.
Qed.

Lemma zip_with_replicate_cols_l {B C} (g : B → list A → C) xs (b : B) :
  zip_with g (replicate (length xs) b) xs = g b <$> xs.
Proof.
  induction xs as [|c xs IH]; [done|].
  rewrite fmap_cons. simpl. f_equal. apply IH.
Qed.

(** A column on the right is repeated across the columns of the left
    operand. *)
Lemma cs_binary_colvec_r (f : A → A → A) (r : nat) xs y :
  Forall (λ c, length c = r) xs → length y = r → (1 ≤ length xs)%nat →
  cs_binary f (Matrix r xs) (colvec y)
    = Some (Matrix r ((λ c, zip_with f c y) <$> xs)).
Proof.
  intros Hx Hy Hn. unfold colvec. rewrite Hy.
  destruct (decide (length xs = 1%nat)) as [H1|H1].
  { destruct xs as [|c [|??]]; simplify_eq/=.
    rewrite cs_binary_same_shape; [done|done| |done].
    by repeat constructor. }
  destruct (decide (r = 1%nat)) as [->|Hr].
  - destruct y as [|b [|??]]; simplify_eq/=.
    unfold cs_binary. rewrite is_scalar_many by done.
    cbn [is_scalar size1 columns]. do 2 f_equal.
    eapply fmap_ext_Forall; [|exact Hx].
    intros c Hc. simpl in Hc. by destruct c as [|a [|??]]; simplify_eq/=.
  - rewrite cs_binary_hmultiple_r by done.
    by rewrite zip_with_replicate_cols.
Qed.

(** A column on the left is repeated across the columns of the right
    operand. *)
Lemma cs_binary_colvec_l (f : A → A → A) (r : nat) xs y :
  Forall (λ c, length c = r) xs → length y = r → (1 ≤ length xs)%nat →
  cs_binary f (colvec y) (Matrix r xs)
    = Some (Matrix r ((λ c, zip_with f y c) <$> xs)).
Proof.
  intros Hx Hy Hn. unfold colvec. rewrite Hy.
  destruct (decide (length xs = 1%nat)) as [H1|H1].
  { destruct xs as [|c [|??]]; simplify_eq/=.
    rewrite cs_binary_same_shape; [done| |done|done].
    by repeat constructor. }
  destruct (decide (r = 1%nat)) as [->|Hr].
  - destruct y as [|b [|??]]; simplify_eq/=.
    unfold cs_binary. cbn [is_scalar size1 columns]. do 2 f_equal.
    eapply fmap_ext_Forall; [|exact Hx].
    intros c Hc. simpl in Hc. by destruct c as [|a [|??]]; simplify_eq/=.
  - rewrite cs_binary_hmultiple_l by done.
    by rewrite zip_with_replicate_cols_l.
Qed.

End MatrixFacts.

(** * The subsampled recursion, column by column *)

Section SubsampledFacts.
Context {A : Type} `{Scalar A}.
Implicit Types (cols ws : list (list A)) (x : list A).

Lemma repmat_v_nat x (L : nat) :
  repmat_v x (Z.of_nat L) = Some (Matrix L (replicate L <$> x)).
Proof. unfold repmat_v. zbool. by rewrite Nat2Z.id. Qed.

Lemma mzeros_nat (r c : nat) :
  mzeros (A:=A) (Z.of_nat r) (Z.of_nat c)
    = Some (Matrix r (replicate c (replicate r s_zero))).
Proof. unfold mzeros. zbool. by rewrite !Nat2Z.id. Qed.

Lemma getrows_seq (r a L : nat) cols :
  Forall (λ c, a + L ≤ length c)%nat cols →
  getrows (Matrix r cols) (Z.of_nat <$> seq a L)
    = Some (Matrix L ((λ c, take L (drop a c)) <$> cols)).
Proof.
  intros Hc. unfold getrows. cbn [columns].
  rewrite length_fmap, length_seq.
  assert (mapM (λ c, getitems c (Z.of_nat <$> seq a L)) cols
          = Some ((λ c, take L (drop a c)) <$> cols)) as ->; [|done].
  apply mapM_Some. apply Forall2_fmap_r.
  apply Forall_Forall2_diag. eapply Forall_impl; [|exact Hc].
  intros c ?. by apply getitems_seq.
Qed.

Lemma zip_add_at (lo L : nat) cols ws :
  Forall (λ w, length w = L) ws → length ws = length cols →
  zip_with (λ c r, take lo c ++ r ++ drop (lo + L) c) cols
    (zip_with (zip_with s_add) ((λ c, take L (drop lo c)) <$> cols) ws)
  = zip_with (λ c w, add_at lo w c) cols ws.
Proof.
  intros Hw. revert cols. induction Hw as [|w ws Hl Hw IH]; intros [|c cols] ?;
    simplify_eq/=; [done|].
  unfold add_at at 1. f_equal. by apply IH.
Qed.

Lemma slice_rows_iadd_nat (m lo L : nat) cols ws :
  Forall (λ c, length c = m) cols → Forall (λ w, length w = L) ws →
  length ws = length cols → (lo + L ≤ m)%nat →
  slice_rows_iadd (Matrix m cols) (Z.of_nat lo) (Z.of_nat (lo + L)) (Matrix L ws)
    = Some (Matrix m (zip_with (λ c w, add_at lo w c) cols ws)).
Proof.
  intros Hc Hw Hl Hb. unfold slice_rows_iadd. cbn [size1 columns].
  rewrite slice_bounds_nat by lia. cbn [mbind option_bind].
  replace (lo + L - lo)%nat with L by lia.
  rewrite cs_binary_same_shape; [| |done|by rewrite length_fmap].
  2:{ apply Forall_fmap. eapply Forall_impl; [|exact Hc].
      intros c Hlc. simpl in *. rewrite length_take, length_drop. lia. }
  cbn [mbind option_bind size1 columns]. unfold size2. cbn [columns].
  rewrite bool_decide_eq_true_2.
  2:{ split; [done|]. rewrite length_zip_with, length_fmap. lia. }
  by rewrite zip_add_at.
Qed.

Lemma zip_with_replicate_sub_l (f : A → A → A) (a : A) (l : list A) (L : nat) :
  length l = L → zip_with f (replicate L a) l = (λ k, f a k) <$> l.
Proof. intros <-. apply zip_with_replicate_l. Qed.

Lemma zip_with_replicate_sub_r (f : A → A → A) (a : A) (l : list A) (L : nat) :
  length l = L → zip_with f l (replicate L a) = (λ k, f k a) <$> l.
Proof. intros <-. apply zip_with_replicate_r. Qed.

(** The loop body works on every column as the single-index loop body
    works at the evaluation point of that column. *)
Lemma cox_de_boor_step_subsampled_form knots (n d e r N : nat) x cols :
  length knots = (n + 2 * d)%nat → (1 ≤ e ≤ d)%nat → (2 ≤ n)%nat →
  Forall (λ c, length c = r) cols → (n + d - 1 ≤ r)%nat →
  length cols = N → length x = N → (1 ≤ N)%nat →
  cox_de_boor_step_subsampled knots (Z.of_nat d) (Z.of_nat N) x (Matrix r cols)
      (Z.of_nat e)
    = Some (Matrix (n + 2 * d - e - 1)
              (zip_with (λ xj c, step_form knots n d xj c e) x cols)).
Proof.
  intros Hk He Hn Hc Hr Hcols Hx HN.
  unfold cox_de_boor_step_subsampled, numel. rewrite Hk.
  set (a := (d - e + 1)%nat). set (L := (n - 2 + e)%nat).
  replace (Z.of_nat d - Z.of_nat e + 1) with (Z.of_nat a) by lia.
  replace (Z.of_nat (n + 2 * d) - Z.of_nat d - 1) with (Z.of_nat a + Z.of_nat L) by lia.
  replace (Z.of_nat (n + 2 * d) - 2 * Z.of_nat d - 2 + Z.of_nat e)
    with (Z.of_nat L) by lia.
  replace (Z.of_nat (n + 2 * d) - Z.of_nat e - 1)
    with (Z.of_nat (n + 2 * d - e - 1)) by lia.
  replace (Z.of_nat d - Z.of_nat e) with (Z.of_nat (d - e)) by lia.
  rewrite py_range_nat.
  rewrite <-!Nat2Z.inj_add.
  rewrite getitems_seq by lia. cbn [mbind option_bind].
  rewrite getitems_seq_shift by lia. cbn [mbind option_bind].
  set (ki := take L (drop a knots)). set (kid := take L (drop (a + e) knots)).
  assert (length ki = L) as Hki by (subst ki; rewrite length_take, length_drop; lia).
  assert (length kid = L) as Hkid by (subst kid; rewrite length_take, length_drop; lia).
  rewrite getrows_seq by (eapply Forall_impl; [|exact Hc]; intros c Hlc; simpl in *; lia).
  cbn [mbind option_bind].
  rewrite cs_binary_colvec_r;
    [|apply Forall_fmap; eapply Forall_impl; [|exact Hc];
      intros c Hlc; simpl in *; rewrite length_take, length_drop; lia
     |rewrite length_zip_with; lia
     |rewrite length_fmap; lia].
  cbn [mbind option_bind].
  rewrite repmat_v_nat. cbn [mbind option_bind].
  rewrite cs_binary_colvec_r;
    [|apply Forall_fmap, Forall_true; intros c; simpl; by rewrite length_replicate
     |done|rewrite length_fmap; lia].
  cbn [mbind option_bind].
  rewrite cs_binary_same_shape;
    [|apply Forall_fmap, Forall_fmap, Forall_true; intros c; simpl;
      rewrite length_zip_with, length_replicate; lia
     |apply Forall_fmap, Forall_fmap; eapply Forall_impl; [|exact Hc];
      intros c Hlc; simpl in *; rewrite !length_zip_with, length_take, length_drop; lia
     |rewrite !length_fmap; lia].
  cbn [mbind option_bind].
  rewrite cs_binary_colvec_l;
    [|apply Forall_fmap, Forall_true; intros c; simpl; by rewrite length_replicate
     |done|rewrite length_fmap; lia].
  cbn [mbind option_bind].
  rewrite cs_binary_same_shape;
    [|apply Forall_fmap, Forall_fmap, Forall_true; intros c; simpl;
      rewrite length_zip_with, length_replicate; lia
     |apply Forall_fmap, Forall_fmap; eapply Forall_impl; [|exact Hc];
      intros c Hlc; simpl in *; rewrite !length_zip_with, length_take, length_drop; lia
     |rewrite !length_fmap; lia].
  cbn [mbind option_bind].
  rewrite mzeros_nat. cbn [mbind option_bind].
  rewrite slice_rows_iadd_nat;
    [|apply Forall_replicate; by rewrite length_replicate
     |apply Forall_lookup_2; intros i w Hw;
      apply lookup_zip_with_Some in Hw as (t & q & -> & Ht & Hq);
      repeat rewrite list_lookup_fmap in Ht; repeat rewrite list_lookup_fmap in Hq;
      destruct (x !! i) as [xi|] eqn:Hxi; destruct (cols !! i) as [c|] eqn:Hci;
      simplify_eq/=;
      pose proof (Forall_lookup_1 _ _ _ _ Hc Hci) as Hlc; simpl in Hlc;
      rewrite !length_zip_with, length_replicate, length_take, length_drop; lia
     |rewrite length_zip_with, !length_fmap, length_replicate; lia
     |lia].
  cbn [mbind option_bind].
  rewrite slice_rows_iadd_nat;
    [|apply Forall_lookup_2; intros i w Hw;
      apply lookup_zip_with_Some in Hw as (t & q & -> & Ht & Hq);
      apply lookup_replicate in Ht as [-> _];
      apply lookup_zip_with_Some in Hq as (t & q' & -> & Ht & Hq);
      repeat rewrite list_lookup_fmap in Ht; repeat rewrite list_lookup_fmap in Hq;
      destruct (x !! i) as [xi|] eqn:Hxi; destruct (cols !! i) as [c|] eqn:Hci;
      simplify_eq/=;
      pose proof (Forall_lookup_1 _ _ _ _ Hc Hci) as Hlc; simpl in Hlc;
      rewrite length_add_at; rewrite length_replicate; [done|];
      rewrite !length_zip_with, length_replicate, length_take, length_drop; lia
     |apply Forall_lookup_2; intros i w Hw;
      apply lookup_zip_with_Some in Hw as (t & q & -> & Ht & Hq);
      repeat rewrite list_lookup_fmap in Ht; repeat rewrite list_lookup_fmap in Hq;
      destruct (x !! i) as [xi|] eqn:Hxi; destruct (cols !! i) as [c|] eqn:Hci;
      simplify_eq/=;
      pose proof (Forall_lookup_1 _ _ _ _ Hc Hci) as Hlc; simpl in Hlc;
      rewrite !length_zip_with, length_replicate, length_take, length_drop; lia
     |rewrite !length_zip_with, !length_fmap, length_replicate; lia
     |lia].
  do 2 f_equal. apply list_eq. intros i.
  rewrite !lookup_zip_with, !list_lookup_fmap.
  destruct (x !! i) as [xi|] eqn:Hxi; destruct (cols !! i) as [c|] eqn:Hci;
    cbn [mbind option_bind fmap option_fmap option_map].
  - rewrite lookup_replicate_2
      by (apply lookup_lt_Some in Hxi; lia).
    cbn [mbind option_bind]. f_equal. unfold step_form. fold a L ki kid.
    by rewrite (zip_with_replicate_sub_l s_sub), (zip_with_replicate_sub_r s_sub).
  - apply lookup_lt_Some in Hxi. apply lookup_ge_None in Hci. lia.
  - apply lookup_lt_Some in Hci. apply lookup_ge_None in Hxi. lia.
  - by destruct (replicate N (replicate (n + 2 * d - e - 1) s_zero) !! i).
Qed.

End SubsampledFacts.

(** * The two entry points in closed form *)

Section EntryPoints.
Context {A : Type} `{Scalar A}.
Implicit Types (knots x : list A) (cols : list (list A)).

Lemma length_passes knots (n d k : nat) (xj : A) (c : list A) :
  length knots = (n + 2 * d)%nat → (2 ≤ n)%nat → (1 ≤ k ≤ d)%nat →
  (n + d - 1 ≤ length c)%nat →
  length (foldl (step_form knots n d xj) c (seq 1 k)) = (n + 2 * d - k - 1)%nat.
Proof.
  intros Hk Hn Hkd Hc. induction k as [|k IH]; [lia|].
  rewrite seq_S, foldl_app. simpl.
  rewrite length_step_form; [lia|done|lia|done|].
  destruct k; [done|]. rewrite IH by lia. lia.
Qed.

(** [k] passes of the subsampled loop. *)
Lemma subsampled_passes knots (n d k r N : nat) x cols :
  length knots = (n + 2 * d)%nat → (2 ≤ n)%nat → (1 ≤ k ≤ d)%nat →
  Forall (λ c, length c = r) cols → (n + d - 1 ≤ r)%nat →
  length cols = N → length x = N → (1 ≤ N)%nat →
  foldlM (cox_de_boor_step_subsampled knots (Z.of_nat d) (Z.of_nat N) x)
      (Matrix r cols) (Z.of_nat <$> seq 1 k)
    = Some (Matrix (n + 2 * d - k - 1)
              (zip_with (λ xj c, foldl (step_form knots n d xj) c (seq 1 k)) x cols)).
Proof.
  intros Hk Hn Hkd Hc Hr Hcols Hx HN. induction k as [|k IH]; [lia|].
  rewrite seq_S, fmap_app, foldlM_app.
  destruct (decide (k = 0)%nat) as [->|Hk0].
  - cbn [seq fmap list_fmap foldlM mbind option_bind Nat.add].
    rewrite (cox_de_boor_step_subsampled_form knots n d 1 r N) by (done || lia).
    done.
  - rewrite IH by lia. cbn [mbind option_bind fmap list_fmap foldlM Nat.add].
    rewrite (cox_de_boor_step_subsampled_form knots n d (S k) _ N);
      [| done | lia | done | | lia | | done | done].
    + cbn [mbind option_bind]. do 2 f_equal.
      apply list_eq. intros i. rewrite !lookup_zip_with.
      destruct (x !! i) as [xi|] eqn:Hxi; [|done]. cbn [mbind option_bind].
      destruct (cols !! i) as [c|]; [|done]. cbn [mbind option_bind].
      by rewrite foldl_app.
    + apply Forall_lookup_2. intros i c Hi.
      apply lookup_zip_with_Some in Hi as (xi & c0 & -> & Hxi & Hci).
      pose proof (Forall_lookup_1 _ _ _ _ Hc Hci) as Hlc. simpl in Hlc.
      apply length_passes; (done || lia).
    + rewrite length_zip_with. lia.
Qed.

Lemma zip_with_replicate_seed {B} (g : A → list A → B) x (c : list A) (N : nat) :
  length x = N → zip_with g x (replicate N c) = (λ xj, g xj c) <$> x.
Proof.
  intros <-.
  induction x as [|a x IH]; [done|]. rewrite fmap_cons. simpl. f_equal. apply IH.
Qed.

(** [linspace(0, 1, N + 2)] without its two end points. *)
Lemma subsample_tau_form (N : nat) :
  subsample_tau (Z.of_nat N)
    = Some ((λ j : nat,
               (0 + Qc_of_Z (Z.of_nat j) * ((1 - 0) / Qc_of_Z (Z.of_nat N + 2 - 1)))%Qc)
            <$> seq 1 N).
Proof.
  unfold subsample_tau, linspace. zbool. cbn [mbind option_bind].
  unfold getslice, slice_bounds. rewrite length_fmap, length_seq.
  zbool. cbn [mbind option_bind]. f_equal.
  replace (Z.to_nat (Z.of_nat N + 2)) with (S (S N)) by lia.
  replace (Z.to_nat (-1 + Z.of_nat (S (S N)) - 1)) with N by lia.
  change (Z.to_nat 1) with 1%nat.
  rewrite <-fmap_drop, <-fmap_take. f_equal.
  change (seq 0 (S (S N))) with (0%nat :: seq 1 (S N)). cbn [drop].
  rewrite drop_0, seq_S. rewrite take_app_length'; [done|]. by rewrite length_seq.
Qed.

Lemma eval_basis_knotindex_form (ind n d : nat) knots :
  length knots = (n + 2 * d)%nat → (2 ≤ n)%nat → (1 ≤ d)%nat → (ind < n)%nat →
  ∃ (x : A) (seed : list A),
    knots !! (ind + d)%nat = Some x ∧
    eval_basis_knotindex_seed seed_value (Z.of_nat ind) (Z.of_nat (n + 2 * d))
      (Z.of_nat d) = Some seed ∧
    length seed = (n + 2 * d)%nat ∧
    take (n - 1) (drop d seed)
      = <[(ind `min` (n - 2))%nat := seed_value]> (replicate (n - 1) s_zero) ∧
    eval_basis_knotindex (Z.of_nat ind) knots (Z.of_nat d)
      = Some (recursion_form knots n d x seed).
Proof.
  intros Hk Hn Hd Hind.
  destruct (lookup_lt_is_Some_2 knots (ind + d)) as [x Hx]; [lia|].
  assert (∃ seed,
    eval_basis_knotindex_seed seed_value (Z.of_nat ind) (Z.of_nat (n + 2 * d))
      (Z.of_nat d) = Some seed ∧
    length seed = (n + 2 * d)%nat ∧
    take (n - 1) (drop d seed)
      = <[(ind `min` (n - 2))%nat := seed_value]> (replicate (n - 1) s_zero))
    as (seed & Hseed & Hlen & Hwin).
  { destruct (decide (ind = 0)%nat) as [->|Hne].
    - eexists. split; [apply seed_zero; lia|]. split.
      + rewrite length_app, !length_replicate. lia.
      + by apply seed_zero_window.
    - eexists. split; [apply seed_pos; lia|]. split.
      + by rewrite length_insert, length_replicate.
      + by apply seed_pos_window. }
  exists x, seed. repeat split; [done..|].
  unfold eval_basis_knotindex, numel. rewrite Hk, Hseed. cbn [mbind option_bind].
  rewrite <-Nat2Z.inj_add, getitem_nat, Hx. cbn [mbind option_bind].
  apply cox_de_boor_form; [done..|lia].
Qed.

(** The recursion reads a seed only in the slots [d .. n + d - 2]. *)
Lemma recursion_form_window knots (n d : nat) (xv : A) (b b' : list A) :
  (2 ≤ n)%nat → (1 ≤ d)%nat →
  take (n - 1) (drop d b) = take (n - 1) (drop d b') →
  recursion_form knots n d xv b = recursion_form knots n d xv b'.
Proof.
  intros Hn Hd Hw. unfold recursion_form.
  destruct d as [|d]; [lia|]. cbn [seq foldl]. f_equal.
  unfold step_form.
  replace (S d - 1 + 1)%nat with (S d) by lia.
  replace (n - 2 + 1)%nat with (n - 1)%nat by lia.
  by rewrite Hw.
Qed.

Lemma eval_basis_knotindex_subsampled_form (ind N n d : nat) knots :
  length knots = (n + 2 * d)%nat → (2 ≤ n)%nat → (1 ≤ d)%nat →
  (ind + 1 < n)%nat → (1 ≤ N)%nat →
  ∃ k0 k1 tau,
    knots !! (ind + d)%nat = Some k0 ∧ knots !! (ind + d + 1)%nat = Some k1 ∧
    subsample_tau (Z.of_nat N) = Some tau ∧ length tau = N ∧
    eval_basis_knotindex_subsampled (Z.of_nat ind) (Z.of_nat N) knots (Z.of_nat d)
      = Some (Matrix (n + d - 1)
                ((λ xj, recursion_form knots n d xj
                          (<[((ind + d) `min` (n + d - 2))%nat := seed_value]>
                             (replicate (n + 2 * d) s_zero)))
                 <$> interpolate k0 k1 tau)).
Proof.
  intros Hk Hn Hd Hind HN.
  destruct (lookup_lt_is_Some_2 knots (ind + d)) as [k0 Hk0]; [lia|].
  destruct (lookup_lt_is_Some_2 knots (ind + d + 1)) as [k1 Hk1]; [lia|].
  eexists k0, k1, _. split; [done|]. split; [done|].
  split; [apply subsample_tau_form|]. split; [by rewrite length_fmap, length_seq|].
  unfold eval_basis_knotindex_subsampled, numel. rewrite Hk.
  rewrite subsampled_seed_form by done. cbn [mbind option_bind].
  rewrite subsample_tau_form. cbn [mbind option_bind].
  rewrite <-Nat2Z.inj_add, getitem_nat, Hk0. cbn [mbind option_bind].
  replace (Z.of_nat (ind + d) + 1) with (Z.of_nat (ind + d + 1)) by lia.
  rewrite getitem_nat, Hk1. cbn [mbind option_bind].
  rewrite py_range_1.
  rewrite (subsampled_passes knots n d d _ N);
    [| done | done | lia
     | apply Forall_replicate; by rewrite length_insert, length_replicate
     | lia | by rewrite length_replicate
     | unfold interpolate; by rewrite !length_fmap, length_seq | done].
  do 2 f_equal; [lia|].
  apply zip_with_replicate_seed.
  unfold interpolate. by rewrite !length_fmap, length_seq.
Qed.

End EntryPoints.

(** * The clamped knot vector *)

Section KnotFacts.
Context {A : Type}.
Implicit Types (xi : list A).

Lemma pad_snoc (k : nat) (x0 xl : A) (l : list A) :
  pad k ((x0 :: l) ++ [xl]) = replicate k x0 ++ ((x0 :: l) ++ [xl]) ++ replicate k xl.
Proof.
  unfold pad. cbn [app].
  change (x0 :: l ++ [xl]) with ((x0 :: l) ++ [xl]). by rewrite last_last.
Qed.

Lemma length_pad (k : nat) xi :
  (1 ≤ length xi)%nat → length (pad k xi) = (length xi + 2 * k)%nat.
Proof.
  destruct xi as [|x0 l]; simpl; [lia|]. intros _.
  rewrite length_app, length_replicate. simpl.
  rewrite length_app, length_replicate. lia.
Qed.

Lemma repmat_scalar_nat (v : A) (k : nat) :
  repmat_scalar v (Z.of_nat k) = Some (replicate k v).
Proof. unfold repmat_scalar. zbool. by rewrite Nat2Z.id. Qed.

Lemma clamped_knots_pad `{Scalar A} (d : nat) xi :
  (1 ≤ length xi)%nat → clamped_knots xi (Z.of_nat d) = Some (pad d xi).
Proof.
  intros Hn. unfold clamped_knots.
  destruct xi as [|x0 l]; [simpl in Hn; lia|].
  destruct (exists_last (l:=x0 :: l)) as (l' & xl & Heq); [done|].
  rewrite getitem_0. cbn [head mbind option_bind].
  rewrite repmat_scalar_nat. cbn [mbind option_bind].
  assert (getitem (x0 :: l) (-1) = Some xl) as ->
    by (rewrite Heq; apply getitem_minus_1).
  cbn [mbind option_bind].
  rewrite repmat_scalar_nat. cbn [mbind option_bind].
  unfold pad.
  assert (List.last (x0 :: l) x0 = xl) as -> by (rewrite Heq; apply last_last).
  done.
Qed.

(** Entry [j] of the clamped knot vector is the breakpoint nearest to
    position [j - d]. *)
Lemma lookup_pad (k j : nat) xi :
  (1 ≤ length xi)%nat → (j < length xi + 2 * k)%nat →
  pad k xi !! j = xi !! ((j - k) `min` (length xi - 1))%nat.
Proof.
  intros Hn Hj. destruct xi as [|x0 l]; simpl in Hn; [lia|].
  destruct (exists_last (l:=x0 :: l)) as (l' & xl & Heq); [done|].
  assert (pad k (x0 :: l) = replicate k x0 ++ (x0 :: l) ++ replicate k xl) as ->.
  { unfold pad.
    assert (List.last (x0 :: l) x0 = xl) as -> by (rewrite Heq; apply last_last).
    done. }
  destruct (decide (j < k)%nat).
  - rewrite lookup_app_l by (by rewrite length_replicate).
    rewrite lookup_replicate_2 by done.
    by replace ((j - k) `min` (length (x0 :: l) - 1))%nat with 0%nat by lia.
  - rewrite lookup_app_r by (rewrite length_replicate; lia).
    rewrite length_replicate.
    destruct (decide (j - k < length (x0 :: l))%nat).
    + rewrite lookup_app_l by done. f_equal. lia.
    + rewrite lookup_app_r by lia.
      rewrite lookup_replicate_2 by (simpl in *; lia).
      replace ((j - k) `min` (length (x0 :: l) - 1))%nat
        with (length (x0 :: l) - 1)%nat by lia.
      rewrite Heq, length_app. simpl.
      replace (length l' + 1 - 1)%nat with (length l' + 0)%nat by lia.
      by rewrite lookup_app_r, Nat.add_0_r, Nat.sub_diag by lia.
Qed.

End KnotFacts.

Lemma spans_nonzero_pad (xi : list Qc) (d : nat) :
  strictly_increasing xi → (2 ≤ length xi)%nat →
  spans_nonzero (pad d xi) (length xi) d.
Proof.
  intros Hinc Hn e j a b He Hj1 Hj2. rewrite !lookup_pad by lia.
  intros Ha Hb.
  assert (a < b)%Qc as Hlt.
  { eapply Hinc; [|exact Ha|exact Hb]. lia. }
  intros Heq. apply (Qclt_not_eq a b Hlt).
  transitivity ((b - a) + a)%Qc; [rewrite Heq|]; ring.
Qed.

(** * The full table *)

Section TableFacts.
Variables (xi : list Qc) (d : nat).
Hypothesis Hd : (1 ≤ d)%nat.
Hypothesis Hn : (2 ≤ length xi)%nat.
Hypothesis Hinc : strictly_increasing xi.

Local Abbreviation n := (length xi).
Local Abbreviation knots := (pad d xi).

Lemma knots_length : length knots = (n + 2 * d)%nat.
Proof. apply length_pad. lia. Qed.

Lemma seed_window_vsum (ind : nat) (seed : list Qc) :
  take (n - 1) (drop d seed)
    = <[(ind `min` (n - 2))%nat := seed_value]> (replicate (n - 1) s_zero) →
  vsum (take (n - 1) (drop d seed)) = (1 + float64_eps)%Qc.
Proof. intros ->. unfold s_zero, seed_value. qc. apply vsum_insert. lia. Qed.

(** A column evaluated at a breakpoint. *)
Lemma eval_basis_knotindex_unit (ind : nat) :
  (ind < n)%nat →
  ∃ col, eval_basis_knotindex (Z.of_nat ind) knots (Z.of_nat d) = Some col ∧
         unit_block n d (colvec col).
Proof.
  intros Hind.
  destruct (eval_basis_knotindex_form ind n d knots knots_length Hn Hd Hind)
    as (x & seed & Hx & Hseed & Hlen & Hwin & Heval).
  eexists. split; [exact Heval|]. split.
  - unfold colvec. cbn [size1].
    apply length_recursion_form; [apply knots_length|done|done|lia].
  - unfold colvec. cbn [columns]. constructor; [|done].
    rewrite recursion_form_vsum;
      [|apply knots_length|done|by apply spans_nonzero_pad|done|lia].
    by apply (seed_window_vsum ind).
Qed.

(** The columns evaluated between two breakpoints. *)
Lemma eval_basis_knotindex_subsampled_unit (ind N : nat) :
  (ind + 1 < n)%nat → (1 ≤ N)%nat →
  ∃ M, eval_basis_knotindex_subsampled (Z.of_nat ind) (Z.of_nat N) knots (Z.of_nat d)
         = Some M ∧ unit_block n d M ∧ size2 M = N.
Proof.
  intros Hind HN.
  destruct (eval_basis_knotindex_subsampled_form ind N n d knots knots_length
              Hn Hd Hind HN) as (k0 & k1 & tau & Hk0 & Hk1 & Htau & Hlt & Heval).
  eexists. split; [exact Heval|]. split; [split|].
  - done.
  - cbn [columns]. apply Forall_fmap, Forall_true. intros xj. unfold compose.
    rewrite recursion_form_vsum;
      [|apply knots_length|done|by apply spans_nonzero_pad|done
       |rewrite length_insert, length_replicate; lia].
    apply (seed_window_vsum ind). apply seed_pos_window. done.
  - unfold size2, interpolate. cbn [columns]. by rewrite !length_fmap.
Qed.

(** One turn of the loop of [eval_on_knots]. *)
Lemma eval_on_knots_body_unit (s i : nat) (tau : list Qc)
    (basis : list (matrix Qc)) (k : list Qc) :
  (i < n)%nat → length tau = s →
  Forall (unit_block n d) basis → sum_list (size2 <$> basis) = length k →
  ∃ basis' k',
    eval_on_knots_body xi knots (Z.of_nat d) (Z.of_nat s) tau (basis, k) (Z.of_nat i)
      = Some (basis', k') ∧
    Forall (unit_block n d) basis' ∧ sum_list (size2 <$> basis') = length k' ∧
    (1 ≤ length basis')%nat.
Proof.
  intros Hi Htau Hb Hk. unfold eval_on_knots_body.
  destruct (eval_basis_knotindex_unit i Hi) as (col & -> & Hcol).
  cbn [mbind option_bind].
  rewrite getitem_nat.
  destruct (lookup_lt_is_Some_2 xi i Hi) as [xi_i Hxi]. rewrite Hxi.
  cbn [mbind option_bind].
  unfold numel. rewrite knots_length.
  destruct (Z.ltb_spec 0 (Z.of_nat s));
    [destruct (Z.ltb_spec (Z.of_nat i) (Z.of_nat (n + 2 * d) - 2 * Z.of_nat d - 1))|];
    cbn [andb].
  - replace (Z.of_nat i + 1) with (Z.of_nat (i + 1)) by lia.
    rewrite getitem_nat.
    destruct (lookup_lt_is_Some_2 xi (i + 1)) as [xi_n Hxn]; [lia|]. rewrite Hxn.
    cbn [mbind option_bind].
    destruct (eval_basis_knotindex_subsampled_unit i s) as (M & -> & HM & HsM);
      [lia..|].
    cbn [mbind option_bind]. eexists _, _. split; [done|].
    split; [|split].
    + apply Forall_app; split; [apply Forall_app; split; [done|]|].
      * constructor; [exact Hcol|constructor].
      * constructor; [exact HM|constructor].
    + rewrite !fmap_app, !sum_list_with_app, !length_app. simpl.
      unfold interpolate. rewrite length_fmap, Htau. unfold size2 in *. simpl. lia.
    + rewrite !length_app. simpl. lia.
  - eexists _, _. split; [done|]. split; [|split].
    + apply Forall_app; split; [done|]. constructor; [exact Hcol|constructor].
    + rewrite fmap_app, sum_list_with_app, length_app. simpl. unfold size2 in *. simpl. lia.
    + rewrite length_app. simpl. lia.
  - eexists _, _. split; [done|]. split; [|split].
    + apply Forall_app; split; [done|]. constructor; [exact Hcol|constructor].
    + rewrite fmap_app, sum_list_with_app, length_app. simpl. unfold size2 in *. simpl. lia.
    + rewrite length_app. simpl. lia.
Qed.

Lemma eval_on_knots_loop_unit (s m : nat) (tau : list Qc) :
  (m ≤ n)%nat → length tau = s →
  ∃ basis k,
    foldlM (eval_on_knots_body xi knots (Z.of_nat d) (Z.of_nat s) tau) ([], [])
      (Z.of_nat <$> seq 0 m) = Some (basis, k) ∧
    Forall (unit_block n d) basis ∧ sum_list (size2 <$> basis) = length k ∧
    (1 ≤ m → 1 ≤ length basis)%nat.
Proof.
  intros Hm Htau. induction m as [|m IH].
  { exists [], []. repeat split; [done..|lia]. }
  destruct IH as (basis & k & Hloop & Hb & Hk & _); [lia|].
  rewrite seq_S, fmap_app, foldlM_app, Hloop.
  cbn [mbind option_bind fmap list_fmap foldlM Nat.add].
  destruct (eval_on_knots_body_unit s m tau basis k) as (b' & k' & -> & ? & ? & ?);
    [lia|done..|].
  cbn [mbind option_bind]. eauto 10.
Qed.

Lemma hcat_unit (basis : list (matrix Qc)) :
  Forall (unit_block n d) basis → (1 ≤ length basis)%nat →
  ∃ M, hcat basis = Some M ∧ unit_block n d M ∧
       size2 M = sum_list (size2 <$> basis).
Proof.
  intros Hb Hl. destruct basis as [|M0 basis]; [simpl in Hl; lia|].
  unfold hcat.
  assert (forallb (λ M', bool_decide (size1 M' = size1 M0)) (M0 :: basis) = true) as ->.
  { apply Is_true_true, forallb_True. eapply Forall_impl; [|exact Hb].
    intros M' [HM' _]. simpl. apply bool_decide_pack.
    inversion_clear Hb as [|?? [HM0 _] _]. congruence. }
  eexists. split; [done|]. split; [split|].
  - cbn [size1]. by inversion_clear Hb as [|?? [HM0 _] _].
  - cbn [columns]. apply Forall_join, Forall_fmap.
    eapply Forall_impl; [|exact Hb]. by intros M' [_ HM'].
  - unfold size2 at 1. cbn [columns]. rewrite length_join.
    by rewrite <-list_fmap_compose.
Qed.

(** The table before reduction. *)
Lemma eval_on_knots_raw_unit (s : nat) :
  ∃ k M, eval_on_knots_raw xi (Z.of_nat d) (Z.of_nat s) = Some (k, M) ∧
         unit_block n d M ∧ size2 M = length k.
Proof.
  unfold eval_on_knots_raw.
  rewrite clamped_knots_pad by lia. cbn [mbind option_bind].
  rewrite subsample_tau_form. cbn [mbind option_bind].
  unfold numel. rewrite knots_length.
  assert (py_range 0 (Z.of_nat (n + 2 * d) - 2 * Z.of_nat d)
          = Z.of_nat <$> seq 0 n) as ->.
  { pose proof (py_range_nat 0 n) as E. rewrite <-E. f_equal; lia. }
  edestruct (eval_on_knots_loop_unit s n)
    as (basis & k & -> & Hb & Hk & Hl); [done|by rewrite length_fmap, length_seq|].
  cbn [mbind option_bind].
  destruct (hcat_unit basis Hb) as (M & -> & HM & HMs); [lia|].
  cbn [mbind option_bind]. exists k, M. split; [done|]. split; [done|congruence].
Qed.

End TableFacts.

Lemma evalf_list_Qc (l : list Qc) : evalf_list l = Some l.
Proof.
  unfold evalf_list. apply mapM_Some, Forall_Forall2_diag, Forall_true. done.
Qed.

Lemma evalf_Qc (M : matrix Qc) : evalf M = Some M.
Proof.
  unfold evalf.
  assert (mapM evalf_list (columns M) = Some (columns M)) as ->.
  { apply mapM_Some, Forall_Forall2_diag, Forall_true. apply evalf_list_Qc. }
  by destruct M.
Qed.

(** * Properties of the basis engine *)

Lemma float64_eps_small :
  (0 < float64_eps)%Qc ∧ (float64_eps < Q2Qc (1 # 1000000000))%Qc.
Proof. split; reflexivity. Qed.

Section Linearity.
Local Open Scope Qc_scope.
Implicit Types (v w : list Qc) (c : Qc).

Lemma scale_zip_add c v w :
  zip_with s_add (Qcmult c <$> v) (Qcmult c <$> w) = Qcmult c <$> zip_with s_add v w.
Proof.
  revert w. induction v as [|a v IH]; intros [|b w]; simpl; try done.
  rewrite IH. f_equal. ring.
Qed.

Lemma scale_add_at c (lo : nat) v w :
  add_at lo (Qcmult c <$> w) (Qcmult c <$> v) = Qcmult c <$> add_at lo w v.
Proof.
  unfold add_at. rewrite length_fmap, !fmap_app, <-!fmap_drop, <-!fmap_take.
  by rewrite scale_zip_add.
Qed.

Lemma scale_zip_div c v w :
  zip_with s_div (Qcmult c <$> v) w = Qcmult c <$> zip_with s_div v w.
Proof.
  revert w. induction v as [|a v IH]; intros [|b w]; simpl; try done.
  rewrite IH. f_equal. unfold Qcdiv. ring.
Qed.

Lemma scale_zip_mul c v w :
  zip_with s_mul v (Qcmult c <$> w) = Qcmult c <$> zip_with s_mul v w.
Proof.
  revert w. induction v as [|a v IH]; intros [|b w]; simpl; try done.
  rewrite IH. f_equal. ring.
Qed.

(** A pass, and so the recursion, is linear in the column it starts
    from. *)
Lemma step_form_scale c knots (n d e : nat) (x : Qc) v :
  step_form knots n d x (Qcmult c <$> v) e = Qcmult c <$> step_form knots n d x v e.
Proof.
  unfold step_form.
  rewrite <-fmap_drop, <-fmap_take, scale_zip_div, !scale_zip_mul.
  rewrite <-!scale_add_at. do 2 f_equal.
  rewrite fmap_replicate. f_equal. unfold s_zero. qc. ring.
Qed.

Lemma recursion_form_scale c knots (n d : nat) (x : Qc) v :
  recursion_form knots n d x (Qcmult c <$> v)
    = Qcmult c <$> recursion_form knots n d x v.
Proof.
  unfold recursion_form. generalize (seq 1 d). intros es. revert v.
  induction es as [|e es IH]; intros v; simpl; [done|].
  by rewrite step_form_scale, IH.
Qed.
End Linearity.

Section SeedScale.
Local Open Scope Qc_scope.

Lemma seed_scale (ind m d : nat) (seed1 : list Qc) :
  eval_basis_knotindex_seed (A:=Qc) 1 (Z.of_nat ind) (Z.of_nat m) (Z.of_nat d)
    = Some seed1 →
  eval_basis_knotindex_seed seed_value (Z.of_nat ind) (Z.of_nat m) (Z.of_nat d)
    = Some (Qcmult (1 + float64_eps) <$> seed1).
Proof.
  unfold eval_basis_knotindex_seed.
  assert (Qcmult (1 + float64_eps) <$> replicate (Z.to_nat (Z.of_nat m)) (s_zero (A:=Qc))
          = replicate (Z.to_nat (Z.of_nat m)) s_zero) as Hz.
  { rewrite fmap_replicate. f_equal. unfold s_zero. qc. ring. }
  assert (∀ (l l' : list Qc) j,
    setitem l j (1:Qc) = Some l' →
    setitem (Qcmult (1 + float64_eps) <$> l) j seed_value
      = Some (Qcmult (1 + float64_eps) <$> l')) as Hset.
  { intros l l' j. unfold setitem. rewrite length_fmap.
    destruct (norm_index (length l) j) as [i|]; simpl; [|done].
    intros [= <-]. rewrite list_fmap_insert.
    replace ((1 + float64_eps) * 1) with (seed_value (A:=Qc)); [done|].
    unfold seed_value. qc. ring. }
  assert (∀ js (l l' : list Qc),
    foldlM (λ basis j, setitem basis j (1:Qc)) l js = Some l' →
    foldlM (λ basis j, setitem basis j seed_value) (Qcmult (1 + float64_eps) <$> l) js
      = Some (Qcmult (1 + float64_eps) <$> l')) as Hfold.
  { induction js as [|j js IH]; intros l l'; cbn [foldlM].
    { by intros [= <-]. }
    destruct (setitem l j 1) as [l''|] eqn:Hl; cbn [mbind option_bind]; [|done].
    rewrite (Hset _ _ _ Hl). cbn [mbind option_bind]. apply IH. }
  destruct (Z.of_nat ind =? 0)%Z; intros Hprem; rewrite <-Hz.
  - by apply Hfold.
  - by apply Hset.
Qed.
End SeedScale.

Section TauFacts.
Local Open Scope Qc_scope.

(** The interpolation parameters: [(j + 1) / (N + 1)]. *)
Lemma tau_value (N j : nat) :
  0 + Qc_of_Z (Z.of_nat (1 + j)) * ((1 - 0) / Qc_of_Z (Z.of_nat N + 2 - 1))
    = Qc_of_Z (Z.of_nat j + 1) / Qc_of_Z (Z.of_nat N + 1).
Proof.
  replace (Z.of_nat (1 + j)) with (Z.of_nat j + 1)%Z by lia.
  replace (Z.of_nat N + 2 - 1)%Z with (Z.of_nat N + 1)%Z by lia.
  unfold Qcdiv. ring.
Qed.

(** They lie strictly between 0 and 1. *)
Lemma tau_bounds (N j : nat) :
  (j < N)%nat →
  0 < Qc_of_Z (Z.of_nat j + 1) / Qc_of_Z (Z.of_nat N + 1) < 1.
Proof.
  intros Hj.
  assert (0 < Qc_of_Z (Z.of_nat j + 1)) as Ha.
  { rewrite <-Z2Qc_inj_0. apply (proj1 (Z2Qc_inj_lt _ _)). lia. }
  assert (Qc_of_Z (Z.of_nat j + 1) < Qc_of_Z (Z.of_nat N + 1)) as Hab.
  { apply (proj1 (Z2Qc_inj_lt _ _)). lia. }
  assert (0 < Qc_of_Z (Z.of_nat N + 1)) as Hb by (by etrans).
  split.
  - apply Qcmult_pos_pos; [done|by apply Qcinv_pos].
  - apply (Qcmult_lt_mono_pos_r _ _ (Qc_of_Z (Z.of_nat N + 1))); [done|].
    unfold Qcdiv. rewrite <-Qcmult_assoc, Qcmult_inv_l, Qcmult_1_r, Qcmult_1_l;
      [done|]. by apply not_eq_sym, Qclt_not_eq.
Qed.

(** A point interpolated with such a parameter lies strictly between
    the two knots. *)
Lemma interpolate_between (k0 k1 t : Qc) :
  k0 < k1 → 0 < t < 1 → k0 < k0 * (1 - t) + t * k1 < k1.
Proof.
  intros Hk [Ht0 Ht1].
  assert (0 < k1 - k0) as Hd.
  { apply (Qcplus_lt_mono_r _ _ k0). by replace (k1 - k0 + k0) with k1 by ring;
      rewrite Qcplus_0_l. }
  assert (0 < 1 - t) as Ht.
  { apply (Qcplus_lt_mono_r _ _ t). by replace (1 - t + t) with 1 by ring;
      rewrite Qcplus_0_l. }
  split.
  - replace (k0 * (1 - t) + t * k1) with (t * (k1 - k0) + k0) by ring.
    rewrite <-(Qcplus_0_l k0) at 1. apply Qcplus_lt_mono_r.
    by apply Qcmult_pos_pos.
  - replace k1 with ((1 - t) * (k1 - k0) + (k0 * (1 - t) + t * k1)) at 2 by ring.
    rewrite <-(Qcplus_0_l (k0 * (1 - t) + t * k1)) at 1. apply Qcplus_lt_mono_r.
    by apply Qcmult_pos_pos.
Qed.
End TauFacts.

(** C7, the part of the claim that fails: for [ind = 0] the subsampled
    function does not start from the seeded vector of the single-index
    function. With five knots and degree 1 the latter seeds slots 0 and 1,
    the former only slot 1. *)
Lemma subsampled_seed_differs_at_index_0 :
  ∃ seed seedM,
    eval_basis_knotindex_seed (A:=Qc) seed_value 0 5 1 = Some seed ∧
    eval_basis_knotindex_subsampled_seed (A:=Qc) seed_value 0 1 5 1 = Some seedM ∧
    seed !! 0%nat = Some (1 + float64_eps)%Qc ∧
    columns seedM = [[0; 1 + float64_eps; 0; 0; 0]%Qc] ∧
    ¬ (seedM = Matrix 5 [seed]).
Proof.
  eexists _, _. split; [reflexivity|]. split; [reflexivity|].
  split; [reflexivity|]. split; [reflexivity|]. intros [=].
Qed.

(** C7, as amended. For a knot vector of [n + 2d] entries, a knot index
    [ind] with a next breakpoint ([ind + 1 < n]) and [N ≥ 1] samples, the
    subsampled function returns [N] columns; column [j] is what the
    single-index function yields when evaluated at the point
    [knots[ind+d] (1 - t) + t knots[ind+d+1]] with [t = (j+1)/(N+1)], which
    lies strictly between 0 and 1. Its seeded columns are the seeded
    vector of the single-index function for [ind ≥ 1]; for [ind = 0] they
    agree with it from slot [d] on, the slots the recursion reads. *)
Theorem eval_basis_knotindex_subsampled_agrees {A : Type} `{Scalar A}
    (ind N n d : nat) (knots : list A) :
  length knots = (n + 2 * d)%nat → (2 ≤ n)%nat → (1 ≤ d)%nat →
  (ind + 1 < n)%nat → (1 ≤ N)%nat →
  ∃ M k0 k1 seed seedM,
    eval_basis_knotindex_subsampled (Z.of_nat ind) (Z.of_nat N) knots (Z.of_nat d)
      = Some M ∧
    getitem knots (Z.of_nat ind + Z.of_nat d) = Some k0 ∧
    getitem knots (Z.of_nat ind + Z.of_nat d + 1) = Some k1 ∧
    size2 M = N ∧
    (∀ j, (j < N)%nat →
       let t := (Qc_of_Z (Z.of_nat j + 1) / Qc_of_Z (Z.of_nat N + 1))%Qc in
       (0 < t < 1)%Qc ∧
       ∃ col, columns M !! j = Some col ∧
         eval_basis_knotindex_at
           (s_add (s_mul k0 (s_const (1 - t)%Qc)) (s_mul (s_const t) k1))
           (Z.of_nat ind) knots (Z.of_nat d) = Some col) ∧
    eval_basis_knotindex_seed seed_value (Z.of_nat ind) (numel knots) (Z.of_nat d)
      = Some seed ∧
    eval_basis_knotindex_subsampled_seed seed_value (Z.of_nat ind) (Z.of_nat N)
      (numel knots) (Z.of_nat d) = Some seedM ∧
    columns seedM = replicate N (<[((ind + d) `min` (n + d - 2))%nat := seed_value]>
                                   (replicate (n + 2 * d) s_zero)) ∧
    (∀ col, col ∈ columns seedM →
       drop d col = drop d seed ∧ ((1 ≤ ind)%nat → col = seed)).
Proof.
  intros Hk Hn Hd Hind HN.
  destruct (eval_basis_knotindex_subsampled_form ind N n d knots Hk Hn Hd Hind HN)
    as (k0 & k1 & tau & Hk0 & Hk1 & Htau & Hlt & Heval).
  destruct (eval_basis_knotindex_form ind n d knots Hk Hn Hd)
    as (x & seed & _ & Hseed & Hlen & Hwin & _); [lia|].
  rewrite subsample_tau_form in Htau. injection Htau as <-.
  eexists _, k0, k1, seed, _. split; [exact Heval|].
  split; [by rewrite <-Nat2Z.inj_add, getitem_nat|].
  split; [by rewrite <-Nat2Z.inj_add;
             replace (Z.of_nat (ind + d) + 1) with (Z.of_nat (ind + d + 1)) by lia;
             rewrite getitem_nat|].
  split; [unfold size2, interpolate; cbn [columns];
          by rewrite !length_fmap, length_seq|].
  split.
  { intros j Hj t. split; [by apply tau_bounds|].
    eexists. split.
    - cbn [columns]. unfold interpolate.
      rewrite !list_lookup_fmap, lookup_seq_lt by done. cbn [fmap option_fmap option_map].
      rewrite tau_value. done.
    - unfold eval_basis_knotindex_at, numel. rewrite Hk, Hseed. cbn [mbind option_bind].
      rewrite (cox_de_boor_form knots n d) by (done || lia). f_equal.
      apply recursion_form_window; [done..|].
      rewrite Hwin. symmetry. apply seed_pos_window. done. }
  unfold numel. rewrite Hk. split; [exact Hseed|].
  split; [by apply subsampled_seed_form|]. split; [done|].
  intros col Hcol. cbn [columns] in Hcol. apply elem_of_replicate in Hcol as [-> _].
  destruct (decide (ind = 0)%nat) as [->|Hne].
  - rewrite seed_zero in Hseed by lia. injection Hseed as <-. split; [|lia].
    rewrite (replicate_add d 1), <-app_assoc.
    rewrite drop_app_length' by (by rewrite length_replicate).
    rewrite drop_insert_ge by lia.
    rewrite drop_replicate.
    replace ((0 + d) `min` (n + d - 2) - d)%nat with 0%nat by lia.
    replace (n + 2 * d - d)%nat with (S (n + 2 * d - (d + 1))) by lia.
    done.
  - rewrite seed_pos in Hseed by lia. injection Hseed as <-. done.
Qed.

(** Two lists of canonical rationals are equal when their underlying
    fractions are: a comparison that computes. *)
Lemma Qc_list_eq (l k : list Qc) : this <$> l = this <$> k → l = k.
Proof.
  revert k. induction l as [|a l IH]; intros [|b k]; simpl; try done.
  intros [= Hab Hlk]. f_equal; [by apply Qc_decomp|by apply IH].
Qed.

Lemma Qc_columns_eq (l k : list (list Qc)) :
  ((λ c : list Qc, this <$> c) <$> l) = ((λ c : list Qc, this <$> c) <$> k) → l = k.
Proof.
  revert k. induction l as [|a l IH]; intros [|b k]; simpl; try done.
  intros [= Hab Hlk]. f_equal; [by apply Qc_list_eq|by apply IH].
Qed.

(** C9. For degree 1 and the breakpoints [0, 1/2, 1] with one subsample
    per segment, the second evaluation point of the table is 1/4, the
    midpoint of the first segment, and the basis values there are the
    linear interpolation weights 1/2, 1/2, 0, each times [1 + eps]; the
    column is the one [eval_basis_knotindex_subsampled] returns for the
    first segment. *)
Theorem eval_on_knots_linear_weights :
  ∃ k basis knots,
    eval_on_knots [0; Q2Qc (1 # 2); 1]%Qc 1 1 = Some (Numeric k, Numeric basis) ∧
    k !! 1%nat = Some (Q2Qc (1 # 4)) ∧
    columns basis !! 1%nat
      = Some [Q2Qc (1 # 2) * (1 + float64_eps); Q2Qc (1 # 2) * (1 + float64_eps); 0]%Qc ∧
    clamped_knots [0; Q2Qc (1 # 2); 1]%Qc 1 = Some knots ∧
    eval_basis_knotindex_subsampled 0 1 knots 1
      = Some (Matrix 3 [[Q2Qc (1 # 2) * (1 + float64_eps);
                         Q2Qc (1 # 2) * (1 + float64_eps); 0]%Qc]).
Proof.
  eexists _, _, _.
  split; [vm_compute; reflexivity|].
  split; [vm_compute; apply f_equal, Qc_decomp; reflexivity|].
  split; [vm_compute; apply f_equal, Qc_list_eq; reflexivity|].
  split; [vm_compute; reflexivity|].
  vm_compute. apply f_equal, (f_equal (Matrix 3)), Qc_columns_eq. reflexivity.
Qed.

(** * The derivative operator *)

Section SliceFacts.
Context {A : Type}.
Implicit Types (l : list A).

Lemma getslice_tail l :
  (1 ≤ length l)%nat → getslice l 1 None = Some (drop 1 l).
Proof.
  intros. unfold getslice, slice_bounds. zbool. cbn [mbind option_bind].
  f_equal. change (Z.to_nat 1) with 1%nat.
  apply take_ge. rewrite length_drop. lia.
Qed.

Lemma getslice_init l :
  (1 ≤ length l)%nat → getslice l 0 (Some (-1)) = Some (take (length l - 1) l).
Proof.
  intros. unfold getslice, slice_bounds. zbool. cbn [mbind option_bind].
  f_equal. change (Z.to_nat 0) with 0%nat. rewrite drop_0. f_equal. lia.
Qed.

Lemma getitem_last l :
  (1 ≤ length l)%nat → getitem l (-1) = l !! (length l - 1)%nat.
Proof.
  intros. unfold getitem, norm_index. zbool. cbn [mbind option_bind].
  f_equal. lia.
Qed.
End SliceFacts.

Section DerivativeFacts.
Local Open Scope Qc_scope.
Variables (c : matrix Qc) (xi : list Qc) (d : nat).
Hypothesis Hwf : matrix_wf c.
Hypothesis Hd : (1 ≤ d)%nat.
Hypothesis Hn : (1 ≤ length xi)%nat.
Hypothesis Hc : size2 c = (length xi + d - 1)%nat.

Local Abbreviation n := (length xi).

Lemma bspline_derivative_form :
  bspline_derivative c xi (Z.of_nat d)
    = Some (Matrix (size1 c)
              (zip_with (λ s dc, Qcmult s <$> dc) (derivative_scale xi d)
                 (zip_with (zip_with Qcminus) (drop 1 (columns c))
                    (take (size2 c - 1) (columns c))))).
Proof.
  unfold bspline_derivative.
  rewrite getslice_tail by done. cbn [mbind option_bind].
  rewrite getitem_last by done.
  destruct (lookup_lt_is_Some_2 xi (n - 1)) as [xl Hxl]; [lia|].
  rewrite Hxl. cbn [mbind option_bind].
  replace (Z.of_nat d - 1)%Z with (Z.of_nat (d - 1)) by lia.
  rewrite repmat_scalar_nat. cbn [mbind option_bind].
  change 0%Z with (Z.of_nat 0). rewrite getitem_nat.
  destruct (lookup_lt_is_Some_2 xi 0) as [x0 Hx0]; [lia|].
  rewrite Hx0. cbn [mbind option_bind].
  rewrite repmat_scalar_nat. cbn [mbind option_bind].
  change (Z.of_nat 0) with 0%Z.
  rewrite getslice_init by done. cbn [mbind option_bind].
  rewrite repmat_v_nat. cbn [mbind option_bind].
  unfold getcols. unfold size2 in Hc.
  rewrite getslice_tail by lia. cbn [mbind option_bind].
  rewrite getslice_init by lia. cbn [mbind option_bind].
  assert (Forall (λ col, length col = size1 c) (columns c)) as Hcols by exact Hwf.
  rewrite cs_binary_same_shape;
    [|by apply Forall_drop|by apply Forall_take
     |rewrite length_drop, length_take; lia].
  cbn [mbind option_bind].
  set (scale := (λ dx : Qc, s_div (s_const (Qc_of_Z (Z.of_nat d))) dx) <$> _).
  assert (scale = (derivative_scale xi d)) as ->.
  { subst scale. unfold derivative_scale. apply list_eq. intros k.
    rewrite !list_lookup_fmap, lookup_zip_with.
    destruct (decide (k < n + d - 2)%nat) as [Hk|Hk].
    - rewrite lookup_seq_lt by done. cbn [fmap option_fmap option_map].
      change (0 + k)%nat with k.
      rewrite !lookup_pad by lia.
      assert ((drop 1 xi ++ replicate (d - 1) xl) !! k
              = xi !! ((k + d - (d - 1)) `min` (n - 1))%nat) as ->.
      { destruct (decide (k < n - 1)%nat).
        - rewrite lookup_app_l by (rewrite length_drop; lia).
          rewrite lookup_drop. f_equal. lia.
        - rewrite lookup_app_r by (rewrite length_drop; lia).
          rewrite lookup_replicate_2 by (rewrite length_drop; lia).
          rewrite <-Hxl. f_equal. lia. }
      assert ((replicate (d - 1) x0 ++ take (n - 1) xi) !! k
              = xi !! ((k - (d - 1)) `min` (n - 1))%nat) as ->.
      { destruct (decide (k < d - 1)%nat).
        - rewrite lookup_app_l by (rewrite length_replicate; lia).
          rewrite lookup_replicate_2 by done.
          rewrite <-Hx0. f_equal. lia.
        - rewrite lookup_app_r by (rewrite length_replicate; lia).
          rewrite length_replicate, lookup_take_lt by lia. f_equal. lia. }
      destruct (lookup_lt_is_Some_2 xi ((k + d - (d - 1)) `min` (n - 1))%nat)
        as [a Ha]; [lia|].
      destruct (lookup_lt_is_Some_2 xi ((k - (d - 1)) `min` (n - 1))%nat)
        as [b Hb]; [lia|].
      rewrite Ha, Hb. done.
    - rewrite lookup_seq_ge by lia. cbn [fmap option_fmap option_map].
      rewrite (lookup_ge_None_2 (drop 1 xi ++ _)); [done|].
      rewrite length_app, length_drop, length_replicate. lia. }
  rewrite cs_binary_same_shape.
  - do 2 f_equal. unfold size2.
    apply list_eq. intros k. rewrite !lookup_zip_with, list_lookup_fmap.
    destruct ((derivative_scale xi d) !! k) as [s|]; [|done].
    cbn [fmap option_fmap option_map mbind option_bind].
    destruct (drop 1 (columns c) !! k) as [c1|] eqn:Hc1; [|done].
    cbn [mbind option_bind].
    destruct (take (length (columns c) - 1) (columns c) !! k) as [c0|] eqn:Hc0; [|done].
    cbn [mbind option_bind]. f_equal.
    apply zip_with_replicate_sub_l.
    rewrite length_zip_with.
    rewrite lookup_drop in Hc1. apply lookup_take_Some in Hc0 as [Hc0 _].
    rewrite (Forall_lookup_1 _ _ _ _ Hcols Hc1), (Forall_lookup_1 _ _ _ _ Hcols Hc0).
    lia.
  - apply Forall_fmap, Forall_true. intros s. simpl.
    by rewrite length_replicate.
  - apply Forall_lookup_2. intros k col Hcol.
    apply lookup_zip_with_Some in Hcol as (c1 & c0 & -> & Hc1 & Hc0).
    rewrite lookup_drop in Hc1. apply lookup_take_Some in Hc0 as [Hc0 _].
    rewrite length_zip_with.
    rewrite (Forall_lookup_1 _ _ _ _ Hcols Hc1), (Forall_lookup_1 _ _ _ _ Hcols Hc0).
    lia.
  - unfold derivative_scale.
    rewrite !length_fmap, length_seq, length_zip_with, length_drop, length_take. lia.
Qed.

End DerivativeFacts.

Section DerivativeShape.
Local Open Scope Qc_scope.

Lemma bspline_derivative_shape (c : matrix Qc) (xi : list Qc) (d : nat) :
  matrix_wf c → (1 ≤ d)%nat → (1 ≤ length xi)%nat →
  size2 c = (length xi + d - 1)%nat →
  ∃ c', bspline_derivative c xi (Z.of_nat d) = Some c' ∧
        matrix_wf c' ∧ size1 c' = size1 c ∧ size2 c' = (length xi + d - 2)%nat.
Proof.
  intros Hwf Hd Hn Hc. eexists. split; [by apply bspline_derivative_form|].
  unfold size2 in Hc. split; [|split; [done|]].
  - unfold matrix_wf. cbn [columns size1]. apply Forall_lookup_2. intros k col Hcol.
    apply lookup_zip_with_Some in Hcol as (s & dc & -> & _ & Hdc).
    apply lookup_zip_with_Some in Hdc as (c1 & c0 & -> & Hc1 & Hc0).
    rewrite lookup_drop in Hc1. apply lookup_take_Some in Hc0 as [Hc0 _].
    rewrite length_fmap, length_zip_with.
    rewrite (Forall_lookup_1 _ _ _ _ Hwf Hc1), (Forall_lookup_1 _ _ _ _ Hwf Hc0).
    lia.
  - unfold size2, derivative_scale. cbn [columns].
    rewrite !length_zip_with, length_fmap, length_seq, length_drop, length_take. lia.
Qed.

(** From degree [d] down to degree 0: every application meets the
    requirement of the next. *)
Lemma bspline_derivatives_shape (xi : list Qc) (d : nat) (c : matrix Qc) :
  matrix_wf c → (1 ≤ length xi)%nat → size2 c = (length xi + d - 1)%nat →
  ∃ c0, bspline_derivatives c xi d = Some c0 ∧
        size1 c0 = size1 c ∧ size2 c0 = (length xi - 1)%nat.
Proof.
  revert c. induction d as [|d IH]; intros c Hwf Hn Hc.
  { exists c. split; [done|]. split; [done|]. rewrite Hc. lia. }
  destruct (bspline_derivative_shape c xi (S d)) as (c' & Hc' & Hwf' & Hs1 & Hs2);
    [done|lia|done|done|].
  destruct (IH c') as (c0 & Hc0 & H1 & H2); [done|done|lia|].
  exists c0. cbn [bspline_derivatives]. rewrite Hc'. cbn [mbind option_bind].
  split; [done|]. split; [congruence|done].
Qed.
End DerivativeShape.

(** * The engine does not look at its entries

    Whatever relation [R] between two kinds of entries the scalar
    operations respect, the engine maps related inputs to related
    results, and fails on one exactly when it fails on the other. *)

Section Parametricity.
Context {A B : Type} {SA : Scalar A} {SB : Scalar B} (R : A → B → Prop).
Hypothesis R_const : ∀ q, R (s_const q) (s_const q).
Hypothesis R_add : ∀ a b a' b', R a b → R a' b' → R (s_add a a') (s_add b b').
Hypothesis R_sub : ∀ a b a' b', R a b → R a' b' → R (s_sub a a') (s_sub b b').
Hypothesis R_mul : ∀ a b a' b', R a b → R a' b' → R (s_mul a a') (s_mul b b').
Hypothesis R_div : ∀ a b a' b', R a b → R a' b' → R (s_div a a') (s_div b b').

Local Abbreviation RL := (Forall2 R).
Local Abbreviation RM := (matrix_rel R).
Local Abbreviation TR := (table_rel R).

Lemma rel_bind {X Y X' Y'} (P : X → Y → Prop) (Q : X' → Y' → Prop)
    (m : option X) (m' : option Y) (f : X → option X') (f' : Y → option Y') :
  option_Forall2 P m m' →
  (∀ x y, P x y → option_Forall2 Q (f x) (f' y)) →
  option_Forall2 Q (m ≫= f) (m' ≫= f').
Proof. intros [x y Hxy|] Hf; simpl; [by apply Hf|constructor]. Qed.

Lemma rel_foldlM {X Y Z} (P : X → Y → Prop) (f : X → Z → option X)
    (g : Y → Z → option Y) (l : list Z) (a : X) (b : Y) :
  (∀ a b z, P a b → option_Forall2 P (f a z) (g b z)) → P a b →
  option_Forall2 P (foldlM f a l) (foldlM g b l).
Proof.
  intros Hfg. revert a b. induction l as [|z l IH]; intros a b Hab; simpl.
  { by constructor. }
  eapply rel_bind; [by apply Hfg|]. intros. by apply IH.
Qed.

Section Lists.
Context {X Y : Type} (P : X → Y → Prop).

Lemma rel_getitem (l : list X) (l' : list Y) (i : Z) :
  Forall2 P l l' → option_Forall2 P (getitem l i) (getitem l' i).
Proof.
  intros Hl. unfold getitem. rewrite <-(Forall2_length Hl).
  destruct (norm_index (length l) i) as [j|]; simpl; [|constructor].
  by apply Forall2_lookup.
Qed.

Lemma rel_setitem (l : list X) (l' : list Y) (i : Z) (v : X) (v' : Y) :
  Forall2 P l l' → P v v' →
  option_Forall2 (Forall2 P) (setitem l i v) (setitem l' i v').
Proof.
  intros Hl Hv. unfold setitem. rewrite <-(Forall2_length Hl).
  destruct (norm_index (length l) i) as [j|]; simpl; constructor.
  by apply Forall2_insert.
Qed.

Lemma rel_getitems (l : list X) (l' : list Y) (i : list Z) :
  Forall2 P l l' → option_Forall2 (Forall2 P) (getitems l i) (getitems l' i).
Proof.
  intros Hl. unfold getitems. induction i as [|j i IH]; simpl.
  { by repeat constructor. }
  eapply rel_bind; [by apply rel_getitem|]. intros x y Hxy.
  eapply rel_bind; [exact IH|]. intros k k' Hk. by repeat constructor.
Qed.

Lemma rel_getslice (l : list X) (l' : list Y) (a : Z) (b : option Z) :
  Forall2 P l l' → option_Forall2 (Forall2 P) (getslice l a b) (getslice l' a b).
Proof.
  intros Hl. unfold getslice. rewrite <-(Forall2_length Hl).
  destruct (slice_bounds (length l) a b) as [[lo n]|]; simpl; constructor.
  by apply Forall2_take, Forall2_drop.
Qed.

Lemma rel_repmat_scalar (v : X) (v' : Y) (n : Z) :
  P v v' → option_Forall2 (Forall2 P) (repmat_scalar v n) (repmat_scalar v' n).
Proof.
  intros. unfold repmat_scalar. destruct (0 <=? n); constructor.
  by apply Forall2_replicate.
Qed.

Lemma rel_zip_with {X' Y' X'' Y''} (P' : X' → Y' → Prop) (P'' : X'' → Y'' → Prop)
    (f : X → X' → X'') (g : Y → Y' → Y'') l l' k k' :
  (∀ x y x' y', P x y → P' x' y' → P'' (f x x') (g y y')) →
  Forall2 P l l' → Forall2 P' k k' →
  Forall2 P'' (zip_with f l k) (zip_with g l' k').
Proof.
  intros Hfg Hl. revert k k'.
  induction Hl as [|x y l l' Hxy Hl IH]; intros k k' Hk; simpl; [constructor|].
  destruct Hk as [|x' y' k k' Hxy' Hk]; constructor; [by apply Hfg|by apply IH].
Qed.

Lemma rel_fmap {X' Y'} (P' : X' → Y' → Prop) (f : X → X') (g : Y → Y') l l' :
  (∀ x y, P x y → P' (f x) (g y)) → Forall2 P l l' →
  Forall2 P' (f <$> l) (g <$> l').
Proof. intros Hfg Hl. induction Hl; constructor; auto. Qed.
End Lists.

Lemma rel_zero : R s_zero s_zero.
Proof. apply R_const. Qed.

Lemma rel_seed_value : R seed_value seed_value.
Proof. apply R_const. Qed.

Lemma rel_zeros (n : Z) : option_Forall2 RL (zeros n) (zeros n).
Proof.
  unfold zeros. destruct (0 <=? n); constructor.
  apply Forall2_replicate, rel_zero.
Qed.

Lemma rel_mzeros (r c : Z) : option_Forall2 RM (mzeros r c) (mzeros r c).
Proof.
  unfold mzeros. destruct ((0 <=? r) && (0 <=? c)); constructor.
  split; [done|]. cbn [columns].
  apply Forall2_replicate, Forall2_replicate, rel_zero.
Qed.

Lemma rel_slice_iadd v v' (a b : Z) w w' :
  RL v v' → RL w w' → option_Forall2 RL (slice_iadd v a b w) (slice_iadd v' a b w').
Proof.
  intros Hv Hw. unfold slice_iadd.
  rewrite <-(Forall2_length Hv), <-(Forall2_length Hw).
  destruct (slice_bounds (length v) a (Some b)) as [[lo n]|]; simpl; [|constructor].
  destruct (bool_decide (length w = n ∧ (n = 0%nat → length v = 0%nat)));
    constructor.
  apply Forall2_app; [by apply Forall2_take|].
  apply Forall2_app; [|by apply Forall2_drop].
  eapply rel_zip_with; [exact R_add| |done].
  by apply Forall2_take, Forall2_drop.
Qed.

Lemma rel_colvec v v' : RL v v' → RM (colvec v) (colvec v').
Proof.
  intros Hv. split; [apply (Forall2_length Hv)|]. by repeat constructor.
Qed.

Lemma rel_is_scalar X Y : RM X Y → option_Forall2 R (is_scalar X) (is_scalar Y).
Proof.
  intros [H1 H2]. unfold is_scalar. rewrite <-H1.
  destruct (size1 X) as [|[|r]]; try constructor.
  destruct H2 as [|c c' cs cs' Hc Hcs]; [constructor|].
  destruct Hc as [|a b c c' Hab Hc]; [destruct Hcs; constructor|].
  destruct Hc; destruct Hcs; by constructor.
Qed.

Lemma rel_hrepeat (k : nat) (xs : list (list A)) (ys : list (list B)) :
  Forall2 RL xs ys → Forall2 RL (hrepeat k xs) (hrepeat k ys).
Proof.
  intros. unfold hrepeat. apply Forall2_join, Forall2_replicate. done.
Qed.

Lemma rel_cs_binary (f : A → A → A) (g : B → B → B) X Y X' Y' :
  (∀ a b a' b', R a b → R a' b' → R (f a a') (g b b')) →
  RM X Y → RM X' Y' →
  option_Forall2 RM (cs_binary f X X') (cs_binary g Y Y').
Proof.
  intros Hfg HX HX'. unfold cs_binary.
  destruct (rel_is_scalar _ _ HX) as [a b Hab|].
  { constructor. destruct HX' as [H1 H2]. split; [done|]. cbn [columns].
    eapply rel_fmap; [|exact H2]. intros c c' Hc.
    eapply rel_fmap; [|exact Hc]. intros. by apply Hfg. }
  destruct (rel_is_scalar _ _ HX') as [a b Hab|].
  { constructor. destruct HX as [H1 H2]. split; [done|]. cbn [columns].
    eapply rel_fmap; [|exact H2]. intros c c' Hc.
    eapply rel_fmap; [|exact Hc]. intros. by apply Hfg. }
  destruct HX as [H1 H2], HX' as [H1' H2']. unfold size2.
  rewrite <-H1, <-H1', <-(Forall2_length H2), <-(Forall2_length H2').
  assert (∀ xs ys xs' ys', Forall2 RL xs ys → Forall2 RL xs' ys' →
    Forall2 RL (zip_with (zip_with f) xs xs') (zip_with (zip_with g) ys ys')) as Hz.
  { intros. eapply rel_zip_with; [|done..]. intros.
    by eapply rel_zip_with. }
  repeat case_bool_decide; try constructor; (split; [done|]); cbn [columns];
    apply Hz; try done; by apply rel_hrepeat.
Qed.

Lemma rel_repmat_h v v' (n : Z) :
  RL v v' → option_Forall2 RM (repmat_h v n) (repmat_h v' n).
Proof.
  intros Hv. unfold repmat_h. destruct (0 <=? n); constructor.
  split; [apply (Forall2_length Hv)|]. by apply Forall2_replicate.
Qed.

Lemma rel_repmat_v x x' (n : Z) :
  RL x x' → option_Forall2 RM (repmat_v x n) (repmat_v x' n).
Proof.
  intros Hx. unfold repmat_v. destruct (0 <=? n); constructor.
  split; [done|]. cbn [columns]. eapply rel_fmap; [|exact Hx].
  intros. by apply Forall2_replicate.
Qed.

Lemma rel_mapM {X Y X' Y'} (P : X → Y → Prop) (Q : X' → Y' → Prop)
    (f : X → option X') (g : Y → option Y') l l' :
  (∀ x y, P x y → option_Forall2 Q (f x) (g y)) → Forall2 P l l' →
  option_Forall2 (Forall2 Q) (mapM f l) (mapM g l').
Proof.
  intros Hfg Hl. induction Hl as [|x y l l' Hxy Hl IH]; simpl.
  { by repeat constructor. }
  eapply rel_bind; [by apply Hfg|]. intros.
  eapply rel_bind; [exact IH|]. intros. by repeat constructor.
Qed.

Lemma rel_getrows M M' (i : list Z) :
  RM M M' → option_Forall2 RM (getrows M i) (getrows M' i).
Proof.
  intros [H1 H2]. unfold getrows.
  eapply rel_bind.
  - eapply rel_mapM; [|exact H2]. intros. by apply rel_getitems.
  - intros. constructor. by split.
Qed.

Lemma rel_slice_rows_iadd M M' (a b : Z) W W' :
  RM M M' → RM W W' →
  option_Forall2 RM (slice_rows_iadd M a b W) (slice_rows_iadd M' a b W').
Proof.
  intros [H1 H2] HW. unfold slice_rows_iadd. rewrite <-H1.
  destruct (slice_bounds (size1 M) a (Some b)) as [[lo n]|]; simpl; [|constructor].
  eapply rel_bind.
  - apply rel_cs_binary; [exact R_add| |done]. split; [done|]. cbn [columns].
    eapply rel_fmap; [|exact H2]. intros. by apply Forall2_take, Forall2_drop.
  - intros S S' [HS1 HS2]. unfold size2.
    rewrite <-HS1, <-(Forall2_length HS2), <-(Forall2_length H2).
    case_bool_decide; constructor. split; [done|]. cbn [columns].
    eapply rel_zip_with; [|exact H2|exact HS2]. intros c c' r r' Hc Hr.
    apply Forall2_app; [by apply Forall2_take|].
    apply Forall2_app; [done|by apply Forall2_drop].
Qed.

(** *** The engine *)

Lemma rel_numel (l : list A) (l' : list B) : RL l l' → numel l = numel l'.
Proof. intros Hl. unfold numel. by rewrite (Forall2_length Hl). Qed.

Lemma rel_interpolate a b a' b' (tau : list Qc) :
  R a a' → R b b' → RL (interpolate a b tau) (interpolate a' b' tau).
Proof.
  intros Ha Hb. unfold interpolate. induction tau; constructor; [|done].
  apply R_add; apply R_mul; auto.
Qed.

Lemma rel_seed v v' (ind n d : Z) :
  R v v' →
  option_Forall2 RL (eval_basis_knotindex_seed v ind n d)
                    (eval_basis_knotindex_seed v' ind n d).
Proof.
  intros Hv. unfold eval_basis_knotindex_seed.
  assert (RL (replicate (Z.to_nat n) s_zero) (replicate (Z.to_nat n) s_zero)) as Hz
    by apply Forall2_replicate, rel_zero.
  destruct (ind =? 0).
  - apply rel_foldlM with (P := RL); [|done]. intros. by apply rel_setitem.
  - by apply rel_setitem.
Qed.

Lemma rel_cox_de_boor_step knots knots' (d : Z) x x' basis basis' (e : Z) :
  RL knots knots' → R x x' → RL basis basis' →
  option_Forall2 RL (cox_de_boor_step knots d x basis e)
                    (cox_de_boor_step knots' d x' basis' e).
Proof.
  intros Hk Hx Hb. unfold cox_de_boor_step. rewrite <-(rel_numel _ _ Hk).
  eapply rel_bind; [by apply rel_getitems|]. intros ki ki' Hki.
  eapply rel_bind; [by apply rel_getitems|]. intros kid kid' Hkid.
  eapply rel_bind; [by apply rel_getitems|]. intros bi bi' Hbi.
  assert (RL (zip_with s_div bi (zip_with s_sub kid ki))
             (zip_with s_div bi' (zip_with s_sub kid' ki'))) as Hnorm.
  { eapply rel_zip_with; [exact R_div|done|].
    eapply rel_zip_with; [exact R_sub|done..]. }
  eapply rel_bind; [apply rel_zeros|]. intros z z' Hz.
  eapply rel_bind.
  - apply rel_slice_iadd; [done|].
    eapply rel_zip_with; [exact R_mul| |exact Hnorm].
    eapply rel_fmap; [|exact Hki]. intros. by apply R_sub.
  - intros w w' Hw. apply rel_slice_iadd; [done|].
    eapply rel_zip_with; [exact R_mul| |exact Hnorm].
    eapply rel_fmap; [|exact Hkid]. intros. by apply R_sub.
Qed.

Lemma rel_cox_de_boor knots knots' (d : Z) x x' basis basis' :
  RL knots knots' → R x x' → RL basis basis' →
  option_Forall2 RL (cox_de_boor knots d x basis) (cox_de_boor knots' d x' basis').
Proof.
  intros. unfold cox_de_boor. apply rel_foldlM with (P := RL); [|done].
  intros. by apply rel_cox_de_boor_step.
Qed.

Lemma rel_eval_basis_knotindex (ind : Z) knots knots' (d : Z) :
  RL knots knots' →
  option_Forall2 RL (eval_basis_knotindex ind knots d)
                    (eval_basis_knotindex ind knots' d).
Proof.
  intros Hk. unfold eval_basis_knotindex. rewrite <-(rel_numel _ _ Hk).
  eapply rel_bind; [apply rel_seed, rel_seed_value|]. intros basis basis' Hb.
  eapply rel_bind; [by apply rel_getitem|]. intros x x' Hx.
  by apply rel_cox_de_boor.
Qed.

Lemma rel_cox_de_boor_step_subsampled knots knots' (d N : Z) x x' basis basis' (e : Z) :
  RL knots knots' → RL x x' → RM basis basis' →
  option_Forall2 RM (cox_de_boor_step_subsampled knots d N x basis e)
                    (cox_de_boor_step_subsampled knots' d N x' basis' e).
Proof.
  intros Hk Hx Hb. unfold cox_de_boor_step_subsampled. rewrite <-(rel_numel _ _ Hk).
  eapply rel_bind; [by apply rel_getitems|]. intros ki ki' Hki.
  eapply rel_bind; [by apply rel_getitems|]. intros kid kid' Hkid.
  eapply rel_bind; [by apply rel_getrows|]. intros bi bi' Hbi.
  eapply rel_bind.
  { apply rel_cs_binary; [exact R_div|done|]. apply rel_colvec.
    eapply rel_zip_with; [exact R_sub|done..]. }
  intros norm norm' Hnorm.
  eapply rel_bind; [by apply rel_repmat_v|]. intros xr xr' Hxr.
  eapply rel_bind; [apply rel_cs_binary; [exact R_sub|done|by apply rel_colvec]|].
  intros t t' Ht.
  eapply rel_bind; [by apply rel_cs_binary|]. intros r1 r1' Hr1.
  eapply rel_bind; [apply rel_cs_binary; [exact R_sub|by apply rel_colvec|done]|].
  intros t2 t2' Ht2.
  eapply rel_bind; [by apply rel_cs_binary|]. intros r2 r2' Hr2.
  eapply rel_bind; [apply rel_mzeros|]. intros z z' Hz.
  eapply rel_bind; [by apply rel_slice_rows_iadd|]. intros w w' Hw.
  by apply rel_slice_rows_iadd.
Qed.

Lemma rel_eval_basis_knotindex_subsampled (ind N : Z) knots knots' (d : Z) :
  RL knots knots' →
  option_Forall2 RM (eval_basis_knotindex_subsampled ind N knots d)
                    (eval_basis_knotindex_subsampled ind N knots' d).
Proof.
  intros Hk. unfold eval_basis_knotindex_subsampled, eval_basis_knotindex_subsampled_seed.
  rewrite <-(rel_numel _ _ Hk).
  eapply rel_bind.
  { eapply rel_bind.
    - apply rel_setitem; [apply Forall2_replicate, rel_zero|apply rel_seed_value].
    - intros. by apply rel_repmat_h. }
  intros basis basis' Hb.
  destruct (subsample_tau N) as [tau|]; [|constructor]. cbn [mbind option_bind].
  eapply rel_bind; [by apply rel_getitem|]. intros k0 k0' Hk0.
  eapply rel_bind; [by apply rel_getitem|]. intros k1 k1' Hk1.
  apply rel_foldlM with (P := RM); [|done].
  intros. apply rel_cox_de_boor_step_subsampled; [done| |done].
  by apply rel_interpolate.
Qed.

Lemma rel_clamped_knots xi xi' (d : Z) :
  RL xi xi' → option_Forall2 RL (clamped_knots xi d) (clamped_knots xi' d).
Proof.
  intros Hxi. unfold clamped_knots.
  eapply rel_bind; [by apply rel_getitem|]. intros x0 x0' Hx0.
  eapply rel_bind; [by apply rel_repmat_scalar|]. intros l l' Hl.
  eapply rel_bind; [by apply rel_getitem|]. intros x1 x1' Hx1.
  eapply rel_bind; [by apply rel_repmat_scalar|]. intros r r' Hr.
  constructor. apply Forall2_app; [done|]. by apply Forall2_app.
Qed.

Lemma rel_eval_on_knots_body xi xi' knots knots' (d s : Z) tau acc acc' (i : Z) :
  RL xi xi' → RL knots knots' → TR acc acc' →
  option_Forall2 TR (eval_on_knots_body xi knots d s tau acc i)
                           (eval_on_knots_body xi' knots' d s tau acc' i).
Proof.
  intros Hxi Hk. destruct acc as [basis k], acc' as [basis' k'].
  intros [Hb Hkk]. simpl in Hb, Hkk. unfold eval_on_knots_body.
  rewrite <-(rel_numel _ _ Hk).
  eapply rel_bind; [by apply rel_eval_basis_knotindex|]. intros b b' Hbb.
  eapply rel_bind; [by apply rel_getitem|]. intros x x' Hx.
  assert (Forall2 RM (basis ++ [colvec b]) (basis' ++ [colvec b'])) as Hb1.
  { apply Forall2_app; [done|]. constructor; [by apply rel_colvec|constructor]. }
  assert (RL (k ++ [x]) (k' ++ [x'])) as Hk1.
  { apply Forall2_app; [done|]. by repeat constructor. }
  destruct ((0 <? s) && (i <? numel knots - 2 * d - 1)); [|by constructor].
  eapply rel_bind; [by apply rel_getitem|]. intros kc kc' Hkc.
  eapply rel_bind; [by apply rel_getitem|]. intros kn kn' Hkn.
  eapply rel_bind; [by apply rel_eval_basis_knotindex_subsampled|]. intros bs bs' Hbs.
  constructor. split; simpl.
  - apply Forall2_app; [done|]. constructor; [done|constructor].
  - apply Forall2_app; [done|]. by apply rel_interpolate.
Qed.

Lemma rel_hcat (Ms : list (matrix A)) (Ms' : list (matrix B)) :
  Forall2 RM Ms Ms' → option_Forall2 RM (hcat Ms) (hcat Ms').
Proof.
  intros HMs. unfold hcat.
  destruct HMs as [|M M' Ms Ms' HM HMs]; [by repeat constructor|].
  assert (∀ l l', Forall2 RM l l' →
    forallb (λ X, bool_decide (size1 X = size1 M)) l
    = forallb (λ X, bool_decide (size1 X = size1 M')) l') as Hall.
  { intros l l' Hl. induction Hl as [|X X' l l' [HX _] _ IH]; [done|].
    simpl. rewrite IH, HX. by destruct HM as [-> _]. }
  rewrite (Hall (M :: Ms) (M' :: Ms')) by by constructor.
  destruct (forallb _ (M' :: Ms')); constructor.
  split; [by destruct HM|]. cbn [columns].
  apply Forall2_join. eapply rel_fmap; [|by constructor]. by intros ?? [_ ?].
Qed.

(** The table before reduction: related breakpoints give related
    results, and an exception in one run is an exception in the other. *)
Lemma rel_eval_on_knots_raw xi xi' (d s : Z) :
  RL xi xi' →
  option_Forall2 (λ r r', RL r.1 r'.1 ∧ RM r.2 r'.2)
    (eval_on_knots_raw xi d s) (eval_on_knots_raw xi' d s).
Proof.
  intros Hxi. unfold eval_on_knots_raw.
  eapply rel_bind; [by apply rel_clamped_knots|]. intros knots knots' Hk.
  destruct (subsample_tau s) as [tau|]; [|constructor]. cbn [mbind option_bind].
  rewrite <-(rel_numel _ _ Hk).
  eapply rel_bind.
  { apply rel_foldlM with (P := TR); [|by split; constructor].
    intros. by apply rel_eval_on_knots_body. }
  intros [basis k] [basis' k'] [Hb Hkk]. simpl in Hb, Hkk.
  eapply rel_bind; [by apply rel_hcat|]. intros M M' HM. by constructor.
Qed.

End Parametricity.

(** * Numeric reduction of the table *)

Lemma ramp_increasing (n : nat) : strictly_increasing (ramp n).
Proof.
  intros i j a b Hij Ha Hb. unfold ramp in *.
  rewrite list_lookup_fmap in Ha, Hb.
  destruct (seq 0 n !! i) as [i'|] eqn:Hi; [|done].
  destruct (seq 0 n !! j) as [j'|] eqn:Hj; [|done].
  apply lookup_seq in Hi as [-> _]. apply lookup_seq in Hj as [-> _].
  simpl in Ha, Hb. injection Ha as <-. injection Hb as <-.
  apply (proj1 (Z2Qc_inj_lt _ _)). lia.
Qed.

Lemma length_ramp (n : nat) : length (ramp n) = n.
Proof. unfold ramp. by rewrite length_fmap, length_seq. Qed.

Section Reduction.

Lemma evaluates_op (f : expr → expr → expr) (g : Qc → Qc → Qc) a b a' b' :
  (∀ x y, expr_evalf (f x y) = u ← expr_evalf x; v ← expr_evalf y; Some (g u v)) →
  evaluates a b → evaluates a' b' → evaluates (f a a') (g b b').
Proof. unfold evaluates. intros -> -> ->. done. Qed.

Lemma evalf_list_evaluates (l : list expr) (lq : list Qc) :
  Forall2 evaluates l lq → evalf_list l = Some lq.
Proof. intros. by apply mapM_Some. Qed.

Lemma evaluates_evalf_list (l : list expr) (lq : list Qc) :
  evalf_list l = Some lq → Forall2 evaluates l lq.
Proof. intros. by apply mapM_Some. Qed.

Lemma evalf_evaluates (M : matrix expr) (Mq : matrix Qc) :
  matrix_rel evaluates M Mq → evalf M = Some Mq.
Proof.
  intros [H1 H2]. unfold evalf.
  assert (mapM evalf_list (columns M) = Some (columns Mq)) as ->.
  { apply mapM_Some. eapply Forall2_impl; [|exact H2].
    intros. by apply evalf_list_evaluates. }
  cbn [mbind option_bind]. rewrite H1. by destruct Mq.
Qed.

(** A run on closed expressions mirrors the run on their values. *)
Lemma eval_on_knots_raw_evaluates (xi : list expr) (xiq : list Qc) (d s : Z) :
  Forall2 evaluates xi xiq →
  option_Forall2 (λ r r', Forall2 evaluates r.1 r'.1 ∧ matrix_rel evaluates r.2 r'.2)
    (eval_on_knots_raw xi d s) (eval_on_knots_raw xiq d s).
Proof.
  apply rel_eval_on_knots_raw.
  - done.
  - intros. by apply (evaluates_op EAdd Qcplus).
  - intros. by apply (evaluates_op ESub Qcminus).
  - intros. by apply (evaluates_op EMul Qcmult).
  - intros. by apply (evaluates_op EDiv Qcdiv).
Qed.

(** Two runs on equally many breakpoints raise together, and return
    tables of the same shape. *)
Lemma eval_on_knots_raw_shape {A B} `{Scalar A} `{Scalar B}
    (xi : list A) (xi' : list B) (d s : Z) :
  length xi = length xi' →
  option_Forall2 (λ r r', length r.1 = length r'.1 ∧ size1 r.2 = size1 r'.2 ∧
                          size2 r.2 = size2 r'.2)
    (eval_on_knots_raw xi d s) (eval_on_knots_raw xi' d s).
Proof.
  intros Hlen.
  destruct (rel_eval_on_knots_raw (@any_entry A B)
              ltac:(done) ltac:(done) ltac:(done) ltac:(done) ltac:(done)
              xi xi' d s) as [r r' [Hk [HB1 HB2]]|].
  - by apply Forall2_true.
  - constructor. split; [apply (Forall2_length Hk)|].
    split; [done|apply (Forall2_length HB2)].
  - constructor.
Qed.

Lemma eval_on_knots_None {A} `{Scalar A} `{Evalf A} (xi : list A) (d s : Z) :
  eval_on_knots xi d s = None ↔ eval_on_knots_raw xi d s = None.
Proof.
  unfold eval_on_knots. by destruct (eval_on_knots_raw xi d s) as [[k B]|].
Qed.

End Reduction.

(** C8. [eval_on_knots] on symbolic breakpoints [xi]: with valid
    arguments it returns; whether it raises depends on the number of
    breakpoints only, never on what they are; an exception can only come
    from building the table, not from the reduction; when the breakpoints
    are numeric (closed expressions with values [xiq]) both results are
    reduced, to the table of the numeric run; and a result whose reduction
    fails is returned as the unreduced expression. *)
Theorem eval_on_knots_numeric_or_symbolic (xi : list expr) (d subsamples : Z) :
  (1 ≤ d → d < numel xi → 0 ≤ subsamples → is_Some (eval_on_knots xi d subsamples)) ∧
  (∀ xi' : list expr, length xi' = length xi →
     eval_on_knots xi' d subsamples = None ↔ eval_on_knots xi d subsamples = None) ∧
  (eval_on_knots xi d subsamples = None ↔ eval_on_knots_raw xi d subsamples = None) ∧
  (∀ xiq : list Qc, evalf_list xi = Some xiq →
     eval_on_knots xi d subsamples
       = (λ r, (Numeric r.1, Numeric r.2)) <$> eval_on_knots_raw xiq d subsamples) ∧
  (∀ k basis, eval_on_knots_raw xi d subsamples = Some (k, basis) →
     ∃ rk rbasis, eval_on_knots xi d subsamples = Some (rk, rbasis) ∧
       (evalf_list k = None → rk = Symbolic k) ∧
       (evalf basis = None → rbasis = Symbolic basis)).
Proof.
  split; [|split; [|split; [|split]]].
  - intros Hd Hn Hs. unfold numel in Hn.
    destruct (eval_on_knots_raw_unit (ramp (length xi)) (Z.to_nat d))
      with (s := Z.to_nat subsamples) as (k & M & Hraw & _);
      [lia|rewrite length_ramp; lia|apply ramp_increasing|].
    rewrite !Z2Nat.id in Hraw by lia.
    pose proof (eval_on_knots_raw_shape (ramp (length xi)) xi d subsamples
                  (length_ramp _)) as Hrel.
    unfold eval_on_knots.
    destruct Hrel as [r [k' B'] _|]; [done|congruence].
  - intros xi' Hlen. rewrite !eval_on_knots_None.
    by destruct (eval_on_knots_raw_shape xi' xi d subsamples Hlen).
  - apply eval_on_knots_None.
  - intros xiq Hxi. apply evaluates_evalf_list in Hxi.
    unfold eval_on_knots.
    destruct (eval_on_knots_raw_evaluates xi xiq d subsamples Hxi)
      as [[k B] [kq Bq] [Hk HB]|]; [|done].
    simpl in Hk, HB. cbn [mbind option_bind fmap option_fmap option_map fst snd].
    unfold try_evalf, try_evalf_row.
    by rewrite (evalf_evaluates _ _ HB), (evalf_list_evaluates _ _ Hk).
  - intros k basis Hraw. unfold eval_on_knots. rewrite Hraw.
    cbn [mbind option_bind]. eexists _, _. split; [done|].
    unfold try_evalf, try_evalf_row. by split; intros ->.
Qed.

(** * The recurrence, entry by entry *)

Section Recurrence.
Local Open Scope Qc_scope.
Implicit Types (v w : list Qc).

(** An entry of a column after [v[lo : lo + length w] += w]. *)
Lemma lookup_add_at (lo j : nat) w v :
  (lo + length w ≤ length v)%nat → (j < length v)%nat →
  add_at lo w v !! j
    = Some (default 0 (v !! j)
            + (if decide (lo ≤ j < lo + length w)%nat
               then default 0 (w !! (j - lo)%nat) else 0)).
Proof.
  intros Hb Hj. destruct (lookup_lt_is_Some_2 v j Hj) as [a Ha].
  case_decide as Hin.
  - destruct (lookup_lt_is_Some_2 w (j - lo)) as [b Hb']; [lia|].
    unfold add_at.
    rewrite lookup_app_r by (rewrite length_take; lia).
    rewrite length_take. replace (lo `min` length v)%nat with lo by lia.
    rewrite lookup_app_l
      by (rewrite length_zip_with, length_take, length_drop; lia).
    rewrite lookup_zip_with, lookup_take_lt, lookup_drop by lia.
    replace (lo + (j - lo))%nat with j by lia.
    rewrite Ha, Hb'. done.
  - rewrite lookup_add_at_outside by lia. rewrite Ha. simpl. f_equal. ring.
Qed.

Variables (knots basis : list Qc) (n d e : nat) (x : Qc).
Hypothesis Hknots : length knots = (n + 2 * d)%nat.
Hypothesis Hn : (2 ≤ n)%nat.
Hypothesis He : (1 ≤ e ≤ d)%nat.
Hypothesis Hbasis : (n + d - 1 ≤ length basis)%nat.

Local Abbreviation K := (at0 knots).
Local Abbreviation B := (at0 basis).

(** The two slices a pass adds: entry [t] of either belongs to the
    knot index [i = d - e + 1 + t]. *)
Lemma lookup_pass_operands (t : nat) :
  (t < n - 2 + e)%nat →
  let i := (d - e + 1 + t)%nat in
  zip_with s_mul ((λ k, s_sub x k) <$> take (n - 2 + e) (drop (d - e + 1) knots))
    (zip_with s_div (take (n - 2 + e) (drop (d - e + 1) basis))
       (zip_with s_sub (take (n - 2 + e) (drop (d - e + 1 + e) knots))
          (take (n - 2 + e) (drop (d - e + 1) knots)))) !! t
    = Some ((x - K i) * (B i / (K (i + e)%nat - K i))) ∧
  zip_with s_mul ((λ k, s_sub k x) <$> take (n - 2 + e) (drop (d - e + 1 + e) knots))
    (zip_with s_div (take (n - 2 + e) (drop (d - e + 1) basis))
       (zip_with s_sub (take (n - 2 + e) (drop (d - e + 1 + e) knots))
          (take (n - 2 + e) (drop (d - e + 1) knots)))) !! t
    = Some ((K (i + e)%nat - x) * (B i / (K (i + e)%nat - K i))).
Proof.
  intros Ht i.
  destruct (lookup_lt_is_Some_2 knots i) as [ki Hki]; [subst i; lia|].
  destruct (lookup_lt_is_Some_2 knots (i + e)) as [kid Hkid]; [subst i; lia|].
  destruct (lookup_lt_is_Some_2 basis i) as [bi Hbi]; [subst i; lia|].
  rewrite !lookup_zip_with, !list_lookup_fmap, !lookup_take_lt, !lookup_drop by lia.
  fold i. replace (d - e + 1 + e + t)%nat with (i + e)%nat by (subst i; lia).
  unfold at0. rewrite Hki, Hkid, Hbi. done.
Qed.

(** One pass computes the Cox-de Boor recurrence: entry [j] of the new
    column is made of entries [j] and [j + 1] of the old one. *)
Lemma step_form_lookup (j : nat) :
  (j < n + 2 * d - e - 1)%nat →
  step_form knots n d x basis e !! j
    = Some ((if decide (d - e + 1 ≤ j < n + d - 1)%nat
             then (x - K j) * (B j / (K (j + e)%nat - K j)) else 0)
            + (if decide (d - e ≤ j < n + d - 2)%nat
               then (K (j + 1 + e)%nat - x) * (B (j + 1)%nat / (K (j + 1 + e)%nat - K (j + 1)%nat))
               else 0)).
Proof.
  intros Hj. unfold step_form.
  destruct (step_operand_length knots basis n d e (λ k, s_sub x k) (λ k, s_sub k x))
    as [H1 H2]; [done..|].
  pose proof lookup_pass_operands as Hop.
  set (w1 := zip_with s_mul ((λ k, s_sub x k) <$> _) _) in *.
  set (w2 := zip_with s_mul ((λ k, s_sub k x) <$> _) _) in *.
  rewrite lookup_add_at;
    [|rewrite length_add_at, length_replicate; rewrite ?length_replicate; lia
     |rewrite length_add_at, length_replicate; rewrite ?length_replicate; lia].
  rewrite lookup_add_at by (rewrite length_replicate; lia).
  rewrite lookup_replicate_2 by lia. rewrite H1, H2. simpl. f_equal.
  assert (∀ a b c : Qc, a = b → 0 + a + c = b + c) as Hring by (intros; subst; ring).
  rewrite Qcplus_0_l. f_equal.
  - repeat case_decide; try lia; try done.
    destruct (Hop (j - (d - e + 1))%nat) as [-> _]; [lia|]. simpl.
    by replace (d - e + 1 + (j - (d - e + 1)))%nat with j by lia.
  - repeat case_decide; try lia; try done.
    destruct (Hop (j - (d - e))%nat) as [_ ->]; [lia|]. simpl.
    by replace (d - e + 1 + (j - (d - e)))%nat with (j + 1)%nat by lia.
Qed.

End Recurrence.

(** X7. One pass of the loop of [eval_basis_knotindex] computes the
    Cox-de Boor recurrence entry by entry: for a knot vector of [n + 2d]
    entries and pass [e] of [d], entry [j] of the new column is
    [(x - k[j]) / (k[j+e] - k[j]) * b[j]], present for
    [d-e+1 ≤ j ≤ n+d-2], plus
    [(k[j+1+e] - x) / (k[j+1+e] - k[j+1]) * b[j+1]], present for
    [d-e ≤ j ≤ n+d-3]; the new column has [n + 2d - e - 1] entries. *)
Theorem cox_de_boor_step_recurrence (knots basis : list Qc) (n d e : nat) (x : Qc) :
  length knots = (n + 2 * d)%nat → (2 ≤ n)%nat → (1 ≤ e ≤ d)%nat →
  (n + d - 1 ≤ length basis)%nat →
  ∃ v,
    cox_de_boor_step knots (Z.of_nat d) x basis (Z.of_nat e) = Some v ∧
    length v = (n + 2 * d - e - 1)%nat ∧
    ∀ j, (j < n + 2 * d - e - 1)%nat →
      v !! j
        = Some ((if decide (d - e + 1 ≤ j < n + d - 1)%nat
                 then (x - at0 knots j)
                      * (at0 basis j / (at0 knots (j + e) - at0 knots j))
                 else 0)
                + (if decide (d - e ≤ j < n + d - 2)%nat
                   then (at0 knots (j + 1 + e) - x)
                        * (at0 basis (j + 1)
                           / (at0 knots (j + 1 + e) - at0 knots (j + 1)))
                   else 0))%Qc.
Proof.
  intros Hk Hn He Hb. exists (step_form knots n d x basis e).
  split; [by apply cox_de_boor_step_form|].
  split; [by apply length_step_form|].
  intros j Hj. by apply step_form_lookup.
Qed.

(** * Signs and supports *)

Section RationalOrder.
Local Open Scope Qc_scope.

Lemma Qcdiv_nonneg (a b : Qc) : 0 ≤ a → 0 ≤ b → 0 ≤ a / b.
Proof.
  intros Ha Hb. unfold Qcdiv. apply Qcmult_nonneg_nonneg; [done|].
  destruct (decide (b = 0)) as [->|Hne]; [done|].
  apply Qclt_le_weak, Qcinv_pos.
  destruct (Qcle_lt_or_eq _ _ Hb) as [|Heq]; [done|]. by destruct Hne.
Qed.

Lemma Qcminus_nonneg (a b : Qc) : a ≤ b → 0 ≤ b - a.
Proof.
  intros Hab. apply (Qcplus_le_mono_r _ _ a).
  by replace (b - a + a) with b by ring; rewrite Qcplus_0_l.
Qed.

Lemma Qcplus_nonneg_zero (a b : Qc) : a + b ≠ 0 → a ≠ 0 ∨ b ≠ 0.
Proof.
  intros Hne. destruct (decide (a = 0)) as [->|]; [|by left].
  right. intros ->. by apply Hne.
Qed.
End RationalOrder.

Section SignFacts.
Local Open Scope Qc_scope.
Variables (knots : list Qc) (n d p : nat) (x : Qc).
Hypothesis Hknots : length knots = (n + 2 * d)%nat.
Hypothesis Hn : (2 ≤ n)%nat.
Hypothesis Hsorted : nondecreasing knots.
Hypothesis Hp : (d ≤ p ≤ n + d - 2)%nat.
Hypothesis Hx : at0 knots p ≤ x ≤ at0 knots (S p).

(** What the passes keep: within the rows pass [e] reads, the column is
    non-negative and vanishes outside the rows [p + 1 - e .. p]. *)
Local Abbreviation window_ok := (λ (e : nat) (b : list Qc),
  ∀ i v, (d + 1 - e ≤ i < n + d - 1)%nat → b !! i = Some v →
         0 ≤ v ∧ (v ≠ 0 → (p + 1 - e ≤ i ≤ p)%nat)).

Lemma at0_le (i j : nat) :
  (i ≤ j)%nat → (j < n + 2 * d)%nat → at0 knots i ≤ at0 knots j.
Proof.
  intros Hij Hj. unfold at0.
  destruct (lookup_lt_is_Some_2 knots i) as [a Ha]; [lia|].
  destruct (lookup_lt_is_Some_2 knots j) as [b Hb]; [lia|].
  rewrite Ha, Hb. simpl. by apply (Hsorted i j).
Qed.

Lemma window_ok_at0 (e : nat) (b : list Qc) (i : nat) :
  window_ok e b → (n + d - 1 ≤ length b)%nat → (d + 1 - e ≤ i < n + d - 1)%nat →
  0 ≤ at0 b i ∧ (at0 b i ≠ 0 → (p + 1 - e ≤ i ≤ p)%nat).
Proof.
  intros Hw Hb Hi. unfold at0.
  destruct (lookup_lt_is_Some_2 b i) as [v Hv]; [lia|].
  rewrite Hv. simpl. by apply (Hw i).
Qed.

Lemma step_form_window_ok (e : nat) (b : list Qc) :
  (1 ≤ e ≤ d)%nat → (n + d - 1 ≤ length b)%nat →
  window_ok e b → window_ok (S e) (step_form knots n d x b e).
Proof.
  intros He Hb Hw j v Hj Hv.
  rewrite (step_form_lookup knots b n d e x) in Hv by (done || lia).
  injection Hv as <-.
  set (t1 := if decide (d - e + 1 ≤ j < n + d - 1)%nat then _ else 0).
  set (t2 := if decide (d - e ≤ j < n + d - 2)%nat then _ else 0).
  assert (0 ≤ t1 ∧ (t1 ≠ 0 → (p + 1 - e ≤ j ≤ p)%nat)) as [H1 H1'].
  { subst t1. case_decide as Hin; [|done].
    destruct (window_ok_at0 e b j Hw Hb) as [Hb0 Hbs]; [lia|].
    destruct (decide (at0 b j = 0)) as [Hz|Hnz].
    { rewrite Hz. match goal with |- 0 ≤ ?t ∧ _ => replace t with 0 by (unfold Qcdiv; ring) end.
      by split. }
    specialize (Hbs Hnz). split; [|done].
    apply Qcmult_nonneg_nonneg.
    - apply Qcminus_nonneg. etrans; [|apply Hx]. apply at0_le; lia.
    - apply Qcdiv_nonneg; [done|]. apply Qcminus_nonneg, at0_le; lia. }
  assert (0 ≤ t2 ∧ (t2 ≠ 0 → (p + 1 - e ≤ j + 1 ≤ p)%nat)) as [H2 H2'].
  { subst t2. case_decide as Hin; [|done].
    destruct (window_ok_at0 e b (j + 1) Hw Hb) as [Hb0 Hbs]; [lia|].
    destruct (decide (at0 b (j + 1) = 0)) as [Hz|Hnz].
    { rewrite Hz. match goal with |- 0 ≤ ?t ∧ _ => replace t with 0 by (unfold Qcdiv; ring) end.
      by split. }
    specialize (Hbs Hnz). split; [|done].
    apply Qcmult_nonneg_nonneg.
    - apply Qcminus_nonneg. etrans; [apply Hx|]. apply at0_le; lia.
    - apply Qcdiv_nonneg; [done|]. apply Qcminus_nonneg, at0_le; lia. }
  split; [by apply Qcplus_nonneg_nonneg|].
  intros Hne. destruct (Qcplus_nonneg_zero t1 t2 Hne) as [Ht|Ht].
  - specialize (H1' Ht). lia.
  - specialize (H2' Ht). lia.
Qed.

(** After all [d] passes, from a seed that holds a non-negative value in
    slot [p] and zeros in the other slots the first pass reads. *)
Lemma recursion_form_supported (seed : list Qc) (a : Qc) :
  (1 ≤ d)%nat → 0 ≤ a →
  take (n - 1) (drop d seed) = <[(p - d)%nat := a]> (replicate (n - 1) 0) →
  (n + d - 1 ≤ length seed)%nat →
  supported (p - d) p (recursion_form knots n d x seed).
Proof.
  intros Hd Ha Hwin Hlen.
  assert (window_ok 1%nat seed) as Hseed.
  { intros i v Hi Hv.
    assert (take (n - 1) (drop d seed) !! (i - d)%nat = Some v) as Hv'.
    { rewrite lookup_take_lt, lookup_drop by lia. rewrite <-Hv. f_equal. lia. }
    rewrite Hwin in Hv'.
    destruct (decide (i - d = p - d)%nat) as [Heq|Hne].
    - rewrite Heq, list_lookup_insert_eq in Hv'
        by (rewrite length_replicate; lia).
      injection Hv' as <-. split; [done|]. lia.
    - rewrite list_lookup_insert_ne, lookup_replicate_2 in Hv' by lia.
      injection Hv' as <-. split; [done|]. by intros []. }
  assert (∀ k, (1 ≤ k ≤ d)%nat →
    let b := foldl (step_form knots n d x) seed (seq 1%nat k) in
    length b = (n + 2 * d - k - 1)%nat ∧ window_ok (S k) b) as Hpasses.
  { intros k Hk. induction k as [|k IH]; [lia|].
    rewrite seq_S, foldl_app. simpl.
    destruct (decide (k = 0)%nat) as [->|Hk0]; simpl.
    - split; [apply length_step_form; (done || lia)|].
      by apply step_form_window_ok.
    - destruct IH as [Hl Hw]; [lia|]. split.
      + rewrite length_step_form; (done || lia).
      + apply step_form_window_ok; [lia|lia|done]. }
  destruct (Hpasses d) as [Hl Hw]; [lia|].
  intros j v Hj. pose proof (lookup_lt_Some _ _ _ Hj) as Hlt.
  unfold recursion_form in *. rewrite Hl in Hlt.
  destruct (Hw j v) as [H0 Hs]; [lia|done|].
  split; [done|]. intros Hne. specialize (Hs Hne). lia.
Qed.

End SignFacts.

(** * Columns of the table *)

Section ColumnFacts.
Local Open Scope Qc_scope.

Lemma nondecreasing_pad (xi : list Qc) (d : nat) :
  strictly_increasing xi → (1 ≤ length xi)%nat → nondecreasing (pad d xi).
Proof.
  intros Hinc Hn i j a b Hij Ha Hb.
  pose proof (lookup_lt_Some _ _ _ Ha) as Hi.
  pose proof (lookup_lt_Some _ _ _ Hb) as Hj.
  rewrite length_pad in Hi, Hj by done.
  rewrite lookup_pad in Ha, Hb by done.
  destruct (decide ((i - d) `min` (length xi - 1) = (j - d) `min` (length xi - 1))%nat)
    as [Heq|Hne].
  - rewrite Heq in Ha. rewrite Ha in Hb. injection Hb as ->. apply Qcle_refl.
  - apply Qclt_le_weak. eapply Hinc; [|exact Ha|exact Hb]. lia.
Qed.

Variables (xi : list Qc) (d : nat).
Hypothesis Hd : (1 ≤ d)%nat.
Hypothesis Hn : (2 ≤ length xi)%nat.
Hypothesis Hinc : strictly_increasing xi.

Local Abbreviation n := (length xi).
Local Abbreviation knots := (pad d xi).

(** The column at breakpoint [ind]: non-negative, with its non-zero
    entries in the rows [min(ind, n-2) .. min(ind, n-2) + d]. *)
Lemma eval_basis_knotindex_supported (ind : nat) :
  (ind < n)%nat →
  ∃ col, eval_basis_knotindex (Z.of_nat ind) knots (Z.of_nat d) = Some col ∧
         length col = (n + d - 1)%nat ∧
         supported (ind `min` (n - 2)) (ind `min` (n - 2) + d) col.
Proof.
  intros Hind. pose proof (knots_length xi d Hd Hn) as Hk.
  destruct (eval_basis_knotindex_form ind n d knots Hk Hn Hd Hind)
    as (x & seed & Hx & Hseed & Hlen & Hwin & Heval).
  eexists. split; [exact Heval|].
  split; [apply length_recursion_form; (done || lia)|].
  set (p := (ind `min` (n - 2) + d)%nat).
  replace (ind `min` (n - 2))%nat with (p - d)%nat by lia.
  apply (recursion_form_supported knots n d p x Hk Hn) with (a := 1 + float64_eps).
  - apply nondecreasing_pad; [done|lia].
  - lia.
  - destruct (lookup_lt_is_Some_2 knots p) as [kp Hkp]; [lia|].
    destruct (lookup_lt_is_Some_2 knots (S p)) as [kq Hkq]; [lia|].
    unfold at0. rewrite Hkp, Hkq. simpl.
    pose proof (nondecreasing_pad xi d Hinc ltac:(lia)) as Hs.
    split.
    + apply (Hs p (ind + d)%nat); [lia|done..].
    + apply (Hs (ind + d)%nat (S p)); [lia|done..].
  - done.
  - done.
  - replace (p - d)%nat with (ind `min` (n - 2))%nat by lia. exact Hwin.
  - lia.
Qed.

(** The columns between breakpoints [ind] and [ind + 1]: non-negative,
    with their non-zero entries in the rows [ind .. ind + d]. *)
Lemma eval_basis_knotindex_subsampled_supported (ind N : nat) :
  (ind + 1 < n)%nat → (1 ≤ N)%nat →
  ∃ M, eval_basis_knotindex_subsampled (Z.of_nat ind) (Z.of_nat N) knots (Z.of_nat d)
         = Some M ∧
       size1 M = (n + d - 1)%nat ∧ size2 M = N ∧
       Forall (λ col, length col = (n + d - 1)%nat ∧ supported ind (ind + d) col)
         (columns M).
Proof.
  intros Hind HN. pose proof (knots_length xi d Hd Hn) as Hk.
  destruct (eval_basis_knotindex_subsampled_form ind N n d knots Hk Hn Hd Hind HN)
    as (k0 & k1 & tau & Hk0 & Hk1 & Htau & Hlt & Heval).
  eexists. split; [exact Heval|]. split; [done|].
  split; [unfold size2, interpolate; cbn [columns]; by rewrite !length_fmap|].
  cbn [columns]. apply Forall_fmap, Forall_lookup_2. intros j xj Hj. simpl.
  split.
  { apply length_recursion_form;
      [done..|rewrite length_insert, length_replicate; lia]. }
  replace ((ind + d) `min` (n + d - 2))%nat with (ind + d)%nat by lia.
  replace ind with (ind + d - d)%nat at 1 by lia.
  apply (recursion_form_supported knots n d (ind + d) xj Hk Hn)
    with (a := 1 + float64_eps).
  - apply nondecreasing_pad; [done|lia].
  - lia.
  - unfold at0. replace (S (ind + d)) with (ind + d + 1)%nat by lia.
    rewrite Hk0, Hk1. simpl.
    rewrite subsample_tau_form in Htau. injection Htau as <-.
    unfold interpolate in Hj. rewrite !list_lookup_fmap in Hj.
    destruct (seq 1 N !! j) as [j'|] eqn:Hseq; [|done].
    apply lookup_seq in Hseq as [-> Hjn]. simpl in Hj. injection Hj as <-.
    assert (k0 < k1) as Hk01.
    { rewrite lookup_pad in Hk0, Hk1 by lia.
      eapply Hinc; [|exact Hk0|exact Hk1]. lia. }
    rewrite tau_value.
    pose proof (interpolate_between k0 k1 _ Hk01 (tau_bounds N j Hjn)) as [H1 H2].
    split; by apply Qclt_le_weak.
  - done.
  - done.
  - replace (ind + d - d)%nat with ind by lia.
    apply list_eq. intros i.
    rewrite lookup_take, lookup_drop.
    case_decide as Hi.
    + destruct (decide (i = ind)) as [->|Hne].
      * rewrite !list_lookup_insert_eq by (rewrite length_replicate; lia).
        by replace (d + ind)%nat with (ind + d)%nat by lia;
           rewrite list_lookup_insert_eq by (rewrite length_replicate; lia).
      * rewrite !list_lookup_insert_ne by lia.
        by rewrite !lookup_replicate_2 by lia.
    + symmetry. apply lookup_ge_None.
      rewrite length_insert, length_replicate. lia.
  - rewrite length_insert, length_replicate. lia.
Qed.

End ColumnFacts.

(** X9. Local support. On the clamped knot vector of [n ≥ 2] strictly
    increasing breakpoints and for a degree [d ≥ 1], the column that
    [eval_basis_knotindex] returns for a knot index [ind < n] has
    [n + d - 1] entries, all zero outside the [d + 1] rows
    [min(ind, n-2) .. min(ind, n-2) + d]; the columns that
    [eval_basis_knotindex_subsampled] returns for [ind] (with
    [ind + 1 < n]) are zero outside the rows [ind .. ind + d]. *)
Theorem eval_basis_knotindex_local_support (xi : list Qc) (ind N d : nat)
    (knots : list Qc) :
  (1 ≤ d)%nat → (ind < length xi)%nat → (2 ≤ length xi)%nat →
  strictly_increasing xi →
  clamped_knots xi (Z.of_nat d) = Some knots →
  (∃ col, eval_basis_knotindex (Z.of_nat ind) knots (Z.of_nat d) = Some col ∧
     length col = (length xi + d - 1)%nat ∧
     ∀ j a, col !! j = Some a → a ≠ 0%Qc →
       (ind `min` (length xi - 2) ≤ j ≤ ind `min` (length xi - 2) + d)%nat) ∧
  ((ind + 1 < length xi)%nat → (1 ≤ N)%nat →
   ∃ M, eval_basis_knotindex_subsampled (Z.of_nat ind) (Z.of_nat N) knots (Z.of_nat d)
          = Some M ∧
        size2 M = N ∧
        Forall (λ col, length col = (length xi + d - 1)%nat ∧
                       ∀ j a, col !! j = Some a → a ≠ 0%Qc → (ind ≤ j ≤ ind + d)%nat)
          (columns M)).
Proof.
  intros Hd Hind Hn Hinc Hk.
  rewrite clamped_knots_pad in Hk by lia. injection Hk as <-. split.
  - destruct (eval_basis_knotindex_supported xi d Hd Hn Hinc ind Hind)
      as (col & Hcol & Hlen & Hsup).
    exists col. split; [done|]. split; [done|].
    intros j a Hj. by apply (Hsup j).
  - intros Hind' HN.
    destruct (eval_basis_knotindex_subsampled_supported xi d Hd Hn Hinc ind N)
      as (M & HM & _ & Hsize & Hcols); [done..|].
    exists M. split; [done|]. split; [done|].
    eapply Forall_impl; [|exact Hcols]. simpl. intros col [Hlen Hsup].
    split; [done|]. intros j a Hj. by apply (Hsup j).
Qed.

(** * Shape of the table, for any kind of entries *)

Section TableShape.
Context {A : Type} `{Scalar A}.
Variables (xi : list A) (d s : nat).
Hypothesis Hd : (1 ≤ d)%nat.
Hypothesis Hn : (2 ≤ length xi)%nat.

Local Abbreviation n := (length xi).
Local Abbreviation knots := (pad d xi).
Local Abbreviation block_ok := (λ M : matrix A, size1 M = (n + d - 1)%nat ∧ matrix_wf M).

Lemma length_points_of_turn (tau : list Qc) (i : nat) :
  (i < n)%nat → length tau = s →
  length (points_of_turn xi tau i) = (if decide (i + 1 < n)%nat then S s else 1)%nat.
Proof.
  intros Hi Htau. unfold points_of_turn.
  destruct (lookup_lt_is_Some_2 xi i Hi) as [a ->].
  case_decide as Hnext.
  - destruct (lookup_lt_is_Some_2 xi (S i)) as [b ->]; [lia|].
    simpl. unfold interpolate. by rewrite length_fmap, Htau.
  - by rewrite (lookup_ge_None_2 xi (S i)) by lia.
Qed.

(** One turn of the loop. *)
Lemma eval_on_knots_body_shape (i : nat) (tau : list Qc)
    (basis : list (matrix A)) (k : list A) :
  (i < n)%nat → subsample_tau (Z.of_nat s) = Some tau →
  ∃ blocks,
    eval_on_knots_body xi knots (Z.of_nat d) (Z.of_nat s) tau (basis, k) (Z.of_nat i)
      = Some (basis ++ blocks, k ++ points_of_turn xi tau i) ∧
    Forall block_ok blocks ∧ (1 ≤ length blocks)%nat ∧
    sum_list (size2 <$> blocks) = length (points_of_turn xi tau i).
Proof.
  intros Hi Htau.
  assert (length tau = s) as Hlen.
  { rewrite subsample_tau_form in Htau. injection Htau as <-.
    by rewrite length_fmap, length_seq. }
  assert (length knots = (n + 2 * d)%nat) as Hk by (apply length_pad; lia).
  destruct (eval_basis_knotindex_form i n d knots Hk Hn Hd Hi)
    as (x & seed & _ & _ & Hseedlen & _ & Hcol).
  assert (block_ok (colvec (recursion_form knots n d x seed))) as Hcolok.
  { assert (length (recursion_form knots n d x seed) = (n + d - 1)%nat) as Hl
      by (apply length_recursion_form; (done || lia)).
    split; [done|]. unfold matrix_wf, colvec. cbn [columns size1].
    by constructor. }
  unfold eval_on_knots_body, points_of_turn. rewrite Hcol.
  cbn [mbind option_bind]. rewrite getitem_nat.
  destruct (lookup_lt_is_Some_2 xi i Hi) as [a Ha]. rewrite Ha.
  cbn [mbind option_bind]. unfold numel. rewrite Hk.
  destruct (decide (i + 1 < n)%nat) as [Hnext|Hlast].
  - destruct (lookup_lt_is_Some_2 xi (S i)) as [b Hb]; [lia|]. rewrite Hb.
    destruct (decide (s = 0)%nat) as [->|Hs].
    + assert (tau = []) as -> by (by destruct tau).
      change (0 <? Z.of_nat 0) with false. cbn [andb].
      exists [colvec (recursion_form knots n d x seed)].
      split; [done|]. split; [by constructor|].
      split; [simpl; lia|done].
    + assert ((0 <? Z.of_nat s) && (Z.of_nat i <? Z.of_nat (n + 2 * d) - 2 * Z.of_nat d - 1)
              = true) as ->.
      { apply andb_true_iff. split; [apply Z.ltb_lt|apply Z.ltb_lt]; lia. }
      replace (Z.of_nat i + 1) with (Z.of_nat (S i)) by lia.
      rewrite getitem_nat, Hb. cbn [mbind option_bind].
      destruct (eval_basis_knotindex_subsampled_form i s n d knots Hk Hn Hd)
        as (k0 & k1 & tau' & _ & _ & Htau' & Hlen' & ->); [lia..|].
      cbn [mbind option_bind].
      eexists [_; _]. split; [by rewrite <-!app_assoc|].
      split; [|split; [simpl; lia|]].
      * constructor; [done|]. constructor; [|done]. split; [done|].
        unfold matrix_wf. cbn [columns size1].
        apply Forall_fmap, Forall_true. intros xj. simpl.
        apply length_recursion_form;
          [done..|rewrite length_insert, length_replicate; lia].
      * unfold size2, colvec, interpolate. cbn [fmap list_fmap columns sum_list].
        rewrite !length_fmap. simpl. rewrite !length_fmap. lia.
  - rewrite (lookup_ge_None_2 xi (S i)) by lia.
    assert ((0 <? Z.of_nat s) && (Z.of_nat i <? Z.of_nat (n + 2 * d) - 2 * Z.of_nat d - 1)
            = false) as ->.
    { apply andb_false_iff. right. apply Z.ltb_ge. lia. }
    exists [colvec (recursion_form knots n d x seed)].
    split; [done|]. split; [by constructor|]. split; [simpl; lia|done].
Qed.

Lemma eval_on_knots_loop_shape (m : nat) (tau : list Qc) :
  (m ≤ n)%nat → subsample_tau (Z.of_nat s) = Some tau →
  ∃ basis,
    foldlM (eval_on_knots_body xi knots (Z.of_nat d) (Z.of_nat s) tau) ([], [])
      (Z.of_nat <$> seq 0 m)
      = Some (basis, seq 0 m ≫= points_of_turn xi tau) ∧
    Forall block_ok basis ∧ (m ≤ length basis)%nat ∧
    sum_list (size2 <$> basis) = length (seq 0 m ≫= points_of_turn xi tau).
Proof.
  intros Hm Htau. induction m as [|m IH].
  { exists []. repeat split; (done || constructor). }
  destruct IH as (basis & Hloop & Hb & Hlen & Hsum); [lia|].
  rewrite seq_S, fmap_app, foldlM_app, Hloop.
  cbn [mbind option_bind fmap list_fmap foldlM Nat.add].
  destruct (eval_on_knots_body_shape m tau basis (seq 0 m ≫= points_of_turn xi tau))
    as (blocks & -> & Hbl & Hbl1 & Hbls); [lia|done|].
  cbn [mbind option_bind]. exists (basis ++ blocks).
  rewrite bind_app. cbn [mbind list_bind mjoin list_join fmap list_fmap].
  rewrite app_nil_r. split; [done|].
  split; [by apply Forall_app|]. split; [rewrite length_app; lia|].
  rewrite fmap_app, sum_list_with_app, length_app. lia.
Qed.

Lemma length_points (m : nat) (tau : list Qc) :
  (m ≤ n)%nat → length tau = s →
  length (seq 0 m ≫= points_of_turn xi tau) = (m + (m `min` (n - 1)) * s)%nat.
Proof.
  intros Hm Htau. induction m as [|m IH]; [done|].
  rewrite seq_S, bind_app, length_app, IH by lia.
  cbn [mbind list_bind mjoin list_join fmap list_fmap Nat.add].
  rewrite app_nil_r, length_points_of_turn by (done || lia).
  case_decide.
  - replace (S m `min` (n - 1))%nat with (S (m `min` (n - 1))) by lia. lia.
  - replace (S m `min` (n - 1))%nat with (m `min` (n - 1))%nat by lia. lia.
Qed.

Lemma hcat_blocks (basis : list (matrix A)) :
  Forall block_ok basis → (1 ≤ length basis)%nat →
  ∃ M, hcat basis = Some M ∧ block_ok M ∧ size2 M = sum_list (size2 <$> basis).
Proof.
  intros Hb Hl. destruct basis as [|M0 basis]; [simpl in Hl; lia|].
  unfold hcat.
  assert (forallb (λ M', bool_decide (size1 M' = size1 M0)) (M0 :: basis) = true) as ->.
  { apply Is_true_true, forallb_True. eapply Forall_impl; [|exact Hb].
    intros M' [HM' _]. simpl. apply bool_decide_pack.
    inversion_clear Hb as [|?? [HM0 _] _]. congruence. }
  eexists. split; [done|]. split; [split|].
  - cbn [size1]. by inversion_clear Hb as [|?? [HM0 _] _].
  - unfold matrix_wf. cbn [columns size1].
    apply Forall_join, Forall_fmap.
    inversion Hb as [|?? [HM0 _] _]; subst.
    eapply Forall_impl; [|exact Hb]. simpl. intros M' [HM1 HM2].
    unfold matrix_wf in HM2. eapply Forall_impl; [|exact HM2]. simpl.
    intros c ->. congruence.
  - unfold size2 at 1. cbn [columns]. rewrite length_join.
    by rewrite <-list_fmap_compose.
Qed.

End TableShape.

(** The table before reduction, in closed form. *)
Lemma eval_on_knots_raw_form {A : Type} `{Scalar A} (xi : list A) (d s : nat) :
  (1 ≤ d)%nat → (2 ≤ length xi)%nat →
  ∃ tau k M,
    subsample_tau (Z.of_nat s) = Some tau ∧ length tau = s ∧
    eval_on_knots_raw xi (Z.of_nat d) (Z.of_nat s) = Some (k, M) ∧
    k = seq 0 (length xi) ≫= points_of_turn xi tau ∧
    length k = (length xi + (length xi - 1) * s)%nat ∧
    size1 M = (length xi + d - 1)%nat ∧ size2 M = length k ∧ matrix_wf M.
Proof.
  intros Hd Hn.
  assert (∃ tau, subsample_tau (Z.of_nat s) = Some tau ∧ length tau = s)
    as (tau & Htau & Hlen).
  { eexists. split; [apply subsample_tau_form|]. by rewrite length_fmap, length_seq. }
  destruct (eval_on_knots_loop_shape xi d s Hd Hn (length xi) tau)
    as (basis & Hloop & Hb & Hl & Hsum); [done..|].
  destruct (hcat_blocks xi d Hd Hn basis Hb) as (M & HM & [HM1 HM2] & HMs); [lia|].
  exists tau, (seq 0 (length xi) ≫= points_of_turn xi tau), M.
  split; [done|]. split; [done|]. split.
  { unfold eval_on_knots_raw. rewrite clamped_knots_pad by lia.
    cbn [mbind option_bind]. rewrite Htau. cbn [mbind option_bind].
    unfold numel. rewrite length_pad by lia.
    assert (py_range 0 (Z.of_nat (length xi + 2 * d) - 2 * Z.of_nat d)
            = Z.of_nat <$> seq 0 (length xi)) as ->.
    { pose proof (py_range_nat 0 (length xi)) as E. rewrite <-E. f_equal; lia. }
    rewrite Hloop. cbn [mbind option_bind]. rewrite HM. done. }
  split; [done|]. split.
  { rewrite (length_points xi d s Hd Hn) by done.
    by replace (length xi `min` (length xi - 1))%nat with (length xi - 1)%nat by lia. }
  split; [done|]. split; [congruence|done].
Qed.

(** X10. For [n ≥ 2] breakpoints of any kind (numbers or symbols), a
    degree [d ≥ 1] and [s ≥ 0] subsamples, the table that [eval_on_knots]
    builds has [n + d - 1] rows and [n + (n - 1) s] columns, one for each
    evaluation point; the points are, breakpoint after breakpoint, the
    breakpoint itself followed by the [s] subsamples towards the next
    one. *)
Theorem eval_on_knots_table_shape {A : Type} `{Scalar A} (xi : list A) (d s : nat) :
  (1 ≤ d)%nat → (2 ≤ length xi)%nat →
  ∃ tau k M,
    subsample_tau (Z.of_nat s) = Some tau ∧ length tau = s ∧
    eval_on_knots_raw xi (Z.of_nat d) (Z.of_nat s) = Some (k, M) ∧
    k = seq 0 (length xi) ≫= points_of_turn xi tau ∧
    length k = (length xi + (length xi - 1) * s)%nat ∧
    size1 M = (length xi + d - 1)%nat ∧ size2 M = length k ∧ matrix_wf M.
Proof. apply eval_on_knots_raw_form. Qed.

(** * Knot indices out of range *)

Section OutOfRange.
Context {A : Type} `{Scalar A}.

Lemma getitem_beyond (l : list A) (i : Z) : numel l ≤ i → getitem l i = None.
Proof.
  intros Hi. unfold getitem, norm_index, numel in *.
  destruct (Z.ltb_spec i 0); [lia|].
  destruct (Z.ltb_spec i (Z.of_nat (length l))); [lia|].
  by rewrite andb_false_r.
Qed.

End OutOfRange.

(** X18. A knot index whose evaluation point lies beyond the knot vector
    raises: [eval_basis_knotindex] reads [knots[ind + d]] and raises when
    [ind + d] is not an index of [knots]; the subsampled function also
    reads [knots[ind + d + 1]] and raises when that is not an index, so it
    cannot be called for the last index that [eval_basis_knotindex]
    accepts. Symbolic and numeric knots alike. *)
Theorem eval_basis_knotindex_out_of_range {A : Type} `{Scalar A}
    (ind d N : Z) (knots : list A) :
  0 ≤ ind → 0 ≤ d →
  (numel knots ≤ ind + d → eval_basis_knotindex ind knots d = None) ∧
  (numel knots ≤ ind + d + 1 →
   eval_basis_knotindex_subsampled ind N knots d = None).
Proof.
  intros Hind Hd. split.
  - intros Hout. unfold eval_basis_knotindex.
    destruct (eval_basis_knotindex_seed _ _ _ _); [|done]. cbn [mbind option_bind].
    by rewrite getitem_beyond.
  - intros Hout. unfold eval_basis_knotindex_subsampled.
    destruct (eval_basis_knotindex_subsampled_seed _ _ _ _ _); [|done].
    cbn [mbind option_bind].
    destruct (subsample_tau N); [|done]. cbn [mbind option_bind].
    destruct (getitem knots (ind + d)); [|done]. cbn [mbind option_bind].
    by rewrite getitem_beyond.
Qed.

(** X14. With as many coefficient columns as breakpoints (the column
    count of the degree-1 case), [bspline_derivative] raises for every
    degree [2 ≤ d < n]: the scale row has [n + d - 2] entries, the
    coefficient differences have [n - 1] columns, and neither count is a
    multiple of the other. *)
Theorem bspline_derivative_column_mismatch (c : matrix Qc) (xi : list Qc) (d : nat) :
  matrix_wf c → (1 ≤ size1 c)%nat → size2 c = length xi →
  (2 ≤ d)%nat → (d < length xi)%nat →
  bspline_derivative c xi (Z.of_nat d) = None.
Proof.
  intros Hwf Hr Hc Hd Hn. unfold size2 in Hc. unfold bspline_derivative.
  rewrite getslice_tail by lia. cbn [mbind option_bind].
  rewrite getitem_last by lia.
  destruct (lookup_lt_is_Some_2 xi (length xi - 1)) as [xl Hxl]; [lia|].
  rewrite Hxl. cbn [mbind option_bind].
  replace (Z.of_nat d - 1)%Z with (Z.of_nat (d - 1)) by lia.
  rewrite repmat_scalar_nat. cbn [mbind option_bind].
  change 0%Z with (Z.of_nat 0). rewrite getitem_nat.
  destruct (lookup_lt_is_Some_2 xi 0) as [x0 Hx0]; [lia|].
  rewrite Hx0. cbn [mbind option_bind].
  rewrite repmat_scalar_nat. cbn [mbind option_bind].
  change (Z.of_nat 0) with 0%Z.
  rewrite getslice_init by lia. cbn [mbind option_bind].
  rewrite repmat_v_nat. cbn [mbind option_bind].
  unfold getcols.
  rewrite getslice_tail by lia. cbn [mbind option_bind].
  rewrite getslice_init by lia. cbn [mbind option_bind].
  rewrite cs_binary_same_shape;
    [|by apply Forall_drop|by apply Forall_take
     |rewrite length_drop, length_take; lia].
  cbn [mbind option_bind].
  set (S := (λ x : Qc, replicate (size1 c) x) <$> _).
  set (D := zip_with (zip_with s_sub) _ _).
  assert (length S = (length xi + d - 2)%nat) as HS.
  { subst S. rewrite !length_fmap, length_zip_with, !length_app, length_drop,
      length_take, !length_replicate. lia. }
  assert (length D = (length xi - 1)%nat) as HD.
  { subst D. rewrite length_zip_with, length_drop, length_take. lia. }
  unfold cs_binary.
  rewrite (is_scalar_many _ S), (is_scalar_many _ D) by lia.
  unfold size2. cbn [size1 columns]. rewrite HS, HD.
  rewrite bool_decide_eq_true_2 by done.
  rewrite bool_decide_eq_false_2 by lia.
  rewrite bool_decide_eq_true_2 by lia.
  rewrite !bool_decide_eq_false_2; [done| |].
  - rewrite Nat.mod_small; lia.
  - replace (length xi + d - 2)%nat with ((d - 1) + 1 * (length xi - 1))%nat by lia.
    rewrite Nat.Div0.mod_add, Nat.mod_small; lia.
Qed.

(** * Symbolic runs and their meaning *)

Section DerivativeParametricity.
Context {A B : Type} {SA : Scalar A} {SB : Scalar B} (R : A → B → Prop).
Hypothesis R_const : ∀ q, R (s_const q) (s_const q).
Hypothesis R_sub : ∀ a b a' b', R a b → R a' b' → R (s_sub a a') (s_sub b b').
Hypothesis R_mul : ∀ a b a' b', R a b → R a' b' → R (s_mul a a') (s_mul b b').
Hypothesis R_div : ∀ a b a' b', R a b → R a' b' → R (s_div a a') (s_div b b').

Lemma rel_getcols (M : matrix A) (M' : matrix B) (a : Z) (b : option Z) :
  matrix_rel R M M' → option_Forall2 (matrix_rel R) (getcols M a b) (getcols M' a b).
Proof.
  intros [H1 H2]. unfold getcols.
  eapply rel_bind; [by apply rel_getslice|]. intros cs cs' Hcs.
  constructor. by split.
Qed.

Lemma rel_bspline_derivative (c : matrix A) (c' : matrix B) xi xi' (d : Z) :
  matrix_rel R c c' → Forall2 R xi xi' →
  option_Forall2 (matrix_rel R) (bspline_derivative c xi d)
                                (bspline_derivative c' xi' d).
Proof.
  intros Hc Hxi. unfold bspline_derivative.
  eapply rel_bind; [by apply rel_getslice|]. intros up up' Hup.
  eapply rel_bind; [by apply rel_getitem|]. intros xl xl' Hxl.
  eapply rel_bind; [by apply rel_repmat_scalar|]. intros upad upad' Hupad.
  eapply rel_bind; [by apply rel_getitem|]. intros x0 x0' Hx0.
  eapply rel_bind; [by apply rel_repmat_scalar|]. intros lpad lpad' Hlpad.
  eapply rel_bind; [by apply rel_getslice|]. intros lo lo' Hlo.
  destruct Hc as [Hrows Hcols]. rewrite <-Hrows.
  eapply rel_bind.
  { apply rel_repmat_v. eapply rel_fmap.
    - intros x y Hxy. apply R_div; [apply R_const|exact Hxy].
    - eapply rel_zip_with; [exact R_sub| |]; by apply Forall2_app. }
  intros S S' HS.
  eapply rel_bind; [by apply rel_getcols|]. intros c1 c1' Hc1.
  eapply rel_bind; [by apply rel_getcols|]. intros c0 c0' Hc0.
  eapply rel_bind; [by apply rel_cs_binary|]. intros dc dc' Hdc.
  by apply rel_cs_binary.
Qed.

End DerivativeParametricity.

Section Denotation.
Variable ρ : nat → Qc.

Local Abbreviation means := (λ (e : expr) (q : Qc), denote ρ e = q).

Lemma means_list (l : list expr) (lq : list Qc) :
  Forall2 means l lq ↔ denote ρ <$> l = lq.
Proof.
  split.
  - induction 1 as [|e q l lq <- _ IH]; [done|]. by rewrite fmap_cons, IH.
  - intros <-. induction l; constructor; done.
Qed.

Lemma means_matrix (M : matrix expr) (Mq : matrix Qc) :
  matrix_rel means M Mq ↔ matrix_map (denote ρ) M = Mq.
Proof.
  unfold matrix_rel, matrix_map. split.
  - intros [H1 H2]. destruct Mq as [r cs]. simpl in *. f_equal; [done|].
    induction H2 as [|c cq l lq Hc _ IH]; [done|].
    rewrite fmap_cons, IH. f_equal. by apply means_list.
  - intros <-. simpl. split; [done|].
    induction (columns M); constructor; [by apply means_list|done].
Qed.

Lemma means_option {X Y} (P : X → Y → Prop) (f : X → Y) (m : option X) (m' : option Y) :
  (∀ x y, P x y ↔ f x = y) → option_Forall2 P m m' → m' = f <$> m.
Proof. intros Hf [x y Hxy|]; [|done]. simpl. f_equal. symmetry. by apply Hf. Qed.

End Denotation.



(** * The path-following example *)

Section PathFacts.
Local Open Scope Qc_scope.
Import PathFollowing.

Lemma Qcsquare_nonneg (x : Qc) : 0 ≤ x * x.
Proof.
  destruct (Qclt_le_dec x 0) as [Hneg|Hpos].
  - replace (x * x) with ((0 - x) * (0 - x)) by ring.
    assert (0 ≤ 0 - x) as Hx.
    { apply (Qcplus_le_mono_r _ _ x). replace (0 - x + x) with 0 by ring.
      rewrite Qcplus_0_l. by apply Qclt_le_weak. }
    by apply Qcmult_nonneg_nonneg.
  - by apply Qcmult_nonneg_nonneg.
Qed.

Lemma Qcle_minus_iff' (a b : Qc) : 0 ≤ b - a → a ≤ b.
Proof.
  intros Hab. apply (Qcplus_le_mono_r _ _ (0 - a)).
  replace (a + (0 - a)) with 0 by ring. by replace (b + (0 - a)) with (b - a) by ring.
Qed.

Lemma three_halves : Q2Qc (3 # 2) = (1 + 2) / 2.
Proof. apply Qc_is_canon. reflexivity. Qed.

Lemma one_half : Q2Qc (1 # 2) = 1 / 2.
Proof. apply Qc_is_canon. reflexivity. Qed.

End PathFacts.

(** X19. The desired path of the example is the straight line from
    [(0, 1.5)] to [(1.5, 0)], and every point of it is within reach of the
    arm: for [0 ≤ s ≤ L] the inverse kinematics takes the arc cosine of a
    number between [-7/16] and [1/8], well inside [[-1, 1]]. *)
Theorem desired_path_reachable (s : Qc) :
  (0 ≤ s)%Qc → (s ≤ PathFollowing.L)%Qc →
  ((PathFollowing.yd s).1 + (PathFollowing.yd s).2 = Q2Qc (3 # 2))%Qc ∧
  PathFollowing.yd 0 = (0%Qc, Q2Qc (3 # 2)) ∧
  PathFollowing.yd PathFollowing.L = (Q2Qc (3 # 2), 0%Qc) ∧
  (- Q2Qc (7 # 16) ≤ PathFollowing.chi_inv_c (PathFollowing.yd s))%Qc ∧
  (PathFollowing.chi_inv_c (PathFollowing.yd s) ≤ Q2Qc (1 # 8))%Qc.
Proof.
  intros Hs0 Hs1.
  unfold PathFollowing.chi_inv_c, PathFollowing.yd, PathFollowing.L,
    PathFollowing.l1, PathFollowing.l2 in *. cbn [fst snd].
  assert (Q2Qc (7 # 16) = (1 + 2 + 2 + 2) / (2 * 2 * 2 * 2))%Qc as ->
    by (apply Qc_is_canon; reflexivity).
  assert (Q2Qc (1 # 8) = 1 / (2 * 2 * 2))%Qc as -> by (apply Qc_is_canon; reflexivity).
  rewrite three_halves.
  split; [field; done|]. split; [f_equal; field; done|].
  split; [f_equal; field; done|]. split.
  - apply Qcle_minus_iff'.
    match goal with |- (0 ≤ ?t)%Qc =>
      replace t with ((1 + 2) / (2 * 2) * ((1 + 2) / (2 * 2))
                      * ((2 * s - 1) * (2 * s - 1)))%Qc by (field; done) end.
    apply Qcmult_nonneg_nonneg; [done|apply Qcsquare_nonneg].
  - apply Qcle_minus_iff'.
    match goal with |- (0 ≤ ?t)%Qc =>
      replace t with ((1 + 2) * (1 + 2) / (2 * 2) * (s * (1 - s)))%Qc
        by (field; done) end.
    apply Qcmult_nonneg_nonneg; [done|].
    apply Qcmult_nonneg_nonneg; [done|]. by apply Qcminus_nonneg.
Qed.

(** X20. The mass matrix of the example is symmetric and positive
    definite at every joint position: whatever the cosine of the elbow
    angle is, as long as it lies in [[-1, 1]], the leading entry and the
    determinant are positive (the determinant is [11/4 - cos² q2]). *)
Theorem mass_matrix_positive_definite (cos : Qc → Qc) (q : Qc * Qc) :
  (-1 ≤ cos q.2)%Qc → (cos q.2 ≤ 1)%Qc →
  let m := PathFollowing.M cos q in
  m.1.2 = m.2.1 ∧
  (0 < m.1.1)%Qc ∧
  (m.1.1 * m.2.2 - m.1.2 * m.2.1 = Q2Qc (11 # 4) - cos q.2 * cos q.2)%Qc ∧
  (0 < m.1.1 * m.2.2 - m.1.2 * m.2.1)%Qc.
Proof.
  intros Hlo Hhi m. subst m.
  unfold PathFollowing.M, PathFollowing.mu12, PathFollowing.mu22, PathFollowing.mu31,
    PathFollowing.mu32, PathFollowing.m1, PathFollowing.m2, PathFollowing.lc1,
    PathFollowing.lc2, PathFollowing.I1, PathFollowing.I2, PathFollowing.l1.
  cbn [fst snd]. set (c := cos q.2) in *.
  rewrite one_half.
  assert (Q2Qc (11 # 4) = 2 + (1 - 1 / (2 * 2)))%Qc as ->
    by (apply Qc_is_canon; reflexivity).
  assert (0 ≤ 1 + c)%Qc as H1.
  { apply (Qcplus_le_mono_r _ _ (-1)%Qc). by replace (1 + c + -1)%Qc with c by ring. }
  assert (0 ≤ 1 - c)%Qc as H2 by (by apply Qcminus_nonneg).
  split; [done|]. split; [|split].
  - match goal with |- (0 < ?t)%Qc =>
      replace t with ((1 + (1 - 1 / (2 * 2))) + 2 * (1 + c))%Qc by (field; done) end.
    apply Qcplus_pos_nonneg; [done|]. by apply Qcmult_nonneg_nonneg.
  - field. done.
  - match goal with |- (0 < ?t)%Qc =>
      replace t with ((1 + (1 - 1 / (2 * 2))) + (1 + c) * (1 - c))%Qc by (field; done) end.
    apply Qcplus_pos_nonneg; [done|]. by apply Qcmult_nonneg_nonneg.
Qed.

(** * The table, point by point *)

Section TablePoints.
Context {A : Type} `{Scalar A}.
Variables (xi : list A) (d s : nat).
Hypothesis Hd : (1 ≤ d)%nat.
Hypothesis Hn : (2 ≤ length xi)%nat.

Local Abbreviation n := (length xi).
Local Abbreviation knots := (pad d xi).
Local Abbreviation at_point :=
  (λ (i : nat) (x : A) (col : list A),
     eval_basis_knotindex_at x (Z.of_nat i) knots (Z.of_nat d) = Some col).

Lemma hcat_columns (Ms : list (matrix A)) (M : matrix A) :
  hcat Ms = Some M → columns M = mjoin (columns <$> Ms).
Proof.
  unfold hcat. destruct Ms as [|M0 Ms]; [by intros [= <-]|].
  destruct (forallb _ _); [|done]. by intros [= <-].
Qed.

(** One turn of the loop: the columns it appends are the recursion at
    the points it appends, from the seed of knot index [i]. *)
Lemma eval_on_knots_body_points (i : nat) (tau : list Qc)
    (basis : list (matrix A)) (k : list A) :
  (i < n)%nat → subsample_tau (Z.of_nat s) = Some tau →
  ∃ blocks,
    eval_on_knots_body xi knots (Z.of_nat d) (Z.of_nat s) tau (basis, k) (Z.of_nat i)
      = Some (basis ++ blocks, k ++ points_of_turn xi tau i) ∧
    Forall2 (at_point i) (points_of_turn xi tau i) (mjoin (columns <$> blocks)).
Proof.
  intros Hi Htau.
  assert (length tau = s) as Hlen.
  { rewrite subsample_tau_form in Htau. injection Htau as <-.
    by rewrite length_fmap, length_seq. }
  assert (length knots = (n + 2 * d)%nat) as Hk by (apply length_pad; lia).
  destruct (eval_basis_knotindex_form i n d knots Hk Hn Hd Hi)
    as (x & seed & Hx & Hseed & Hseedlen & Hwin & Hcol).
  destruct (lookup_lt_is_Some_2 xi i Hi) as [a Ha].
  assert (x = a) as ->.
  { rewrite lookup_pad in Hx by lia.
    replace ((i + d - d) `min` (n - 1))%nat with i in Hx by lia. congruence. }
  assert (∀ xj, at_point i xj (recursion_form knots n d xj seed)) as Hat.
  { intros xj. unfold eval_basis_knotindex_at, numel. rewrite Hk, Hseed.
    cbn [mbind option_bind]. apply cox_de_boor_form; (done || lia). }
  unfold eval_on_knots_body, points_of_turn. rewrite Hcol.
  cbn [mbind option_bind]. rewrite getitem_nat, Ha.
  cbn [mbind option_bind]. unfold numel. rewrite Hk.
  destruct (decide (i + 1 < n)%nat) as [Hnext|Hlast].
  - destruct (lookup_lt_is_Some_2 xi (S i)) as [b Hb]; [lia|]. rewrite Hb.
    destruct (decide (s = 0)%nat) as [->|Hs].
    + assert (tau = []) as -> by (by destruct tau).
      change (0 <? Z.of_nat 0) with false. cbn [andb].
      exists [colvec (recursion_form knots n d a seed)].
      split; [done|]. cbn. constructor; [apply Hat|constructor].
    + assert ((0 <? Z.of_nat s) && (Z.of_nat i <? Z.of_nat (n + 2 * d) - 2 * Z.of_nat d - 1)
              = true) as ->.
      { apply andb_true_iff. split; [apply Z.ltb_lt|apply Z.ltb_lt]; lia. }
      replace (Z.of_nat i + 1) with (Z.of_nat (S i)) by lia.
      rewrite getitem_nat, Hb. cbn [mbind option_bind].
      destruct (eval_basis_knotindex_subsampled_form i s n d knots Hk Hn Hd)
        as (k0 & k1 & tau' & Hk0 & Hk1 & Htau' & Hlen' & ->); [lia..|].
      assert (tau' = tau) as -> by congruence.
      assert (k0 = a) as ->.
      { rewrite lookup_pad in Hk0 by lia.
        replace ((i + d - d) `min` (n - 1))%nat with i in Hk0 by lia. congruence. }
      assert (k1 = b) as ->.
      { rewrite lookup_pad in Hk1 by lia.
        replace ((i + d + 1 - d) `min` (n - 1))%nat with (S i) in Hk1 by lia.
        congruence. }
      cbn [mbind option_bind].
      eexists [_; _]. split; [by rewrite <-!app_assoc|].
      cbn. rewrite app_nil_r. constructor; [apply Hat|].
      apply Forall2_fmap_r, Forall_Forall2_diag, Forall_true. intros xj.
      unfold compose.
      rewrite <-(recursion_form_window knots n d xj seed); [apply Hat|done..|].
      rewrite Hwin. symmetry. apply seed_pos_window. done.
  - rewrite (lookup_ge_None_2 xi (S i)) by lia.
    assert ((0 <? Z.of_nat s) && (Z.of_nat i <? Z.of_nat (n + 2 * d) - 2 * Z.of_nat d - 1)
            = false) as ->.
    { apply andb_false_iff. right. apply Z.ltb_ge. lia. }
    exists [colvec (recursion_form knots n d a seed)].
    split; [done|]. cbn. constructor; [apply Hat|constructor].
Qed.

(** The loop: turn [i] fills the positions [i (s + 1)], [i (s + 1) + 1],
    ... of the coordinate row and of the table. *)
Lemma eval_on_knots_loop_points (m : nat) (tau : list Qc) :
  (m ≤ n)%nat → subsample_tau (Z.of_nat s) = Some tau →
  ∃ basis,
    foldlM (eval_on_knots_body xi knots (Z.of_nat d) (Z.of_nat s) tau) ([], [])
      (Z.of_nat <$> seq 0 m)
      = Some (basis, seq 0 m ≫= points_of_turn xi tau) ∧
    length (mjoin (columns <$> basis)) = length (seq 0 m ≫= points_of_turn xi tau) ∧
    ∀ i r x, (i < m)%nat → points_of_turn xi tau i !! r = Some x →
      (seq 0 m ≫= points_of_turn xi tau) !! (i * (s + 1) + r)%nat = Some x ∧
      ∃ col, mjoin (columns <$> basis) !! (i * (s + 1) + r)%nat = Some col ∧
             at_point i x col.
Proof.
  intros Hm Htau.
  assert (length tau = s) as Hlen.
  { rewrite subsample_tau_form in Htau. injection Htau as <-.
    by rewrite length_fmap, length_seq. }
  induction m as [|m IH].
  { exists []. split; [done|]. split; [done|]. intros; lia. }
  destruct IH as (basis & Hloop & Hlenb & Hinv); [lia|].
  rewrite seq_S, fmap_app, foldlM_app, Hloop.
  cbn [mbind option_bind fmap list_fmap foldlM Nat.add].
  destruct (eval_on_knots_body_points m tau basis (seq 0 m ≫= points_of_turn xi tau))
    as (blocks & -> & Hbl); [lia|done|].
  cbn [mbind option_bind]. exists (basis ++ blocks).
  rewrite bind_app. cbn [mbind list_bind mjoin list_join fmap list_fmap].
  rewrite app_nil_r, fmap_app, join_app.
  split; [done|]. split.
  { rewrite !length_app, Hlenb. f_equal. symmetry. exact (Forall2_length Hbl). }
  pose proof (length_points xi d s Hd Hn m tau ltac:(lia) Hlen) as Hlk.
  replace (m `min` (n - 1))%nat with m in Hlk by lia.
  intros i r x Hi Hx.
  destruct (decide (i < m)%nat) as [Him|Him].
  - destruct (Hinv i r x Him Hx) as (Hk & col & Hc & Hat).
    split; [by apply lookup_app_l_Some|].
    exists col. split; [by apply lookup_app_l_Some|done].
  - assert (i = m) as -> by lia.
    replace (m * (s + 1) + r)%nat
      with (length (seq 0 m ≫= points_of_turn xi tau) + r)%nat by (rewrite Hlk; lia).
    split.
    + by rewrite lookup_app_r, Nat.add_sub' by lia.
    + destruct (Forall2_lookup_l _ _ _ _ _ Hbl Hx) as (col & Hc & Hat).
      exists col. split; [|done].
      rewrite <-Hlenb. by rewrite lookup_app_r, Nat.add_sub' by lia.
Qed.

End TablePoints.

(** The table before reduction: its coordinate row, its shape, and each of
    its columns as the recursion at the coordinate of that column. *)
Lemma eval_on_knots_raw_points {A : Type} `{Scalar A} (xi : list A) (d s : nat) :
  (1 ≤ d)%nat → (2 ≤ length xi)%nat →
  ∃ tau k M,
    subsample_tau (Z.of_nat s) = Some tau ∧ length tau = s ∧
    eval_on_knots_raw xi (Z.of_nat d) (Z.of_nat s) = Some (k, M) ∧
    k = seq 0 (length xi) ≫= points_of_turn xi tau ∧
    length k = (length xi + (length xi - 1) * s)%nat ∧
    size1 M = (length xi + d - 1)%nat ∧ size2 M = length k ∧ matrix_wf M ∧
    ∀ i r x, points_of_turn xi tau i !! r = Some x →
      k !! (i * (s + 1) + r)%nat = Some x ∧
      ∃ col, columns M !! (i * (s + 1) + r)%nat = Some col ∧
             eval_basis_knotindex_at x (Z.of_nat i) (pad d xi) (Z.of_nat d) = Some col.
Proof.
  intros Hd Hn.
  destruct (eval_on_knots_raw_form xi d s Hd Hn)
    as (tau & k & M & Htau & Hlen & Hraw & Hk & Hlk & H1 & H2 & Hwf).
  exists tau, k, M. do 8 (split; [done|]).
  destruct (eval_on_knots_loop_points xi d s Hd Hn (length xi) tau)
    as (basis & Hloop & _ & Hinv); [done..|].
  assert (columns M = mjoin (columns <$> basis)) as HM.
  { revert Hraw. unfold eval_on_knots_raw. rewrite clamped_knots_pad by lia.
    cbn [mbind option_bind]. rewrite Htau. cbn [mbind option_bind].
    unfold numel. rewrite length_pad by lia.
    assert (py_range 0 (Z.of_nat (length xi + 2 * d) - 2 * Z.of_nat d)
            = Z.of_nat <$> seq 0 (length xi)) as ->.
    { pose proof (py_range_nat 0 (length xi)) as E. rewrite <-E. f_equal; lia. }
    rewrite Hloop. cbn [mbind option_bind].
    destruct (hcat basis) as [M'|] eqn:Hcat; [|done]. cbn [mbind option_bind].
    intros [= _ <-]. by apply hcat_columns. }
  intros i r x Hx.
  assert (i < length xi)%nat as Hi.
  { apply lookup_lt_Some in Hx. unfold points_of_turn in Hx.
    destruct (decide (i < length xi)%nat); [done|].
    rewrite (lookup_ge_None_2 xi i) in Hx by lia. simpl in Hx. lia. }
  rewrite Hk, HM. by apply Hinv.
Qed.

(** * Partition of unity *)



(** * The seed and the passes of [eval_basis_knotindex] *)


(** * The derivative rule *)

Section DerivativeSpans.
Local Open Scope Qc_scope.

(** A knot span the rule divides by is positive. *)
Lemma derivative_span_pos (xi : list Qc) (d k : nat) :
  strictly_increasing xi → (2 ≤ length xi)%nat → (1 ≤ d)%nat →
  (k < length xi + d - 2)%nat →
  0 < at0 (pad (d - 1) xi) (k + d) - at0 (pad (d - 1) xi) k.
Proof.
  intros Hinc Hn Hd Hk. unfold at0. rewrite !lookup_pad by lia.
  destruct (lookup_lt_is_Some_2 xi ((k + d - (d - 1)) `min` (length xi - 1))%nat)
    as [b Hb]; [lia|].
  destruct (lookup_lt_is_Some_2 xi ((k - (d - 1)) `min` (length xi - 1))%nat)
    as [a Ha]; [lia|].
  rewrite Ha, Hb. simpl.
  assert (a < b) as Hab by (eapply Hinc; [|exact Ha|exact Hb]; lia).
  apply (Qcplus_lt_mono_r _ _ a).
  by replace (b - a + a) with b by ring; rewrite Qcplus_0_l.
Qed.
End DerivativeSpans.

(** C4, the claim as stated fails for [d ≥ 2]: with [n = 3] breakpoints
    and [n = 3] coefficient columns at degree 2 the operands of the final
    product have 3 and 2 columns, and the call raises. *)
Lemma bspline_derivative_n_columns_raises :
  bspline_derivative (Matrix 1 [[0]; [1]; [Q2Qc 3]])%Qc [0; 1; Q2Qc 2]%Qc 2 = None.
Proof. vm_compute. reflexivity. Qed.

(** C4, as amended. For degree [d ≥ 1], [n ≥ 2] strictly increasing
    breakpoints and a coefficient matrix with one row per dimension and
    [n + d - 1] columns (the coefficients of a degree-[d] spline on the
    clamped knots; these are [n] columns for [d = 1] only),
    [bspline_derivative] returns a matrix with the same rows and
    [n + d - 2] columns, the coefficients of a degree-[d-1] spline.
    [xi_padded] being [xi] with its first and its last entry repeated
    [d - 1] more times, the span [xi_padded[k+d] - xi_padded[k]] is
    positive, and the entry in column [k] is
    [(d / (xi_padded[k+d] - xi_padded[k])) * (c[k+1] - c[k])], computed in
    this order; in exact arithmetic this is
    [d (c[k+1] - c[k]) / (xi_padded[k+d] - xi_padded[k])]. Applied [d]
    times with degrees [d], [d - 1], ..., 1 the operator ends with the
    [n - 1] columns of degree 0. *)
Theorem bspline_derivative_rule (c : matrix Qc) (xi : list Qc) (d : nat) :
  matrix_wf c → (1 ≤ d)%nat → (2 ≤ length xi)%nat → strictly_increasing xi →
  size2 c = (length xi + d - 1)%nat →
  ∃ c',
    bspline_derivative c xi (Z.of_nat d) = Some c' ∧
    matrix_wf c' ∧ size1 c' = size1 c ∧ size2 c' = (length xi + d - 2)%nat ∧
    (∀ i k, (i < size1 c)%nat → (k < length xi + d - 2)%nat →
       ∃ x_lo x_hi c_lo c_hi,
         pad (d - 1) xi !! k = Some x_lo ∧
         pad (d - 1) xi !! (k + d)%nat = Some x_hi ∧
         (x_lo < x_hi)%Qc ∧
         entry c i k = Some c_lo ∧ entry c i (k + 1) = Some c_hi ∧
         entry c' i k
           = Some (Qc_of_Z (Z.of_nat d) / (x_hi - x_lo) * (c_hi - c_lo))%Qc ∧
         (Qc_of_Z (Z.of_nat d) / (x_hi - x_lo) * (c_hi - c_lo)
          = Qc_of_Z (Z.of_nat d) * (c_hi - c_lo) / (x_hi - x_lo))%Qc) ∧
    ∃ c0, bspline_derivatives c xi d = Some c0 ∧
          size1 c0 = size1 c ∧ size2 c0 = (length xi - 1)%nat.
Proof.
  intros Hwf Hd Hn Hinc Hc.
  assert (1 ≤ length xi)%nat as Hn1 by lia.
  destruct (bspline_derivative_shape c xi d Hwf Hd Hn1 Hc) as (c' & Hc' & Hwf' & H1 & H2).
  exists c'. split; [done|]. split; [done|]. split; [done|]. split; [done|].
  split; [|by apply bspline_derivatives_shape].
  intros i k Hi Hk.
  rewrite bspline_derivative_form in Hc' by done. injection Hc' as <-.
  unfold size2 in Hc.
  destruct (lookup_lt_is_Some_2 (pad (d - 1) xi) k) as [x_lo Hlo];
    [rewrite length_pad by done; lia|].
  destruct (lookup_lt_is_Some_2 (pad (d - 1) xi) (k + d)) as [x_hi Hhi];
    [rewrite length_pad by done; lia|].
  destruct (lookup_lt_is_Some_2 (columns c) k) as [col0 Hcol0]; [lia|].
  destruct (lookup_lt_is_Some_2 (columns c) (k + 1)) as [col1 Hcol1]; [lia|].
  pose proof (Forall_lookup_1 _ _ _ _ Hwf Hcol0) as Hl0.
  pose proof (Forall_lookup_1 _ _ _ _ Hwf Hcol1) as Hl1. simpl in Hl0, Hl1.
  destruct (lookup_lt_is_Some_2 col0 i) as [c_lo Hclo]; [lia|].
  destruct (lookup_lt_is_Some_2 col1 i) as [c_hi Hchi]; [lia|].
  exists x_lo, x_hi, c_lo, c_hi. split; [done|]. split; [done|].
  split.
  { pose proof (derivative_span_pos xi d k Hinc Hn Hd Hk) as Hpos.
    unfold at0 in Hpos. rewrite Hlo, Hhi in Hpos. simpl in Hpos.
    by apply Qclt_minus_iff. }
  unfold entry. rewrite Hcol0, Hcol1. cbn [mbind option_bind].
  split; [done|]. split; [done|]. split; [|unfold Qcdiv; ring].
  cbn [columns]. rewrite !lookup_zip_with. unfold derivative_scale.
  rewrite list_lookup_fmap, lookup_seq_lt by done.
  cbn [fmap option_fmap option_map mbind option_bind]. change (0 + k)%nat with k.
  unfold size2. rewrite lookup_drop, lookup_take_lt by lia.
  replace (1 + k)%nat with (k + 1)%nat by lia. rewrite Hcol1, Hcol0.
  cbn [mbind option_bind].
  rewrite list_lookup_fmap, lookup_zip_with, Hchi, Hclo.
  cbn [fmap option_fmap option_map mbind option_bind].
  rewrite Hlo, Hhi. cbn [default]. cbv [id]. done.
Qed.

Local Open Scope Z_scope.

(** * The orchestrator: transcribe once, solve many times *)

Section OrchestratorFacts.
Context {Constr Strategy Kwargs Opti Sol Err : Type}.
Variable Stage_init : @OcpMultiStage Strategy Opti → Kwargs → @Stage Constr Strategy Opti.
Variable transcribe :
  Strategy → @Stage Constr Strategy Opti → Opti → Opti * option Err.
Variable opti_solve : Opti → Sol + Err.

Local Abbreviation World := (@world Constr Strategy Opti).
Local Abbreviation tloop := (transcribe_loop (Err:=Err) transcribe).
Local Abbreviation tstage := (transcribe_stage (Err:=Err) transcribe).
Local Abbreviation Solve := (solve (Sol:=Sol) transcribe opti_solve).
Local Abbreviation NewStage := (stage (Kwargs:=Kwargs) (Err:=Err) Stage_init).

(** What one call to [transcribe] does to the world. *)
Lemma transcribe_stage_spec (s : loc) (w : World) :
  match heap w !! s, _method (ocp w) with
  | Some st, Some m =>
    let r := transcribe (strategy (stage_method st)) st (opti m) in
    tstage s w =
      (match r.2 with None => Normal tt | Some e => Raised (TranscribeError e) end,
       mkWorld (heap w)
         (mkOcpMultiStage (stages (ocp w)) (is_transcribed (ocp w))
            (Some (mkMethod (strategy m) r.1)))
         (trace w ++ [s]))
  | Some _, None => tstage s w = (Raised AttributeError, w)
  | None, _ => tstage s w = (Raised DanglingReference, w)
  end.
Proof.
  unfold transcribe_stage. destruct w as [h [ss tr m] t]; simpl.
  destruct (h !! s) as [st|] eqn:Hs; [destruct m as [m|]|];
    unfold bind, deref, get_method, get_ocp, ret, raise; simpl; rewrite Hs; simpl;
    try reflexivity.
  unfold log_transcribe, put_opti, put_ocp, bind, get_ocp, get_method, ret; simpl.
  destruct (transcribe _ st (opti m)) as [op [e|]]; reflexivity.
Qed.

(** The loop never touches the stage objects, the stage list or the
    flag, and it keeps a bound method bound. *)
Lemma transcribe_loop_frame (ss : list loc) (w : World) :
  let w' := (tloop ss w).2 in
  heap w' = heap w ∧ stages (ocp w') = stages (ocp w) ∧
  is_transcribed (ocp w') = is_transcribed (ocp w) ∧
  (strategy <$> _method (ocp w')) = (strategy <$> _method (ocp w)).
Proof.
  revert w. induction ss as [|s ss IH]; intros w; simpl; [done|].
  unfold bind. pose proof (transcribe_stage_spec s w) as Hs.
  destruct w as [h [sl tr om] t]; simpl in *.
  destruct (h !! s) as [st|]; [destruct om as [m|]|];
    rewrite Hs; simpl; try done.
  destruct (transcribe _ st (opti m)) as [op [e|]]; simpl; [done|].
  specialize (IH (mkWorld h
    (mkOcpMultiStage sl tr (Some (mkMethod (strategy m) op))) (t ++ [s]))).
  simpl in IH. by destruct IH as (-> & -> & -> & ->).
Qed.

(** A loop that completes has called [transcribe] on every stage of the
    list, once each, from left to right, threading the context. *)
Lemma transcribe_loop_complete (ss : list loc) (w : World) :
  (tloop ss w).1 = Normal tt →
  let w' := (tloop ss w).2 in
  trace w' = trace w ++ ss ∧
  ocp_opti w' = transcribe_all transcribe (heap w) ss <$> ocp_opti w.
Proof.
  revert w. induction ss as [|s ss IH]; intros w; simpl.
  { intros _. rewrite app_nil_r. split; [done|].
    unfold ocp_opti. by destruct (_method (ocp w)). }
  unfold bind. pose proof (transcribe_stage_spec s w) as Hs.
  destruct w as [h [sl tr om] t]; simpl in *.
  destruct (h !! s) as [st|] eqn:Hst; [destruct om as [m|]|];
    rewrite Hs; simpl; try done.
  destruct (transcribe _ st (opti m)) as [op [e|]] eqn:Ht; simpl; [done|].
  intros Hok. apply IH in Hok. simpl in Hok. destruct Hok as [-> Hop].
  split; [by rewrite <-app_assoc|].
  rewrite Hop. unfold ocp_opti; simpl. by rewrite Hst, Ht.
Qed.

(** A loop that raises stops at the stage that raised: the calls made
    are a prefix of the stage list. *)
Lemma transcribe_loop_prefix (ss : list loc) (w : World) :
  ∃ k, trace (tloop ss w).2 = trace w ++ take k ss.
Proof.
  revert w. induction ss as [|s ss IH]; intros w; simpl.
  { exists 0%nat. by rewrite app_nil_r. }
  unfold bind. pose proof (transcribe_stage_spec s w) as Hs.
  destruct w as [h [sl tr om] t]; simpl in *.
  destruct (h !! s) as [st|]; [destruct om as [m|]|]; rewrite Hs; simpl;
    try (exists 0%nat; by rewrite app_nil_r).
  destruct (transcribe _ st (opti m)) as [op [e|]]; simpl.
  { by exists 1%nat. }
  edestruct IH as [k Hk]. rewrite Hk. simpl.
  exists (S k). by rewrite <-app_assoc.
Qed.

(** [solve] on a transcribed orchestrator only calls the solver. *)
Lemma solve_transcribed (w : World) (m : Method) :
  is_transcribed (ocp w) = true → _method (ocp w) = Some m →
  Solve w =
    (match opti_solve (opti m) with
     | inl r => Normal (mkOcpxSolution r)
     | inr e => Raised (SolverError e)
     end, w).
Proof.
  destruct w as [h [sl tr om] t]; simpl. intros -> ->.
  unfold solve, bind, get_method, get_ocp, ret, raise; simpl.
  by destruct (opti_solve (opti m)).
Qed.

Lemma solve_transcribed_world (w : World) :
  is_transcribed (ocp w) = true → (Solve w).2 = w.
Proof.
  intros Ht. destruct (_method (ocp w)) as [m|] eqn:Hm.
  - by rewrite (solve_transcribed w m).
  - destruct w as [h [sl tr om] t]; simpl in *. by subst.
Qed.

(** [solve] on an orchestrator that is not transcribed yet, when the
    loop completes. *)
Lemma solve_first (w : World) (m : Method) :
  is_transcribed (ocp w) = false → _method (ocp w) = Some m →
  (tloop (stages (ocp w)) w).1 = Normal tt →
  let w' := (tloop (stages (ocp w)) w).2 in
  ∃ m', _method (ocp w') = Some m' ∧
    Solve w =
      (match opti_solve (opti m') with
       | inl r => Normal (mkOcpxSolution r)
       | inr e => Raised (SolverError e)
       end, mkWorld (heap w') (mkOcpMultiStage (stages (ocp w')) true (Some m')) (trace w')).
Proof.
  intros Ht Hm Hok w'.
  pose proof (transcribe_loop_frame (stages (ocp w)) w) as (_ & _ & _ & Hstr).
  fold w' in Hstr. rewrite Hm in Hstr. simpl in Hstr.
  destruct (_method (ocp w')) as [m'|] eqn:Hm'; [|done].
  exists m'. split; [done|]. subst w'.
  destruct w as [h [sl tr om] t]; simpl in *. subst.
  unfold solve, bind, get_method, get_ocp, ret, raise, put_ocp; simpl.
  destruct (tloop sl _) as [r w''] eqn:Hl. simpl in *. subst r.
  rewrite Hm'. unfold bind; simpl. by destruct (opti_solve (opti m')).
Qed.

(** [solve], case by case. *)
Lemma solve_unfold (w : World) :
  Solve w =
    match _method (ocp w) with
    | None => (Raised AttributeError, w)
    | Some m =>
      let finish (w' : World) :=
        match _method (ocp w') with
        | None => (Raised AttributeError, w')
        | Some m' =>
          (match opti_solve (opti m') with
           | inl r => Normal (mkOcpxSolution r)
           | inr e => Raised (SolverError e)
           end, w')
        end in
      if is_transcribed (ocp w) then finish w
      else match tloop (stages (ocp w)) w with
           | (Normal _, w') =>
             finish (mkWorld (heap w') (mkOcpMultiStage (stages (ocp w')) true
                                          (_method (ocp w'))) (trace w'))
           | (Raised e, w') => (Raised e, w')
           end
    end.
Proof.
  destruct w as [h [sl tr om] t]; simpl.
  unfold solve, bind, get_method, get_ocp, ret, raise, put_ocp; simpl.
  destruct om as [m|]; simpl; [|done].
  destruct tr; simpl.
  - by destruct (opti_solve (opti m)).
  - destruct (tloop sl _) as [[[]|e] w']; simpl; [|done].
    destruct (_method (ocp w')) as [m'|]; simpl; [|done].
    by destruct (opti_solve (opti m')).
Qed.

(** A call to [solve] that returns a solution leaves the orchestrator
    transcribed. *)
Lemma solve_normal_transcribed (w : World) (r : OcpxSolution) :
  (Solve w).1 = Normal r → is_transcribed (ocp (Solve w).2) = true.
Proof.
  rewrite solve_unfold. destruct (_method (ocp w)) as [m|]; simpl; [|done].
  destruct (is_transcribed (ocp w)) eqn:Ht.
  - destruct (_method (ocp w)); simpl; [|done]. by rewrite Ht.
  - destruct (tloop _ w) as [[[]|e] w']; simpl; [|done].
    by destruct (_method (ocp w')).
Qed.

(** [stage] registers the new object and nothing else: no call to
    [transcribe], no change of the solver context or of the flag. *)
Lemma stage_frame (p : option loc) (kw : Kwargs) (w : World) :
  let res := NewStage p kw w in
  trace res.2 = trace w ∧ ocp_opti res.2 = ocp_opti w ∧
  is_transcribed (ocp res.2) = is_transcribed (ocp w) ∧
  match res.1 with
  | Normal s => stages (ocp res.2) = stages (ocp w) ++ [s]
  | Raised _ => res.2 = w
  end.
Proof.
  destruct w as [h [sl tr om] t].
  unfold stage, bind, deepcopy, deref, alloc, get_ocp, put_ocp, ret; simpl.
  destruct p as [p|]; simpl; [|done].
  unfold bind, deref; simpl. by destruct (h !! p).
Qed.

Lemma run_calls_transcribed (cs : list call) (w : World) :
  is_transcribed (ocp w) = true →
  let w' := run_calls Stage_init transcribe opti_solve cs w in
  trace w' = trace w ∧ ocp_opti w' = ocp_opti w ∧
  is_transcribed (ocp w') = true ∧ stages (ocp w) `prefix_of` stages (ocp w').
Proof.
  revert w. induction cs as [|c cs IH]; intros w Ht; simpl; [done|].
  assert (let w1 := run_call Stage_init transcribe opti_solve c w in
          trace w1 = trace w ∧ ocp_opti w1 = ocp_opti w ∧
          is_transcribed (ocp w1) = true ∧
          stages (ocp w) `prefix_of` stages (ocp w1)) as (Htr & Hop & Ht1 & Hst).
  { destruct c as [p kw|]; simpl.
    - pose proof (stage_frame p kw w) as (? & ? & Hf & Hs). simpl in *.
      repeat split; [done|done|congruence|].
      destruct (NewStage p kw w).1; [rewrite Hs; by apply prefix_app_r|by rewrite Hs].
    - by rewrite solve_transcribed_world. }
  destruct (IH _ Ht1) as (-> & -> & -> & Hpre).
  repeat split; [done..|]. by etrans.
Qed.

(** ** Properties of the orchestrator *)

(** C1. On an orchestrator with a bound method that is not transcribed
    yet, and whose stages the method can transcribe, the first [solve]
    calls [transcribe] once per stage, in registration order, each stage
    into the context left by the previous one, and sets the flag; the
    second [solve] changes nothing at all (no call to [transcribe], same
    solver context, hence the same registered decision variables) and
    returns the same result as the first. *)
Theorem solve_transcribes_once (w : World) (m : Method) :
  _method (ocp w) = Some m →
  is_transcribed (ocp w) = false →
  (tloop (stages (ocp w)) w).1 = Normal tt →
  let first := Solve w in
  let second := Solve first.2 in
  trace first.2 = trace w ++ stages (ocp w) ∧
  ocp_opti first.2 =
    Some (transcribe_all transcribe (heap w) (stages (ocp w)) (opti m)) ∧
  is_transcribed (ocp first.2) = true ∧
  second.2 = first.2 ∧
  trace second.2 = trace w ++ stages (ocp w) ∧
  ocp_opti second.2 = ocp_opti first.2 ∧
  second.1 = first.1.
Proof.
  intros Hm Ht Hok first second.
  destruct (solve_first w m Ht Hm Hok) as (m' & Hm' & Hs).
  destruct (transcribe_loop_complete _ _ Hok) as [Htrace Hopti].
  unfold ocp_opti in Hopti. rewrite Hm', Hm in Hopti. simpl in Hopti.
  subst second first. rewrite Hs. simpl.
  rewrite (solve_transcribed _ m') by done. simpl.
  unfold ocp_opti; simpl. by repeat split.
Qed.

(** C6. When [solve] surfaces an error raised by [transcribe], the flag
    is still false and the stage list is as before; once the caller has
    repaired the stage objects so that the loop goes through, the next
    [solve] transcribes every stage again, from the first one on, and
    sets the flag. *)
Theorem solve_failed_transcription_retry (w : World) (e : Err) :
  (Solve w).1 = Raised (TranscribeError e) →
  let w1 := (Solve w).2 in
  is_transcribed (ocp w) = false ∧
  is_transcribed (ocp w1) = false ∧
  stages (ocp w1) = stages (ocp w) ∧
  ∀ h', (tloop (stages (ocp w1)) (with_heap h' w1)).1 = Normal tt →
        let w2 := (Solve (with_heap h' w1)).2 in
        trace w2 = trace w1 ++ stages (ocp w) ∧
        is_transcribed (ocp w2) = true.
Proof.
  intros Hraise w1.
  assert (is_transcribed (ocp w) = false ∧ w1 = (tloop (stages (ocp w)) w).2 ∧
          is_Some (_method (ocp w))) as (Ht & Hw1 & [m Hm]).
  { subst w1. revert Hraise. rewrite solve_unfold.
    destruct (_method (ocp w)) as [m|] eqn:Hm; simpl; [|done].
    destruct (is_transcribed (ocp w)) eqn:Ht.
    - rewrite Hm. by destruct (opti_solve (opti m)).
    - destruct (tloop (stages (ocp w)) w) as [[[]|e'] w']; simpl.
      + destruct (_method (ocp w')) as [m'|]; simpl; [|done].
        by destruct (opti_solve (opti m')).
      + eauto. }
  pose proof (transcribe_loop_frame (stages (ocp w)) w) as (Hh & Hs & Hf & Hstr).
  rewrite <-Hw1 in Hh, Hs, Hf, Hstr.
  split; [done|]. split; [congruence|]. split; [done|].
  intros h' Hok w2.
  rewrite Hm in Hstr. destruct (_method (ocp w1)) as [m'|] eqn:Hm'; [|done].
  destruct (solve_first (with_heap h' w1) m') as (m2 & Hm2 & Hsol);
    [simpl; congruence|done|done|].
  pose proof (transcribe_loop_complete _ _ Hok) as [Hc _]. simpl in Hc.
  subst w2. rewrite Hsol; simpl. split; [|done]. by rewrite Hc, Hs.
Qed.

(** C10. After a [solve] that returned a solution, whatever stages are
    registered and however often [solve] is called again, [transcribe] is
    never called and the solver context stays as it is; in particular a
    stage registered afterwards is in the stage list, and the next
    [solve] neither transcribes it nor changes the context that is
    solved. *)
Theorem stage_after_solve_never_transcribed (w : World) (r : OcpxSolution)
    (cs : list call) :
  (Solve w).1 = Normal r →
  let w1 := (Solve w).2 in
  let w2 := run_calls Stage_init transcribe opti_solve cs w1 in
  trace w2 = trace w1 ∧ ocp_opti w2 = ocp_opti w1 ∧
  is_transcribed (ocp w2) = true ∧
  ∀ p kw s, (NewStage p kw w2).1 = Normal s →
    let w3 := (NewStage p kw w2).2 in
    s ∈ stages (ocp w3) ∧
    trace (Solve w3).2 = trace w1 ∧
    ocp_opti (Solve w3).2 = ocp_opti w1.
Proof.
  intros Hr w1 w2. apply solve_normal_transcribed in Hr. fold w1 in Hr.
  destruct (run_calls_transcribed cs w1 Hr) as (Htr & Hop & Ht & _). fold w2 in Htr, Hop, Ht.
  repeat split; [done..| | |]; intros;
    pose proof (stage_frame p kw w2) as (Htr3 & Hop3 & Ht3 & Hs3); simpl in *.
  - rewrite H in Hs3. rewrite Hs3. set_solver.
  - rewrite solve_transcribed_world; congruence.
  - rewrite solve_transcribed_world; congruence.
Qed.

(** C5. [stage(prev_stage=s)] returns a new object, distinct from [s],
    holding a copy of the value of [s], and registers it; adding a
    constraint to the copy leaves [s] as it was (so its number of
    constraints is the same), and adding one to [s] leaves the copy as
    it was. *)
Theorem stage_deepcopy_independent (w : World) (s : loc) (st : Stage)
    (kw : Kwargs) :
  heap w !! s = Some st →
  ∃ s' w',
    NewStage (Some s) kw w = (Normal s', w') ∧
    s' ≠ s ∧
    heap w' !! s' = Some st ∧ heap w' !! s = Some st ∧
    stages (ocp w') = stages (ocp w) ++ [s'] ∧
    ∀ c a,
      let mutated (x : loc) := heap (subject_to (Err:=Err) x c a w').2 in
      mutated s' !! s = Some st ∧
      (length ∘ stage_constraints <$> mutated s' !! s') =
        Some (S (length (stage_constraints st))) ∧
      mutated s !! s' = Some st ∧
      (length ∘ stage_constraints <$> mutated s !! s) =
        Some (S (length (stage_constraints st))).
Proof.
  intros Hs. set (s' := fresh (dom (heap w))).
  assert (s' ≠ s) as Hne.
  { intros Heq. apply (is_fresh (dom (heap w))). fold s'. rewrite Heq.
    apply elem_of_dom. eauto. }
  exists s', (mkWorld (<[s' := st]> (heap w))
               (mkOcpMultiStage (stages (ocp w) ++ [s']) (is_transcribed (ocp w))
                  (_method (ocp w))) (trace w)).
  split.
  { destruct w as [h [sl tr om] t]; simpl in *.
    unfold stage, deepcopy. unfold bind at 2. unfold deref, bind; simpl.
    by rewrite Hs. }
  simpl. rewrite lookup_insert_eq, lookup_insert_ne by done.
  repeat split; [done..| | | |]; unfold subject_to; simpl.
  - rewrite lookup_insert_eq; simpl. by rewrite lookup_insert_ne, lookup_insert_ne.
  - rewrite lookup_insert_eq; simpl. rewrite lookup_insert_eq; simpl.
    rewrite length_app; simpl. f_equal; lia.
  - rewrite lookup_insert_ne, Hs by done; simpl.
    by rewrite lookup_insert_ne, lookup_insert_eq.
  - rewrite lookup_insert_ne, Hs by done; simpl.
    rewrite lookup_insert_eq; simpl. rewrite length_app; simpl. f_equal; lia.
Qed.

(** ** Further properties of the orchestrator *)

(** [stage] leaves the bound method, or its absence, as it is. *)
Lemma stage_method_frame (p : option loc) (kw : Kwargs) (w : World) :
  _method (ocp (NewStage p kw w).2) = _method (ocp w).
Proof.
  destruct w as [h [sl tr om] t].
  unfold stage, bind, deepcopy, deref, alloc, get_ocp, put_ocp, ret; simpl.
  destruct p as [p|]; simpl; [|done].
  unfold bind, deref; simpl. by destruct (h !! p).
Qed.

(** The loop raises no solver error. *)
Lemma transcribe_loop_raises (ss : list loc) (w : World) (x : exn) :
  (tloop ss w).1 = Raised x →
  x = AttributeError ∨ x = DanglingReference ∨ ∃ e, x = TranscribeError e.
Proof.
  revert w. induction ss as [|s ss IH]; intros w; simpl; [done|].
  unfold bind. pose proof (transcribe_stage_spec s w) as Hs.
  destruct w as [h [sl tr om] t]; simpl in *.
  destruct (h !! s) as [st|]; [destruct om as [m|]|]; rewrite Hs; simpl;
    [|intros [= <-]; auto..].
  destruct (transcribe _ st (opti m)) as [op [e|]]; simpl.
  - intros [= <-]. eauto.
  - apply IH.
Qed.

(** A loop that raises a transcription error, in detail: the stage at
    some position [k] raised, on the context the stages before it had
    left; the stages up to it have been handed to [transcribe], no later
    one has; the context is as the failing call left it. *)
Lemma transcribe_loop_raised (ss : list loc) (w : World) (e : Err) :
  (tloop ss w).1 = Raised (TranscribeError e) →
  ∃ k s st m,
    ss !! k = Some s ∧ heap w !! s = Some st ∧ _method (ocp w) = Some m ∧
    let r := transcribe (strategy (stage_method st)) st
               (transcribe_all transcribe (heap w) (take k ss) (opti m)) in
    r.2 = Some e ∧
    trace (tloop ss w).2 = trace w ++ take (S k) ss ∧
    ocp_opti (tloop ss w).2 = Some r.1 ∧
    is_transcribed (ocp (tloop ss w).2) = is_transcribed (ocp w).
Proof.
  revert w. induction ss as [|s ss IH]; intros w; simpl; [done|].
  unfold bind. pose proof (transcribe_stage_spec s w) as Hs.
  destruct w as [h [sl tr om] t]; simpl in *.
  destruct (h !! s) as [st|] eqn:Hst; [destruct om as [m|]|]; rewrite Hs; simpl;
    try done.
  destruct (transcribe _ st (opti m)) as [op [e'|]] eqn:Ht; simpl.
  - intros [= ->]. exists 0%nat, s, st, m. simpl. rewrite Ht. simpl.
    by rewrite take_0.
  - intros Hr. destruct (IH _ Hr) as (k & s' & st' & m' & Hk & Hs' & Hm' & IH').
    simpl in Hs', Hm'. injection Hm' as <-. simpl in IH'.
    exists (S k), s', st', m. simpl. rewrite Hst, Ht. simpl.
    destruct IH' as (? & -> & ? & ?). repeat split; try done.
    by rewrite <-app_assoc.
Qed.

(** X1. As long as no method is bound (as after [__init__]), whatever
    stages are registered, [solve] raises [AttributeError] at its first
    line: no stage is handed to [transcribe] and nothing is changed. *)
Theorem solve_without_method_raises (w : World) (cs : list call) :
  _method (ocp w) = None →
  let w' := run_calls Stage_init transcribe opti_solve cs w in
  _method (ocp w') = None ∧ trace w' = trace w ∧
  is_transcribed (ocp w') = is_transcribed (ocp w) ∧
  Solve w' = (Raised AttributeError, w').
Proof.
  revert w. induction cs as [|c cs IH]; intros w Hm; simpl.
  { repeat split; [done|]. rewrite solve_unfold. by rewrite Hm. }
  assert (let w1 := run_call Stage_init transcribe opti_solve c w in
          _method (ocp w1) = None ∧ trace w1 = trace w ∧
          is_transcribed (ocp w1) = is_transcribed (ocp w)) as (Hm1 & Ht1 & Hf1).
  { destruct c as [p kw|]; simpl.
    - rewrite stage_method_frame.
      pose proof (stage_frame p kw w) as (? & _ & ? & _). done.
    - rewrite solve_unfold, Hm. done. }
  destruct (IH _ Hm1) as (? & ? & ? & ?). repeat split; congruence.
Qed.

(** X2. When the solver raises, the flag is set all the same: the stages
    were transcribed before the solver was called (the context holds all
    of them), and the next [solve] transcribes nothing, calls the solver
    on the same context and raises the same error. *)
Theorem solve_solver_error_keeps_transcription (w : World) (e : Err) :
  (solve transcribe opti_solve w).1 = Raised (SolverError e) →
  let w1 := (solve transcribe opti_solve w).2 in
  is_transcribed (ocp w1) = true ∧
  (is_transcribed (ocp w) = false →
     trace w1 = trace w ++ stages (ocp w) ∧
     ocp_opti w1 = transcribe_all transcribe (heap w) (stages (ocp w)) <$> ocp_opti w) ∧
  solve transcribe opti_solve w1 = (Raised (SolverError e), w1).
Proof.
  intros Hr w1. subst w1. rewrite solve_unfold in Hr |- *.
  destruct (_method (ocp w)) as [m|] eqn:Hm; [|done].
  destruct (is_transcribed (ocp w)) eqn:Ht; simpl in *.
  - rewrite Hm in Hr |- *. simpl in *.
    destruct (opti_solve (opti m)) as [r|e'] eqn:Hsol; [done|].
    injection Hr as ->. repeat split; [done..|].
    by rewrite (solve_transcribed w m), Hsol.
  - pose proof (transcribe_loop_complete (stages (ocp w)) w) as Hc.
    pose proof (transcribe_loop_frame (stages (ocp w)) w) as (_ & Hst & _).
    pose proof (transcribe_loop_raises (stages (ocp w)) w) as Hx.
    destruct (tloop (stages (ocp w)) w) as [[[]|x] w'] eqn:Hl; simpl in *.
    + destruct (_method (ocp w')) as [m'|] eqn:Hm'; simpl in *; [|done].
      destruct (opti_solve (opti m')) as [r|e'] eqn:Hsol; [done|].
      injection Hr as ->. destruct Hc as [Htr Hop]; [done|].
      split; [done|]. split.
      * intros _. split; [done|]. rewrite <-Hop. unfold ocp_opti. simpl.
        by rewrite Hm'.
      * by rewrite (solve_transcribed _ m'), Hsol.
    + injection Hr as ->.
      destruct (Hx _ eq_refl) as [|[|[? ?]]]; done.
Qed.

(** X3. When [transcribe] raises for a stage, [solve] stops there: the
    stages before it and the failing one have been handed to
    [transcribe], in order, no later stage has; the solver context is as
    the failing call left it, on top of the stages before; the error is
    the one [transcribe] raised, and the flag is not set. *)
Theorem solve_transcription_error_stops (w : World) (e : Err) :
  (Solve w).1 = Raised (TranscribeError e) →
  let w1 := (Solve w).2 in
  ∃ k s st m,
    stages (ocp w) !! k = Some s ∧ heap w !! s = Some st ∧
    _method (ocp w) = Some m ∧
    let r := transcribe (strategy (stage_method st)) st
               (transcribe_all transcribe (heap w) (take k (stages (ocp w))) (opti m)) in
    r.2 = Some e ∧
    trace w1 = trace w ++ take (S k) (stages (ocp w)) ∧
    ocp_opti w1 = Some r.1 ∧
    is_transcribed (ocp w1) = false.
Proof.
  intros Hr w1. subst w1. rewrite solve_unfold in Hr |- *.
  destruct (_method (ocp w)) as [m|] eqn:Hm; [|done].
  destruct (is_transcribed (ocp w)) eqn:Ht; simpl in *.
  { rewrite Hm in Hr. simpl in Hr. by destruct (opti_solve (opti m)). }
  pose proof (transcribe_loop_raised (stages (ocp w)) w e) as Hl.
  destruct (tloop (stages (ocp w)) w) as [[[]|x] w'] eqn:Hloop; simpl in *.
  - destruct (_method (ocp w')); simpl in Hr; [|done].
    by destruct (opti_solve _).
  - injection Hr as ->.
    destruct (Hl eq_refl) as (k & s & st & m' & Hk & Hs & Hm' & H1 & H2 & H3 & H4).
    rewrite Hm in Hm'. injection Hm' as <-.
    exists k, s, st, m. repeat split; try done. congruence.
Qed.

(** X4. A method bound after the stages were transcribed is solved as it
    is: [method] replaces the bound method and resets nothing, so the
    next [solve] hands no stage to [transcribe] and calls the solver on
    the context of the new method. *)
Theorem method_after_transcription_not_transcribed (w : World) (m' : Method) :
  is_transcribed (ocp w) = true →
  let w' := (method (Err:=Err) m' w).2 in
  _method (ocp w') = Some m' ∧ stages (ocp w') = stages (ocp w) ∧
  heap w' = heap w ∧
  Solve w' =
    (match opti_solve (opti m') with
     | inl r => Normal (mkOcpxSolution r)
     | inr e => Raised (SolverError e)
     end, w') ∧
  trace (Solve w').2 = trace w.
Proof.
  intros Ht w'.
  assert (_method (ocp w') = Some m' ∧ stages (ocp w') = stages (ocp w) ∧
          heap w' = heap w ∧ is_transcribed (ocp w') = true ∧ trace w' = trace w)
    as (Hm & Hs & Hh & Ht' & Htr).
  { subst w'. by destruct w as [h [sl tr om] t]. }
  repeat split; [done..| |].
  - by apply solve_transcribed.
  - by rewrite (solve_transcribed w' m').
Qed.

(** X6. A solution that [solve] returns is what the solver returned on
    the context of the bound method; when the call had to transcribe,
    every registered stage had been handed to [transcribe] before, once
    each and in order, and that context holds all of them; when the
    orchestrator was transcribed already, the call changed nothing. *)
Theorem solve_returns_solver_result (w : World) (r : OcpxSolution) :
  (Solve w).1 = Normal r →
  let w1 := (Solve w).2 in
  ∃ m m', _method (ocp w) = Some m ∧ _method (ocp w1) = Some m' ∧
    opti_solve (opti m') = inl (sol r) ∧
    if is_transcribed (ocp w) then w1 = w
    else trace w1 = trace w ++ stages (ocp w) ∧
         opti m' = transcribe_all transcribe (heap w) (stages (ocp w)) (opti m).
Proof.
  intros Hr w1. subst w1. rewrite solve_unfold in Hr |- *.
  destruct (_method (ocp w)) as [m|] eqn:Hm; [|done].
  destruct (is_transcribed (ocp w)) eqn:Ht; simpl in *.
  - rewrite Hm in Hr |- *. simpl in *.
    destruct (opti_solve (opti m)) as [x|e'] eqn:Hsol; [|done].
    injection Hr as <-. by exists m, m.
  - pose proof (transcribe_loop_complete (stages (ocp w)) w) as Hc.
    destruct (tloop (stages (ocp w)) w) as [[[]|x] w'] eqn:Hl; simpl in *; [|done].
    destruct (_method (ocp w')) as [m'|] eqn:Hm'; simpl in *; [|done].
    destruct (opti_solve (opti m')) as [x|e'] eqn:Hsol; [|done].
    injection Hr as <-. exists m, m'. repeat split; [done..| |].
    + by destruct Hc.
    + destruct Hc as [_ Hop]; [done|]. unfold ocp_opti in Hop.
      rewrite Hm, Hm' in Hop. simpl in Hop. by injection Hop.
Qed.

(** [solve] neither creates nor changes a stage object, and leaves the
    stage list as it is. *)
Lemma solve_frame (w : World) :
  heap (Solve w).2 = heap w ∧ stages (ocp (Solve w).2) = stages (ocp w).
Proof.
  rewrite solve_unfold.
  destruct (_method (ocp w)) as [m|] eqn:Hm; [|done].
  destruct (is_transcribed (ocp w)); simpl.
  { by rewrite Hm. }
  pose proof (transcribe_loop_frame (stages (ocp w)) w) as (Hh & Hs & _).
  destruct (tloop (stages (ocp w)) w) as [[[]|x] w']; simpl in *; [|done].
  by destruct (_method (ocp w')).
Qed.

(** The loop finds an object behind every reference that is alive. *)
Lemma transcribe_loop_alive (ss : list loc) (w : World) :
  Forall (λ s, is_Some (heap w !! s)) ss →
  (tloop ss w).1 ≠ Raised DanglingReference.
Proof.
  revert w. induction ss as [|s ss IH]; intros w Hall; simpl; [done|].
  inversion_clear Hall as [|?? [st Hst] Hall'].
  unfold bind. pose proof (transcribe_stage_spec s w) as Hs.
  destruct w as [h [sl tr om] t]; simpl in *. rewrite Hst in Hs.
  destruct om as [m|]; rewrite Hs; simpl; [|done].
  destruct (transcribe _ st (opti m)) as [op [e|]]; simpl; [done|].
  by apply IH.
Qed.

Lemma registered_ok_init (h : gmap loc (@Stage Constr Strategy Opti)) (t : list loc) :
  registered_ok (mkWorld h OcpMultiStage_init t).
Proof. split; simpl; constructor. Qed.

(** X5. The stage list never holds the same object twice, nor a
    reference without object: when this holds, [stage] (from scratch or
    from an existing stage) returns an object that was not registered
    before, and [stage], [method] and [solve] keep it so; [solve] then
    finds every stage it is to transcribe. *)
Theorem registered_stages_distinct (w : World) :
  registered_ok w →
  (∀ p kw, (∀ q, p = Some q → is_Some (heap w !! q)) →
     ∃ s, (NewStage p kw w).1 = Normal s ∧ (s ∉ stages (ocp w)) ∧
          registered_ok (NewStage p kw w).2) ∧
  (∀ m, registered_ok (method (Err:=Err) m w).2) ∧
  registered_ok (Solve w).2 ∧
  (Solve w).1 ≠ Raised DanglingReference.
Proof.
  intros [Hnd Hall]. split; [|split; [|split]].
  - intros p kw Hp.
    set (s := fresh (dom (heap w))).
    assert (s ∉ stages (ocp w)) as Hs.
    { intros Hin. rewrite list.Forall_forall in Hall.
      apply Hall, elem_of_dom in Hin. by apply (is_fresh (dom (heap w))). }
    assert (∃ st, NewStage p kw w =
              (Normal s, mkWorld (<[s := st]> (heap w))
                           (mkOcpMultiStage (stages (ocp w) ++ [s])
                              (is_transcribed (ocp w)) (_method (ocp w)))
                           (trace w))) as [st Hcall].
    { destruct w as [h [sl tr om] t].
      unfold stage, bind, deepcopy, deref, alloc, get_ocp, put_ocp, ret; simpl.
      destruct p as [q|]; simpl; [|by eexists].
      destruct (Hp q eq_refl) as [st Hq]. simpl in Hq.
      unfold bind, deref; simpl. rewrite Hq. by eexists. }
    exists s. rewrite Hcall. simpl. split; [done|]. split; [done|].
    split; simpl.
    + apply list.NoDup_app. split; [done|]. split; [|apply list.NoDup_singleton].
      intros x Hx ->%list_elem_of_singleton. done.
    + apply list.Forall_app. split.
      * eapply list.Forall_impl; [exact Hall|]. intros x [sx Hx]. simpl.
        destruct (decide (x = s)) as [->|Hne].
        -- rewrite lookup_insert_eq. by eexists.
        -- rewrite lookup_insert_ne by done. by eexists.
      * constructor; [|constructor]. rewrite lookup_insert_eq. by eexists.
  - intros m. by destruct w as [h [sl tr om] t].
  - destruct (solve_frame w) as [Hh Hs]. unfold registered_ok.
    by rewrite Hh, Hs.
  - rewrite solve_unfold.
    destruct (_method (ocp w)) as [m|] eqn:Hm; [|done].
    destruct (is_transcribed (ocp w)); simpl.
    { rewrite Hm. simpl. by destruct (opti_solve (opti m)). }
    pose proof (transcribe_loop_alive (stages (ocp w)) w Hall) as Hl.
    destruct (tloop (stages (ocp w)) w) as [[[]|x] w']; simpl in *.
    + destruct (_method (ocp w')) as [m'|]; simpl; [|done].
      by destruct (opti_solve (opti m')).
    + congruence.
Qed.

End OrchestratorFacts.

(** * The statements at concrete inputs *)

(** Two calls of [solve] on the small orchestrator: both stages are
    transcribed once, in order, and the second call returns the same
    solution from the same world. *)
Lemma solve_transcribes_once_witness :
  trace (solve toy_transcribe toy_solve toy_world).2 = [1; 2]%positive ∧
  ocp_opti (solve toy_transcribe toy_solve toy_world).2 = Some [1; 2; 3; 4; 5]%nat ∧
  (solve toy_transcribe toy_solve (solve toy_transcribe toy_solve toy_world).2)
    = (Normal (mkOcpxSolution 5%nat), (solve toy_transcribe toy_solve toy_world).2).
Proof.
  destruct (solve_transcribes_once toy_transcribe toy_solve toy_world toy_method)
    as (Htrace & Hopti & _ & Hsame & _ & _ & Hres); [reflexivity..|].
  split; [exact Htrace|]. split; [exact Hopti|].
  cbv zeta in Hsame, Hres.
  rewrite (surjective_pairing (solve _ _ (solve _ _ toy_world).2)).
  rewrite Hsame, Hres. reflexivity.
Defined.

(** A second stage without states makes the first [solve] raise; after
    the stage objects are repaired the next [solve] transcribes both
    stages again, into the context the failed call left behind. *)
Lemma solve_failed_transcription_retry_witness :
  is_transcribed (ocp (solve toy_transcribe toy_solve toy_world_broken).2) = false ∧
  trace (solve toy_transcribe toy_solve toy_world_broken).2 = [1; 2]%positive ∧
  trace (solve toy_transcribe toy_solve
           (with_heap toy_heap (solve toy_transcribe toy_solve toy_world_broken).2)).2
    = [1; 2; 1; 2]%positive ∧
  ocp_opti (solve toy_transcribe toy_solve
              (with_heap toy_heap (solve toy_transcribe toy_solve toy_world_broken).2)).2
    = Some [1; 2; 3; 1; 2; 3; 4; 5]%nat.
Proof.
  destruct (solve_failed_transcription_retry toy_transcribe toy_solve
              toy_world_broken tt) as (_ & Hflag & _ & Hretry); [reflexivity|].
  split; [exact Hflag|]. split; [reflexivity|].
  destruct (Hretry toy_heap) as [Htrace _]; [reflexivity|].
  split; [exact Htrace|reflexivity].
Defined.

(** Stages registered after a successful [solve] are not transcribed by
    later calls. *)
Lemma stage_after_solve_never_transcribed_witness :
  trace (run_calls toy_Stage_init toy_transcribe toy_solve
           [CallStage None tt; CallSolve; CallStage (Some 1%positive) tt; CallSolve]
           (solve toy_transcribe toy_solve toy_world).2)
    = [1; 2]%positive.
Proof.
  destruct (stage_after_solve_never_transcribed toy_Stage_init toy_transcribe
              toy_solve toy_world (mkOcpxSolution 5%nat)
              [CallStage None tt; CallSolve; CallStage (Some 1%positive) tt; CallSolve])
    as (Htrace & _); [reflexivity|].
  exact Htrace.
Defined.

(** A copy of the first stage gets a second constraint, the first stage
    keeps its one. *)
Lemma stage_deepcopy_independent_witness :
  ∃ s' w',
    stage (Err:=unit) toy_Stage_init (Some 1%positive) tt toy_world = (Normal s', w') ∧
    (length ∘ stage_constraints <$> heap (subject_to (Err:=unit) s' 8%nat AtTf w').2 !! 1%positive)
      = Some 1%nat ∧
    (length ∘ stage_constraints <$> heap (subject_to (Err:=unit) s' 8%nat AtTf w').2 !! s')
      = Some 2%nat.
Proof.
  destruct (stage_deepcopy_independent (Err:=unit) toy_Stage_init toy_world 1%positive
              toy_stage1 tt) as (s' & w' & Hcall & _ & _ & _ & _ & Hmut);
    [reflexivity|].
  exists s', w'. split; [exact Hcall|].
  destruct (Hmut 8%nat AtTf) as (Hs & Hs' & _).
  split; [|exact Hs']. cbv zeta in Hs. rewrite Hs. reflexivity.
Defined.



(** Degree 2 on three breakpoints: four coefficient columns, then three,
    then two. *)
Lemma bspline_derivative_rule_witness :
  ∃ c',
    bspline_derivative (Matrix 1 [[0]; [1]; [Q2Qc 3]; [Q2Qc 7]])%Qc [0; 1; Q2Qc 2]%Qc 2
      = Some c' ∧
    size2 c' = 3%nat ∧
    (∃ x_lo x_hi c_lo c_hi,
       pad 1 [0; 1; Q2Qc 2]%Qc !! 1%nat = Some x_lo ∧
       pad 1 [0; 1; Q2Qc 2]%Qc !! 3%nat = Some x_hi ∧
       (x_lo < x_hi)%Qc ∧
       entry (Matrix 1 [[0]; [1]; [Q2Qc 3]; [Q2Qc 7]])%Qc 0 1 = Some c_lo ∧
       entry (Matrix 1 [[0]; [1]; [Q2Qc 3]; [Q2Qc 7]])%Qc 0 2 = Some c_hi ∧
       entry c' 0 1 = Some (Qc_of_Z 2 / (x_hi - x_lo) * (c_hi - c_lo))%Qc) ∧
    ∃ c0, bspline_derivatives (Matrix 1 [[0]; [1]; [Q2Qc 3]; [Q2Qc 7]])%Qc
            [0; 1; Q2Qc 2]%Qc 2 = Some c0 ∧ size2 c0 = 2%nat.
Proof.
  destruct (bspline_derivative_rule (Matrix 1 [[0]; [1]; [Q2Qc 3]; [Q2Qc 7]])%Qc
              [0; 1; Q2Qc 2]%Qc 2)
    as (c' & Hc' & _ & _ & Hcols & Hentry & c0 & Hc0 & _ & Hcols0).
  - repeat constructor.
  - lia.
  - simpl; lia.
  - increasing3.
  - reflexivity.
  - exists c'. split; [exact Hc'|]. split; [exact Hcols|]. split.
    + destruct (Hentry 0%nat 1%nat) as (x_lo & x_hi & c_lo & c_hi & H1 & H2 & H3 & H4
                                        & H5 & H6 & _); [simpl; lia..|].
      exists x_lo, x_hi, c_lo, c_hi. repeat (split; [assumption|]). exact H6.
    + exists c0. split; [exact Hc0|exact Hcols0].
Defined.

(** Two subsamples of the first segment of [0, 0, 1/2, 1, 1]; the second
    one is evaluated at [t = 2/3]. *)
Lemma eval_basis_knotindex_subsampled_agrees_witness :
  ∃ M k0 k1,
    eval_basis_knotindex_subsampled 0 2 [0; 0; Q2Qc (1 # 2); 1; 1]%Qc 1 = Some M ∧
    getitem [0; 0; Q2Qc (1 # 2); 1; 1]%Qc 1 = Some k0 ∧
    getitem [0; 0; Q2Qc (1 # 2); 1; 1]%Qc 2 = Some k1 ∧
    size2 M = 2%nat ∧
    ∃ col, columns M !! 1%nat = Some col ∧
      eval_basis_knotindex_at
        (k0 * (1 - Qc_of_Z 2 / Qc_of_Z 3) + Qc_of_Z 2 / Qc_of_Z 3 * k1)%Qc
        0 [0; 0; Q2Qc (1 # 2); 1; 1]%Qc 1 = Some col.
Proof.
  destruct (eval_basis_knotindex_subsampled_agrees 0 2 3 1
              [0; 0; Q2Qc (1 # 2); 1; 1]%Qc)
    as (M & k0 & k1 & _ & _ & HM & Hk0 & Hk1 & Hsize & Hcols & _);
    [reflexivity|lia..|].
  exists M, k0, k1. split; [exact HM|]. split; [exact Hk0|]. split; [exact Hk1|].
  split; [exact Hsize|].
  destruct (Hcols 1%nat) as (_ & col & Hcol & Heval); [lia|].
  exists col. split; [exact Hcol|exact Heval].
Defined.

(** Free symbols as breakpoints, a single breakpoint (which raises,
    symbolic or not), and numeric breakpoints. *)
Lemma eval_on_knots_numeric_or_symbolic_witness :
  is_Some (eval_on_knots [ESym 0; ESym 1; ESym 2] 2 3) ∧
  (eval_on_knots [ESym 0] 1 0 = None ↔ eval_on_knots [EConst 1] 1 0 = None) ∧
  eval_on_knots [EConst 0; EConst 1] 1 0
    = (λ r, (Numeric r.1, Numeric r.2)) <$> eval_on_knots_raw [0; 1]%Qc 1 0.
Proof.
  split; [|split].
  - apply (eval_on_knots_numeric_or_symbolic [ESym 0; ESym 1; ESym 2] 2 3); [lia|reflexivity|lia].
  - apply (eval_on_knots_numeric_or_symbolic [EConst 1] 1 0). reflexivity.
  - apply (eval_on_knots_numeric_or_symbolic [EConst 0; EConst 1] 1 0). reflexivity.
Defined.

(** * The further properties at concrete inputs *)

(** A fresh orchestrator with two stage objects around: after a stage and
    an attempt to solve, [solve] still raises for want of a method. *)
Lemma solve_without_method_raises_witness :
  solve toy_transcribe toy_solve
    (run_calls toy_Stage_init toy_transcribe toy_solve [CallStage None tt; CallSolve]
       (mkWorld toy_heap OcpMultiStage_init []))
  = (Raised AttributeError,
     run_calls toy_Stage_init toy_transcribe toy_solve [CallStage None tt; CallSolve]
       (mkWorld toy_heap OcpMultiStage_init [])).
Proof.
  destruct (solve_without_method_raises toy_Stage_init toy_transcribe toy_solve
              (mkWorld toy_heap OcpMultiStage_init []) [CallStage None tt; CallSolve])
    as (_ & _ & _ & Hsolve); [reflexivity|].
  exact Hsolve.
Defined.

(** The solver fails on the small orchestrator: both stages are
    transcribed, the flag is set. *)
Lemma solve_solver_error_keeps_transcription_witness :
  is_transcribed (ocp (solve toy_transcribe toy_solve_failing toy_world).2) = true ∧
  trace (solve toy_transcribe toy_solve_failing toy_world).2 = [1; 2]%positive.
Proof.
  destruct (solve_solver_error_keeps_transcription toy_transcribe toy_solve_failing
              toy_world tt) as (Hflag & Htrace & _); [reflexivity|].
  split; [exact Hflag|]. exact (proj1 (Htrace eq_refl)).
Defined.

(** The second stage of the broken world raises in [transcribe]. *)
Lemma solve_transcription_error_stops_witness :
  ∃ k s, stages (ocp toy_world_broken) !! k = Some s ∧
    trace (solve toy_transcribe toy_solve toy_world_broken).2
      = take (S k) (stages (ocp toy_world_broken)) ∧
    is_transcribed (ocp (solve toy_transcribe toy_solve toy_world_broken).2) = false.
Proof.
  destruct (solve_transcription_error_stops toy_transcribe toy_solve
              toy_world_broken tt)
    as (k & s & st & m & Hk & _ & _ & _ & Htrace & _ & Hflag); [reflexivity|].
  exists k, s. split; [exact Hk|]. split; [exact Htrace|exact Hflag].
Defined.

(** A method with one registered variable, bound after the first solve. *)
Lemma method_after_transcription_not_transcribed_witness :
  solve toy_transcribe toy_solve
    (method (Err:=unit) (mkMethod tt [9%nat])
       (solve toy_transcribe toy_solve toy_world).2).2
  = (Normal (mkOcpxSolution 1%nat),
     (method (Err:=unit) (mkMethod tt [9%nat])
        (solve toy_transcribe toy_solve toy_world).2).2).
Proof.
  destruct (method_after_transcription_not_transcribed toy_transcribe toy_solve
              (solve toy_transcribe toy_solve toy_world).2 (mkMethod tt [9%nat]))
    as (_ & _ & _ & Hsolve & _); [reflexivity|].
  exact Hsolve.
Defined.

(** The two stages of the small orchestrator are distinct objects. *)
Lemma registered_stages_distinct_witness :
  registered_ok (solve toy_transcribe toy_solve toy_world).2 ∧
  (solve toy_transcribe toy_solve toy_world).1 ≠ Raised DanglingReference.
Proof.
  destruct (registered_stages_distinct (Kwargs:=unit) toy_Stage_init toy_transcribe
              toy_solve toy_world) as (_ & _ & Hok & Hno).
  - split.
    + apply NoDup_cons_2; [|apply NoDup_singleton].
      intros Hin%list_elem_of_singleton. discriminate Hin.
    + repeat constructor; eexists; reflexivity.
  - split; [exact Hok|exact Hno].
Defined.

(** The solution of the small orchestrator is the length of the five
    registered variables. *)
Lemma solve_returns_solver_result_witness :
  ∃ m', _method (ocp (solve toy_transcribe toy_solve toy_world).2) = Some m' ∧
        toy_solve (opti m') = inl 5%nat ∧
        opti m' = [1; 2; 3; 4; 5]%nat.
Proof.
  destruct (solve_returns_solver_result toy_transcribe toy_solve toy_world
              (mkOcpxSolution 5%nat)) as (m & m' & Hm & Hm' & Hsol & _ & Hop);
    [reflexivity|].
  exists m'. split; [exact Hm'|]. split; [exact Hsol|].
  injection Hm as <-. exact Hop.
Defined.

(** The first pass on five knots of degree 1, at [x = 1/4]. *)
Lemma cox_de_boor_step_recurrence_witness :
  ∃ v, cox_de_boor_step [0; 0; Q2Qc (1 # 2); 1; 1]%Qc 1 (Q2Qc (1 # 4))
         [0; 1; 0; 0; 0]%Qc 1 = Some v ∧
       length v = 3%nat.
Proof.
  destruct (cox_de_boor_step_recurrence [0; 0; Q2Qc (1 # 2); 1; 1]%Qc
              [0; 1; 0; 0; 0]%Qc 3 1 1 (Q2Qc (1 # 4)))
    as (v & Hv & Hlen & _); [reflexivity|lia|lia|simpl; lia|].
  exists v. split; [exact Hv|exact Hlen].
Defined.

Lemma eval_basis_knotindex_local_support_witness :
  ∃ col, eval_basis_knotindex 1 [0; 0; Q2Qc (1 # 2); 1; 1]%Qc 1 = Some col ∧
         length col = 3%nat.
Proof.
  destruct (eval_basis_knotindex_local_support [0; Q2Qc (1 # 2); 1]%Qc 1 2 1
              [0; 0; Q2Qc (1 # 2); 1; 1]%Qc) as [(col & Hcol & Hlen & _) _];
    [lia|simpl; lia|simpl; lia|increasing3|reflexivity|].
  exists col. split; [exact Hcol|exact Hlen].
Defined.

(** Two free symbols as breakpoints, two subsamples. *)
Lemma eval_on_knots_table_shape_witness :
  ∃ k M, eval_on_knots_raw [ESym 0; ESym 1] 1 2 = Some (k, M) ∧
         length k = 4%nat ∧ size1 M = 2%nat ∧ size2 M = 4%nat.
Proof.
  destruct (eval_on_knots_table_shape [ESym 0; ESym 1] 1 2)
    as (tau & k & M & _ & _ & Hraw & _ & Hlen & Hrows & Hcols & _);
    [lia|simpl; lia|].
  exists k, M. split; [exact Hraw|]. split; [exact Hlen|]. split; [exact Hrows|].
  rewrite Hcols. exact Hlen.
Defined.

Lemma bspline_derivative_column_mismatch_witness :
  bspline_derivative (Matrix 2 [[0; 1]; [1; 1]; [2; 0]; [1; 2]])%Qc [0; 1; 2; Q2Qc 3]%Qc 3
  = None.
Proof.
  apply (bspline_derivative_column_mismatch
           (Matrix 2 [[0; 1]; [1; 1]; [2; 0]; [1; 2]])%Qc [0; 1; 2; Q2Qc 3]%Qc 3).
  - repeat constructor.
  - simpl; lia.
  - reflexivity.
  - lia.
  - simpl; lia.
Defined.

Lemma eval_basis_knotindex_out_of_range_witness :
  eval_basis_knotindex 4 [0; 0; Q2Qc (1 # 2); 1; 1]%Qc 1 = None ∧
  eval_basis_knotindex_subsampled 3 2 [0; 0; Q2Qc (1 # 2); 1; 1]%Qc 1 = None.
Proof.
  split.
  - apply (eval_basis_knotindex_out_of_range 4 1 2 [0; 0; Q2Qc (1 # 2); 1; 1]%Qc);
      [lia|lia|reflexivity].
  - apply (eval_basis_knotindex_out_of_range 3 1 2 [0; 0; Q2Qc (1 # 2); 1; 1]%Qc);
      [lia|lia|reflexivity].
Defined.

(** The midpoint of the path. *)
Lemma desired_path_reachable_witness :
  (- Q2Qc (7 # 16) ≤ PathFollowing.chi_inv_c (PathFollowing.yd (Q2Qc (1 # 2))))%Qc ∧
  (PathFollowing.chi_inv_c (PathFollowing.yd (Q2Qc (1 # 2))) ≤ Q2Qc (1 # 8))%Qc.
Proof.
  destruct (desired_path_reachable (Q2Qc (1 # 2))) as (_ & _ & _ & Hlo & Hhi).
  - discriminate.
  - discriminate.
  - split; [exact Hlo|exact Hhi].
Defined.

(** The elbow at sixty degrees, where the cosine is one half. *)
Lemma mass_matrix_positive_definite_witness :
  (0 < (PathFollowing.M (λ _, Q2Qc (1 # 2)) (0, 1)).1.1)%Qc.
Proof.
  destruct (mass_matrix_positive_definite (λ _, Q2Qc (1 # 2)) (0, 1)%Qc)
    as (_ & Hpos & _).
  - discriminate.
  - discriminate.
  - exact Hpos.
Defined.
